(** * Streaming block pipeline of the chat interface: client hook and SSE parser

    A shallow embedding of
      - [utils/sse_parser.ts]       (class [SSEParser], function [parseSSELine]);
      - [examples/frontend/useStreamingQuery.ts]
        (the block handlers of [streamQuery], [applyBlockDelta],
        [stateToContentBlock], [buildBlocksFromState], [blocksToTextFallback],
        and the read loop of [streamQuery] with its timer, its animation-frame
        batching and its calls of [onMessageUpdate] / [onError]; the part of
        [streamQuery] before the loop with the [catch] block, and the cutting
        of the chunks into lines);
      - [examples/frontend/BlockRenderer.tsx]
        ([TextBlock]: the cutting of a content at its inline citations).

    Conventions.
      - A JavaScript string is a Rocq [string]; its characters stand for code
        units below 256.
      - A plain object used as a record of fields ([state.data], the [data] of a
        [ContentBlock]) is a [gmap string jsval] of its own properties.
      - Arrays are objects with identity: a value [JRef l] points to the cell
        [l] of a heap, and [push] updates that cell in place, so every holder
        of the reference observes the update.
      - The [Map] of open blocks is an association list in insertion order,
        which is the order in which [Map.prototype.values] enumerates it.
      - Exceptions ([JSON.parse] raising [SyntaxError], a [TypeError] on a
        call of a non-function) are explicit results. *)

From Stdlib Require Import Ascii NArith.
From stdpp Require Import base option list strings gmap fin_maps pretty sorting.

Set Default Proof Using "Type".

(** ** JavaScript exceptions and strings *)

Inductive exn := SyntaxError | TypeError.

Module JsString.

(** [WhiteSpace] and [LineTerminator] code units below 256: TAB, LF, VT, FF,
    CR, SP and NBSP.  Both [String.prototype.trim] and the regular-expression
    class [\s] use this set. *)
Definition is_ws (c : ascii) : bool :=
  match c with
  | "009" | "010" | "011" | "012" | "013" | " " | "160" => true
  | _ => false
  end%char.

Fixpoint trimStart (s : string) : string :=
  match s with
  | EmptyString => EmptyString
  | String c s' => if is_ws c then trimStart s' else s
  end.

Fixpoint trimEnd (s : string) : string :=
  match s with
  | EmptyString => EmptyString
  | String c s' =>
      match trimEnd s' with
      | EmptyString => if is_ws c then EmptyString else String c EmptyString
      | t => String c t
      end
  end.

(** [s.trim()] *)
Definition trim (s : string) : string := trimEnd (trimStart s).

(** [s.startsWith(p)] *)
Fixpoint startsWith (p s : string) : bool :=
  match p, s with
  | EmptyString, _ => true
  | String a p', String b s' => if Ascii.eqb a b then startsWith p' s' else false
  | String _ _, EmptyString => false
  end.

Fixpoint drop (n : nat) (s : string) : string :=
  match n, s with
  | O, _ => s
  | S n', String _ s' => drop n' s'
  | S _, EmptyString => EmptyString
  end.

(** [s.replace(/^p\s*/g, '')] for a literal prefix [p]: the pattern is
    anchored at the start, so at most one occurrence is removed; a string
    that does not match is returned unchanged. *)
Definition replace_prefix_ws (p s : string) : string :=
  if startsWith p s then trimStart (drop (String.length p) s) else s.

(** [!s] on a string: only the empty string is falsy. *)
Definition falsy (s : string) : bool :=
  match s with EmptyString => true | _ => false end.

(** [s.split(d)] for a one-character separator [d]: never the empty list,
    [''.split('|')] is [['']]. *)
Fixpoint split (d : ascii) (s : string) : list string :=
  match s with
  | EmptyString => [EmptyString]
  | String c s' =>
      if Ascii.eqb c d then EmptyString :: split d s'
      else match split d s' with
           | [] => [String c EmptyString]
           | w :: ws => String c w :: ws
           end
  end.

(** [xs.join(sep)] on an array of strings. *)
Fixpoint join (sep : string) (xs : list string) : string :=
  match xs with
  | [] => ""
  | [x] => x
  | x :: xs' => x +:+ sep +:+ join sep xs'
  end.

Lemma trimStart_idemp s : trimStart (trimStart s) = trimStart s.
Proof.
  induction s as [|c s IH]; simpl; [done|].
  destruct (is_ws c) eqn:Hc; [done|]. simpl. by rewrite Hc.
Qed.

(** Removing the prefix together with the white space after it and then
    trimming is trimming what follows the prefix. *)
Lemma trim_replace_prefix_ws p s :
  startsWith p s = true →
  trim (replace_prefix_ws p s) = trim (drop (String.length p) s).
Proof.
  intros Hp. unfold replace_prefix_ws, trim. by rewrite Hp, trimStart_idemp.
Qed.

Lemma startsWith_cons a p s :
  startsWith (String a p) s = true →
  ∃ s', s = String a s' ∧ startsWith p s' = true.
Proof.
  destruct s as [|b s']; simpl; [done|].
  destruct (Ascii.eqb a b) eqn:E; [|done].
  apply Ascii.eqb_eq in E as <-. eauto.
Qed.

(** Concatenation of a list of strings, first to last. *)
Definition concat_all (xs : list string) : string := foldr String.append "" xs.

Lemma append_cons x (a b : string) : String x a +:+ b = String x (a +:+ b).
Proof. reflexivity. Qed.

Lemma append_assoc (a b c : string) : (a +:+ b) +:+ c = a +:+ (b +:+ c).
Proof. induction a as [|x a IH]; [done|]. by rewrite !append_cons, IH. Qed.

Lemma append_empty_r (a : string) : a +:+ "" = a.
Proof. induction a as [|x a IH]; [done|]. by rewrite append_cons, IH. Qed.

Lemma concat_all_snoc xs x : concat_all (xs ++ [x]) = concat_all xs +:+ x.
Proof.
  induction xs as [|y xs IH]; unfold concat_all in *; simpl.
  - by rewrite append_empty_r.
  - by rewrite IH, append_assoc.
Qed.

Lemma falsy_true s : falsy s = true ↔ s = "".
Proof. by destruct s. Qed.

End JsString.

(** ** [utils/sse_parser.ts] *)

Module SseParser.
Import JsString.

(** A computation over the parser object: it reads and writes the private
    field, and either returns or throws.  Writes made before a throw stay. *)
Definition M (S A : Type) : Type := S → (exn + A) * S.

Global Instance M_ret {S} : MRet (M S) := λ A a s, (inr a, s).
Global Instance M_bind {S} : MBind (M S) := λ A B k m s,
  match m s with
  | (inr a, s') => k a s'
  | (inl e, s') => (inl e, s')
  end.
Definition get {S} : M S S := λ s, (inr s, s).
Definition put {S} (s' : S) : M S unit := λ _, (inr tt, s').
Definition lift {S A} (r : exn + A) : M S A := λ s, (r, s).
(** [try { body } catch { handler }] *)
Definition try_catch {S A} (body handler : M S A) : M S A :=
  λ s, match body s with
       | (inl _, s') => handler s'
       | r => r
       end.

Definition DATA_PREFIX : string := "data:".
Definition EVENT_PREFIX : string := "event:".

Section parser.
(** The type [any] of parsed payloads and the built-in [JSON.parse], which
    returns the parsed value or throws [SyntaxError].  The empty text is
    not JSON. *)
Variable any : Type.
Variable JSON_parse : string → exn + any.
Hypothesis JSON_parse_empty : JSON_parse "" = inl SyntaxError.

(** [{ eventName?: string, data: any }]; [SSEParseResult] adds [null]. *)
Record SSEEvent := { eventName : option string; data : any }.
Definition SSEParseResult : Type := option SSEEvent.

(** The object state: [private currentEventName: string | null]. *)
Record SSEParser := { currentEventName : option string }.

Definition set_name (n : option string) : M SSEParser unit :=
  put {| currentEventName := n |}.

(** [this.currentEventName || undefined] *)
Definition name_or_undefined (n : option string) : option string :=
  match n with
  | Some s => if falsy s then None else Some s
  | None => None
  end.

Definition parseLine (line : string) : M SSEParser SSEParseResult :=
  if startsWith "event:" line then
    set_name (Some (trim (replace_prefix_ws EVENT_PREFIX line))) ;;
    mret None
  else if startsWith "data:" line then
    let payload := trim (replace_prefix_ws DATA_PREFIX line) in
    if falsy payload then
      set_name None ;; mret None
    else
      try_catch
        (data ← lift (JSON_parse payload);
         this ← get;
         let result :=
           {| eventName := name_or_undefined (currentEventName this);
              data := data |} in
         set_name None ;;
         mret (Some result))
        (set_name None ;; mret None)
  else
    (if falsy (trim line) then set_name None else mret tt) ;;
    mret None.

(** The legacy function: no object state, so a plain fallible result. *)
Definition parseSSELine (line : string) : exn + option any :=
  if negb (startsWith "data:" line) then inr None
  else
    let payload := trim (replace_prefix_ws DATA_PREFIX line) in
    if falsy payload then inr None
    else match JSON_parse payload with
         | inr v => inr (Some v)
         | inl _ => inr None
         end.

(** Feeding a sequence of lines to one parser object, collecting the
    results; a throw would stop the sequence. *)
Fixpoint parseLines (lines : list string) : M SSEParser (list SSEParseResult) :=
  match lines with
  | [] => mret []
  | l :: ls => r ← parseLine l; rs ← parseLines ls; mret (r :: rs)
  end.

(** The payload of a [data:] line. *)
Definition payload_of (line : string) : string := trim (drop 5 line).

Lemma payload_of_eq line :
  startsWith "data:" line = true →
  trim (replace_prefix_ws DATA_PREFIX line) = payload_of line.
Proof. intros H. by rewrite trim_replace_prefix_ws. Qed.

Lemma data_not_event line :
  startsWith "data:" line = true → startsWith "event:" line = false.
Proof.
  intros (rest & -> & _)%startsWith_cons. done.
Qed.

(** A line that starts with one of the two prefixes is not blank. *)
Lemma prefixed_not_blank p line :
  p = "data:" ∨ p = "event:" →
  startsWith p line = true → falsy (trim line) = false.
Proof.
  intros [-> | ->] (rest & -> & _)%startsWith_cons;
    unfold trim; simpl; by destruct (trimEnd rest).
Qed.
Lemma name_or_undefined_Some n : n ≠ "" → name_or_undefined (Some n) = Some n.
Proof. by destruct n. Qed.

Lemma parseLine_event st line :
  startsWith "event:" line = true →
  parseLine line st
  = (inr None, {| currentEventName := Some (trim (drop 6 line)) |}).
Proof.
  intros H. unfold parseLine. rewrite H.
  by rewrite (trim_replace_prefix_ws EVENT_PREFIX line H).
Qed.

Lemma parseLine_data_empty st line :
  startsWith "data:" line = true → payload_of line = "" →
  parseLine line st = (inr None, {| currentEventName := None |}).
Proof.
  intros H He. unfold parseLine.
  rewrite (data_not_event _ H), H, (payload_of_eq _ H), He. done.
Qed.

Lemma parseLine_data_parsed st line v :
  startsWith "data:" line = true → JSON_parse (payload_of line) = inr v →
  parseLine line st
  = (inr (Some {| eventName := name_or_undefined (currentEventName st);
                  data := v |}),
     {| currentEventName := None |}).
Proof using JSON_parse_empty.
  intros H Hv. unfold parseLine.
  rewrite (data_not_event _ H), H, (payload_of_eq _ H).
  destruct (falsy (payload_of line)) eqn:Hf.
  { apply falsy_true in Hf. rewrite Hf, JSON_parse_empty in Hv. done. }
  unfold try_catch, mbind, M_bind, lift, get, set_name, put, mret, M_ret.
  by rewrite Hv.
Qed.

Lemma parseLine_data_failed st line e :
  startsWith "data:" line = true → JSON_parse (payload_of line) = inl e →
  parseLine line st = (inr None, {| currentEventName := None |}).
Proof.
  intros H He. unfold parseLine.
  rewrite (data_not_event _ H), H, (payload_of_eq _ H).
  destruct (falsy (payload_of line)); [done|].
  unfold try_catch, mbind, M_bind, lift, get, set_name, put, mret, M_ret.
  by rewrite He.
Qed.

Lemma parseLine_other st line :
  startsWith "event:" line = false → startsWith "data:" line = false →
  parseLine line st
  = (inr None, if falsy (trim line) then {| currentEventName := None |} else st).
Proof.
  intros H1 H2. unfold parseLine. rewrite H1, H2.
  by destruct (falsy (trim line)).
Qed.

Lemma parseLine_returns st line : ∃ r st', parseLine line st = (inr r, st').
Proof using JSON_parse_empty.
  destruct (startsWith "event:" line) eqn:He.
  { rewrite parseLine_event by done. eauto. }
  destruct (startsWith "data:" line) eqn:Hd.
  - destruct (JSON_parse (payload_of line)) as [e|v] eqn:Hp.
    + erewrite parseLine_data_failed by done. eauto.
    + erewrite parseLine_data_parsed by done. eauto.
  - rewrite parseLine_other by done. eauto.
Qed.

Lemma parseLines_returns lines st :
  ∃ rs st', parseLines lines st = (inr rs, st') ∧ length rs = length lines.
Proof using JSON_parse_empty.
  revert st. induction lines as [|l ls IH]; intros st; simpl.
  { by exists [], st. }
  destruct (parseLine_returns st l) as (r & st1 & Hr).
  destruct (IH st1) as (rs & st2 & Hrs & Hlen).
  exists (r :: rs), st2. unfold mbind, M_bind at 1. rewrite Hr.
  unfold mbind, M_bind. rewrite Hrs. simpl. by rewrite Hlen.
Qed.

(** C8.  What [SSEParser.parseLine] does with one line, in whatever state the
    lines fed before have left the parser: an [event:] line records the
    trimmed name and returns null; a [data:] line with a JSON payload returns
    the parsed data together with the pending event name (an empty pending
    name is no name: [currentEventName || undefined]) and clears the pending
    name; a blank line clears the pending name; every line that is neither
    returns null, and leaves the pending name alone unless it is blank. *)
Theorem parseLine_spec (st : SSEParser) (line : string) :
  (startsWith "event:" line = true →
     parseLine line st
     = (inr None, {| currentEventName := Some (trim (drop 6 line)) |}))
  ∧ (∀ v, startsWith "data:" line = true →
          JSON_parse (payload_of line) = inr v →
     parseLine line st
     = (inr (Some {| eventName := name_or_undefined (currentEventName st);
                     data := v |}),
        {| currentEventName := None |})
     ∧ ∀ n, currentEventName st = Some n → n ≠ "" →
            name_or_undefined (currentEventName st) = Some n)
  ∧ (trim line = "" →
     parseLine line st = (inr None, {| currentEventName := None |}))
  ∧ (startsWith "event:" line = false → startsWith "data:" line = false →
     ∃ st', parseLine line st = (inr None, st')
            ∧ (trim line ≠ "" → st' = st)).
Proof using JSON_parse_empty.
  repeat split.
  - apply parseLine_event.
  - by apply parseLine_data_parsed.
  - intros n -> Hn. by apply name_or_undefined_Some.
  - intros Hb.
    assert (Hf : falsy (trim line) = true) by by apply falsy_true.
    destruct (startsWith "event:" line) eqn:He.
    { rewrite (prefixed_not_blank "event:" line) in Hf; [done|by right|done]. }
    destruct (startsWith "data:" line) eqn:Hd.
    { rewrite (prefixed_not_blank "data:" line) in Hf; [done|by left|done]. }
    by rewrite parseLine_other, Hf.
  - intros H1 H2. rewrite parseLine_other by done.
    eexists; split; [done|]. intros Hne.
    destruct (falsy (trim line)) eqn:Hf; [|done].
    by apply falsy_true in Hf.
Qed.

(** C9.  Neither [SSEParser.parseLine] nor [parseSSELine] throws, on any
    line and in any parser state; a [data:] line whose payload is empty or
    makes [JSON.parse] throw yields null from both, and [parseLine] then also
    clears the pending event name. *)
Theorem parse_never_throws (st : SSEParser) (line : string) :
  (∃ r st', parseLine line st = (inr r, st'))
  ∧ (∃ r, parseSSELine line = inr r)
  ∧ (startsWith "data:" line = true →
     payload_of line = "" ∨ (∃ e, JSON_parse (payload_of line) = inl e) →
     parseLine line st = (inr None, {| currentEventName := None |})
     ∧ parseSSELine line = inr None).
Proof using JSON_parse_empty.
  split; [apply parseLine_returns|]. split.
  - unfold parseSSELine. destruct (negb _); [by eexists|].
    destruct (falsy _); [by eexists|].
    destruct (JSON_parse (trim _)); by eexists.
  - intros Hd Hbad. split.
    + destruct Hbad as [He | [e He]].
      * by apply parseLine_data_empty.
      * by eapply parseLine_data_failed.
    + unfold parseSSELine. rewrite Hd, (payload_of_eq _ Hd). simpl.
      destruct Hbad as [-> | [e ->]]; [done|].
      by destruct (falsy _).
Qed.

End parser.

(** *** Concrete runs *)

(** A fragment of [JSON.parse], the three literal names, to run the parser on
    concrete lines. *)
Definition parse_literal (s : string) : exn + option bool :=
  if String.eqb s "null" then inr None
  else if String.eqb s "true" then inr (Some true)
  else if String.eqb s "false" then inr (Some false)
  else inl SyntaxError.

Definition fresh_parser : SSEParser := {| currentEventName := None |}.

Example named_event_run :
  parseLines (option bool) parse_literal
    ["event: block"; "data: true"; ""; "data: false"; "data: {oops"; ": ping"]
    fresh_parser
  = (inr [None;
          Some {| eventName := Some "block"; data := Some true |};
          None;
          Some {| eventName := None; data := Some false |};
          None;
          None],
     fresh_parser).
Proof. reflexivity. Qed.

Lemma parseLine_spec_witness :
  parseLine (option bool) parse_literal "event: block" fresh_parser
  = (inr None, {| currentEventName := Some "block" |})
  ∧ parseLine (option bool) parse_literal "data: true"
      {| currentEventName := Some "block" |}
    = (inr (Some {| eventName := Some "block"; data := Some true |}),
       fresh_parser).
Proof.
  pose proof (parseLine_spec (option bool) parse_literal eq_refl) as H.
  split.
  - destruct (H fresh_parser "event: block") as [He _]. exact (He eq_refl).
  - destruct (H {| currentEventName := Some "block" |} "data: true")
      as (_ & Hd & _).
    destruct (Hd (Some true) eq_refl eq_refl) as [Hd1 _]. exact Hd1.
Defined.

Lemma parse_never_throws_witness :
  parseLine (option bool) parse_literal "data: {oops"
    {| currentEventName := Some "block" |}
  = (inr None, fresh_parser)
  ∧ parseSSELine (option bool) parse_literal "data: {oops" = inr None.
Proof.
  destruct (parse_never_throws (option bool) parse_literal eq_refl
              {| currentEventName := Some "block" |} "data: {oops")
    as (_ & _ & H).
  apply H; [reflexivity|]. right. exists SyntaxError. reflexivity.
Defined.

End SseParser.

(** ** [examples/frontend/useStreamingQuery.ts]: the block assembler *)

Module Hook.
Import JsString.

(** *** Values, arrays and the heap *)

Abbreviation loc := nat.

(** The values the hook stores under a path of [state.data]: strings and
    arrays.  An array is a reference to a heap cell holding its elements. *)
Inductive jsval :=
| JStr (s : string)
| JRef (l : loc).

Global Instance jsval_eq_dec : EqDecision jsval.
Proof. solve_decision. Defined.

Abbreviation Heap := (list (list jsval)).

(** [[...]]: a new array. *)
Definition alloc (h : Heap) (elems : list jsval) : loc * Heap :=
  (length h, h ++ [elems]).

(** [arr.push(v)] on the array in cell [l]. *)
Definition push (h : Heap) (l : loc) (v : jsval) : Heap :=
  alter (λ elems, elems ++ [v]) l h.

(** JavaScript truthiness of [data[path]]: [undefined] and [''] are falsy,
    every array is truthy. *)
Definition truthy (v : option jsval) : bool :=
  match v with
  | Some (JStr s) => negb (falsy s)
  | Some (JRef _) => true
  | None => false
  end.

(** *** Types of the hook *)

(** [BlockType] is a union of string literals, erased at run time: a block
    type is whatever string the event carries. *)
Definition BlockType : Type := string.

Definition known_block_types : list BlockType :=
  ["text"; "table"; "list"; "code"; "markdown"; "quote"; "divider"; "callout";
   "key_value"; "json"; "metric"; "steps"; "media"; "error"].

Record StreamingBlockState := {
  block_id : string;
  block_type : BlockType;
  data : gmap string jsval;
  streaming : bool;
  partial : bool
}.

Module ContentBlock.
Record t := mk { type : BlockType; data : gmap string jsval }.
End ContentBlock.
Abbreviation ContentBlock := ContentBlock.t.

(** *** The [Map] of open blocks, in insertion order *)

Abbreviation JsMap V := (list (string * V)).

Fixpoint map_get {V} (m : JsMap V) (k : string) : option V :=
  match m with
  | [] => None
  | (k', v) :: m' => if String.eqb k' k then Some v else map_get m' k
  end.

Definition map_has {V} (m : JsMap V) (k : string) : bool :=
  match map_get m k with Some _ => true | None => false end.

(** [m.set(k, v)]: an existing key keeps its place, a new key goes last. *)
Fixpoint map_set {V} (m : JsMap V) (k : string) (v : V) : JsMap V :=
  match m with
  | [] => [(k, v)]
  | (k', v') :: m' =>
      if String.eqb k' k then (k, v) :: m' else (k', v') :: map_set m' k v
  end.

Fixpoint map_delete {V} (m : JsMap V) (k : string) : JsMap V :=
  match m with
  | [] => []
  | (k', v') :: m' =>
      if String.eqb k' k then m' else (k', v') :: map_delete m' k
  end.

Definition map_values {V} (m : JsMap V) : list V := m.*2.

(** *** Helper functions of the hook *)

(** [path === 'rows' || path === 'items' || path === 'steps'] *)
Definition is_accumulating (path : string) : bool :=
  String.eqb path "rows" || String.eqb path "items" || String.eqb path "steps".

(** [value.split('|').map(s => s.trim())] *)
Definition split_cells (value : string) : list string :=
  trim <$> split "|" value.

(** [data[path] = s] for a string [s], on the plain object [state.data].
    The name [__proto__] is special: unless the object has an own property
    of that name, it is the accessor inherited from [Object.prototype];
    reading it gives the prototype, which is not a string, and its setter
    ignores a value that is not an object, so the assignment changes nothing.
    Every other name is written as an own property (the other members of
    [Object.prototype] are writable data properties, which an assignment
    shadows). *)
Definition assign_text (d : gmap string jsval) (path s : string) : gmap string jsval :=
  match d !! path with
  | Some _ => <[path := JStr s]> d
  | None => if String.eqb path "__proto__" then d else <[path := JStr s]> d
  end.

(** The function mutates [state.data] and the arrays it holds; it throws
    [TypeError] when [data[path]] is truthy but has no [push]. *)
Definition applyBlockDelta (path value : string)
    (hs : Heap * StreamingBlockState) : (exn + unit) * (Heap * StreamingBlockState) :=
  let '(h, state) := hs in
  let set_data h d :=
    (h, {| block_id := block_id state; block_type := block_type state;
           data := d; streaming := streaming state; partial := partial state |}) in
  let d := data state in
  if is_accumulating path then
    let '(h, d) :=
      if negb (truthy (d !! path)) then
        let '(l, h) := alloc h [] in (h, <[path := JRef l]> d)
      else (h, d) in
    match d !! path with
    | Some (JRef arr) =>
        if String.eqb path "rows" then
          let '(row, h) := alloc h (JStr <$> split_cells value) in
          (inr tt, set_data (push h arr (JRef row)) d)
        else
          (inr tt, set_data (push h arr (JStr value)) d)
    | _ => (inl TypeError, set_data h d)
    end
  else if String.eqb path "headers" then
    let '(cells, h) := alloc h (JStr <$> split_cells value) in
    (inr tt, set_data h (<[path := JRef cells]> d))
  else
    match d !! path with
    | Some (JStr existing) => (inr tt, set_data h (assign_text d path (existing +:+ value)))
    | _ => (inr tt, set_data h (assign_text d path value))
    end.

Global Arguments applyBlockDelta : simpl never.

(** [{ type: state.block_type, data: { id: state.block_id, ...state.data } }]:
    the spread copies the own properties of [state.data] over [id]; array
    values are copied as references. *)
Definition stateToContentBlock (state : StreamingBlockState) : ContentBlock :=
  ContentBlock.mk (block_type state)
    (data state ∪ {[ "id" := JStr (block_id state) ]}).

Definition buildBlocksFromState (completed : list ContentBlock)
    (streaming : JsMap StreamingBlockState) : list ContentBlock :=
  completed ++ (stateToContentBlock <$> map_values streaming).

(** *** The block handlers of [streamQuery] *)

Record Assembler := {
  heap : Heap;
  streamingBlocks : JsMap StreamingBlockState;
  completedBlocks : list ContentBlock
}.

Definition initial : Assembler :=
  {| heap := []; streamingBlocks := []; completedBlocks := [] |}.

(** [x || d] on an optional string. *)
Definition or_default (x : option string) (d : string) : string :=
  match x with
  | Some s => if falsy s then d else s
  | None => d
  end.

Definition fresh_block (blockId : string) (blockType : BlockType) : StreamingBlockState :=
  {| block_id := blockId; block_type := blockType; data := ∅;
     streaming := true; partial := false |}.

(** [data.type === 'block_start'] *)
Definition on_block_start (blockId : string) (block_type : option string)
    (a : Assembler) : Assembler :=
  let blockType := or_default block_type "text" in
  {| heap := heap a;
     streamingBlocks := map_set (streamingBlocks a) blockId (fresh_block blockId blockType);
     completedBlocks := completedBlocks a |}.

(** [data.type === 'block_delta'].  The result tells whether the handler ran
    to its end (and so called [scheduleUpdate]) or threw. *)
Definition on_block_delta (blockId path value : string)
    (a : Assembler) : (exn + unit) * Assembler :=
  let blocks :=
    if negb (map_has (streamingBlocks a) blockId)
    then map_set (streamingBlocks a) blockId (fresh_block blockId "text")
    else streamingBlocks a in
  match map_get blocks blockId with
  | Some blockState =>
      let '(r, (h, blockState)) := applyBlockDelta path value (heap a, blockState) in
      (r, {| heap := h;
             streamingBlocks := map_set blocks blockId blockState;
             completedBlocks := completedBlocks a |})
  | None =>
      (inr tt, {| heap := heap a; streamingBlocks := blocks;
                  completedBlocks := completedBlocks a |})
  end.

(** [data.type === 'block_end'].  The result tells whether the block was
    open (and so whether [scheduleUpdate] was called). *)
Definition on_block_end (blockId : string) (partial : option bool)
    (a : Assembler) : bool * Assembler :=
  match map_get (streamingBlocks a) blockId with
  | Some blockState =>
      let blockState :=
        {| block_id := block_id blockState; block_type := block_type blockState;
           data := data blockState; streaming := false;
           partial := default false partial |} in
      let completedBlock := stateToContentBlock blockState in
      (true, {| heap := heap a;
                streamingBlocks := map_delete (streamingBlocks a) blockId;
                completedBlocks := completedBlocks a ++ [completedBlock] |})
  | None => (false, a)
  end.

(** The three block events, with the fields as the handlers cast them
    ([as string], [as boolean]); [block_type] and [partial], which the
    handlers default with [||], may be missing. *)
Inductive BlockEvent :=
| block_start (block_id : string) (block_type : option string)
| block_delta (block_id path value : string)
| block_end (block_id : string) (partial : option bool).

(** One block event through its handler; a throw is swallowed by the
    [try]/[catch] around the dispatch, and what was written before stays. *)
Definition assemble (a : Assembler) (e : BlockEvent) : Assembler :=
  match e with
  | block_start blockId blockType => on_block_start blockId blockType a
  | block_delta blockId path value => (on_block_delta blockId path value a).2
  | block_end blockId partial => (on_block_end blockId partial a).2
  end.

Definition assemble_all (a : Assembler) (es : list BlockEvent) : Assembler :=
  foldl assemble a es.

(** *** Facts about the [Map] of open blocks *)

Section js_map.
Context {V : Type}.
Implicit Types (m : JsMap V) (k : string) (v : V).

Lemma map_get_set_eq m k v : map_get (map_set m k v) k = Some v.
Proof.
  induction m as [|[k' v'] m IH]; csimpl.
  - by rewrite String.eqb_refl.
  - destruct (String.eqb k' k) eqn:E; csimpl.
    + by rewrite String.eqb_refl.
    + by rewrite E.
Qed.

Lemma map_get_set_ne m k k' v :
  k ≠ k' → map_get (map_set m k v) k' = map_get m k'.
Proof.
  intros Hne. induction m as [|[k0 v0] m IH]; csimpl.
  - by apply String.eqb_neq in Hne as ->.
  - destruct (String.eqb k0 k) eqn:E; csimpl.
    + apply String.eqb_eq in E as ->.
      by apply String.eqb_neq in Hne as ->.
    + by rewrite IH.
Qed.

Lemma map_get_delete_ne m k k' :
  k ≠ k' → map_get (map_delete m k) k' = map_get m k'.
Proof.
  intros Hne. induction m as [|[k0 v0] m IH]; csimpl; [done|].
  destruct (String.eqb k0 k) eqn:E; csimpl.
  - apply String.eqb_eq in E as ->.
    by apply String.eqb_neq in Hne as ->.
  - by rewrite IH.
Qed.

Lemma map_get_None m k : map_get m k = None ↔ k ∉ m.*1.
Proof.
  induction m as [|[k0 v0] m IH]; csimpl.
  - split; [intros _; apply not_elem_of_nil|done].
  - rewrite not_elem_of_cons. destruct (String.eqb k0 k) eqn:E.
    + apply String.eqb_eq in E as ->. split; [done|by intros [? _]].
    + apply String.eqb_neq in E. rewrite IH.
      split; [intros ?; split; [congruence|done]|by intros [_ ?]].
Qed.

Lemma map_get_Some_elem m k v : map_get m k = Some v → (k, v) ∈ m.
Proof.
  induction m as [|[k0 v0] m IH]; csimpl; [done|].
  destruct (String.eqb k0 k) eqn:E.
  - apply String.eqb_eq in E as ->. intros [= ->]. left.
  - intros H. right. by apply IH.
Qed.

Lemma map_get_elem m k v : NoDup m.*1 → (k, v) ∈ m → map_get m k = Some v.
Proof.
  induction m as [|[k0 v0] m IH]; csimpl; [by intros _ ?%elem_of_nil|].
  intros [Hk0 Hm]%NoDup_cons [[= <- <-]|Hin]%elem_of_cons.
  - by rewrite String.eqb_refl.
  - destruct (String.eqb k0 k) eqn:E; [|by apply IH].
    apply String.eqb_eq in E as ->. destruct Hk0.
    apply list_elem_of_fmap. by exists (k, v).
Qed.

Lemma map_get_delete_eq m k :
  NoDup m.*1 → map_get (map_delete m k) k = None.
Proof.
  induction m as [|[k0 v0] m IH]; csimpl; [done|].
  intros [Hk0 Hm]%NoDup_cons.
  destruct (String.eqb k0 k) eqn:E; csimpl.
  - apply String.eqb_eq in E as ->. by apply map_get_None.
  - rewrite E. by apply IH.
Qed.

Lemma map_set_keys_has m k v :
  is_Some (map_get m k) → (map_set m k v).*1 = m.*1.
Proof.
  induction m as [|[k0 v0] m IH]; csimpl.
  - by intros [? ?].
  - destruct (String.eqb k0 k) eqn:E; csimpl.
    + apply String.eqb_eq in E as ->. done.
    + intros H. by rewrite IH.
Qed.

Lemma map_set_keys_new m k v :
  map_get m k = None → (map_set m k v).*1 = m.*1 ++ [k].
Proof.
  induction m as [|[k0 v0] m IH]; csimpl; [done|].
  destruct (String.eqb k0 k) eqn:E; csimpl; [done|].
  intros H. by rewrite IH.
Qed.

Lemma map_set_NoDup m k v : NoDup m.*1 → NoDup (map_set m k v).*1.
Proof.
  intros Hm. destruct (map_get m k) as [v0|] eqn:E.
  - by rewrite map_set_keys_has.
  - rewrite map_set_keys_new by done.
    apply NoDup_app. split_and!; [done| |apply NoDup_singleton].
    intros x Hx ->%list_elem_of_singleton. by apply map_get_None in E.
Qed.

Lemma map_delete_keys_sub m k x : x ∈ (map_delete m k).*1 → x ∈ m.*1.
Proof.
  induction m as [|[k0 v0] m IH]; csimpl; [done|].
  destruct (String.eqb k0 k); csimpl.
  - by right.
  - rewrite !elem_of_cons. intros [?|?]; [by left|right; by apply IH].
Qed.

Lemma map_delete_NoDup m k : NoDup m.*1 → NoDup (map_delete m k).*1.
Proof.
  induction m as [|[k0 v0] m IH]; csimpl; [done|].
  intros [Hk0 Hm]%NoDup_cons. destruct (String.eqb k0 k); csimpl; [done|].
  apply NoDup_cons. split; [|by apply IH].
  intros Hin. by apply Hk0, (map_delete_keys_sub m k).
Qed.

Lemma map_has_true m k : map_has m k = true ↔ is_Some (map_get m k).
Proof. unfold map_has. destruct (map_get m k); naive_solver. Qed.

Lemma map_has_false m k : map_has m k = false ↔ map_get m k = None.
Proof. unfold map_has. by destruct (map_get m k). Qed.

End js_map.

(** *** Text accumulation *)

Definition event_id (e : BlockEvent) : string :=
  match e with
  | block_start i _ | block_delta i _ _ | block_end i _ => i
  end.

(** A path that is neither an accumulating array nor [headers]. *)
Definition is_text_path (path : string) : bool :=
  negb (is_accumulating path) && negb (String.eqb path "headers").

Definition with_data (state : StreamingBlockState) (d : gmap string jsval) :=
  {| block_id := block_id state; block_type := block_type state; data := d;
     streaming := streaming state; partial := partial state |}.

Definition text_after (existing : option jsval) (value : string) : string :=
  match existing with
  | Some (JStr e) => e +:+ value
  | _ => value
  end.

Lemma assign_text_ne d path s :
  path ≠ "__proto__" → assign_text d path s = <[path := JStr s]> d.
Proof.
  intros Hne. unfold assign_text. apply String.eqb_neq in Hne as ->.
  by destruct (d !! path).
Qed.

Lemma assign_text_proto d s :
  d !! "__proto__" = None → assign_text d "__proto__" s = d.
Proof. intros H. unfold assign_text. by rewrite H. Qed.

Lemma assign_text_cases d path s :
  (path = "__proto__" ∧ d !! path = None ∧ assign_text d path s = d)
  ∨ assign_text d path s = <[path := JStr s]> d.
Proof.
  unfold assign_text. destruct (d !! path); [by right|].
  destruct (String.eqb path "__proto__") eqn:E; [left|by right].
  by apply String.eqb_eq in E.
Qed.

Lemma applyBlockDelta_text_any path value h state :
  is_text_path path = true →
  applyBlockDelta path value (h, state)
  = (inr tt, (h, with_data state
                   (assign_text (data state) path
                      (text_after (data state !! path) value)))).
Proof.
  unfold is_text_path, applyBlockDelta.
  intros [Ha Hh]%andb_true_iff.
  apply negb_true_iff in Ha as ->. apply negb_true_iff in Hh as ->.
  by destruct (data state !! path) as [[]|].
Qed.

Lemma applyBlockDelta_text path value h state :
  is_text_path path = true → path ≠ "__proto__" →
  applyBlockDelta path value (h, state)
  = (inr tt, (h, with_data state
                   (<[path := JStr (text_after (data state !! path) value)]> (data state)))).
Proof.
  intros Hp Hne. by rewrite applyBlockDelta_text_any, assign_text_ne.
Qed.

Lemma assemble_other_block a e id :
  event_id e ≠ id →
  map_get (streamingBlocks (assemble a e)) id = map_get (streamingBlocks a) id.
Proof.
  intros Hne. destruct e as [i bt|i p v|i pa]; simpl in *.
  - by apply map_get_set_ne.
  - unfold on_block_delta.
    set (blocks := if negb _ then _ else _).
    assert (Hb : map_get blocks id = map_get (streamingBlocks a) id).
    { unfold blocks. destruct (negb _); [by apply map_get_set_ne|done]. }
    destruct (map_get blocks i) as [st|]; [|done].
    destruct (applyBlockDelta p v (heap a, st)) as [r [h st']]. simpl.
    by rewrite map_get_set_ne.
  - unfold on_block_end. destruct (map_get (streamingBlocks a) i); [|done].
    simpl. by apply map_get_delete_ne.
Qed.

Lemma assemble_completed_grows a e :
  ∃ l, completedBlocks (assemble a e) = completedBlocks a ++ l.
Proof.
  destruct e as [i bt|i p v|i pa]; simpl.
  - exists []. by rewrite app_nil_r.
  - exists []. rewrite app_nil_r. unfold on_block_delta.
    destruct (map_get _ i); [|done].
    by destruct (applyBlockDelta _ _ _) as [r [h st']].
  - unfold on_block_end. destruct (map_get _ i); simpl; [eauto|].
    exists []. by rewrite app_nil_r.
Qed.

Lemma assemble_all_completed_grows a es :
  ∃ l, completedBlocks (assemble_all a es) = completedBlocks a ++ l.
Proof.
  revert a. induction es as [|e es IH]; intros a; simpl.
  - exists []. by rewrite app_nil_r.
  - destruct (IH (assemble a e)) as [l2 ->].
    destruct (assemble_completed_grows a e) as [l1 ->].
    exists (l1 ++ l2). by rewrite app_assoc.
Qed.

(** The open block [id] holds type [bt] and exactly the data [d]. *)
Definition holds (a : Assembler) (id : string) (bt : BlockType)
    (d : gmap string jsval) : Prop :=
  ∃ st, map_get (streamingBlocks a) id = Some st
        ∧ block_id st = id ∧ block_type st = bt ∧ data st = d.

Lemma holds_start a id bt :
  holds (assemble a (block_start id bt)) id (or_default bt "text") ∅.
Proof. eexists. simpl. by rewrite map_get_set_eq. Qed.

Lemma holds_other a e id bt d :
  event_id e ≠ id → holds a id bt d → holds (assemble a e) id bt d.
Proof. intros Hne (st & ? & ?). exists st. by rewrite assemble_other_block. Qed.

Lemma holds_text_delta a id bt d path value :
  is_text_path path = true → path ≠ "__proto__" → holds a id bt d →
  holds (assemble a (block_delta id path value)) id bt
    (<[path := JStr (text_after (d !! path) value)]> d).
Proof.
  intros Hp Hne (st & Hget & Hid & Hbt & Hd). simpl. unfold on_block_delta.
  assert (map_has (streamingBlocks a) id = true) as ->.
  { apply map_has_true. eauto. }
  simpl. rewrite Hget, applyBlockDelta_text by done. simpl.
  eexists. split; [simpl; apply map_get_set_eq|]. simpl. by rewrite Hd.
Qed.

Lemma holds_end a id bt d pa :
  holds a id bt d →
  completedBlocks (assemble a (block_end id pa))
  = completedBlocks a ++ [ContentBlock.mk bt (d ∪ {[ "id" := JStr id ]})].
Proof.
  intros (st & Hget & Hid & Hbt & Hd). simpl. unfold on_block_end.
  rewrite Hget. simpl. unfold stateToContentBlock. simpl.
  by rewrite Hid, Hbt, Hd.
Qed.

(** The data of a block that has received the values [vs] under [path]. *)
Definition text_data (path : string) (vs : list string) : gmap string jsval :=
  match vs with
  | [] => ∅
  | _ => {[ path := JStr (concat_all vs) ]}
  end.

Lemma text_data_snoc path vs v :
  <[path := JStr (text_after (text_data path vs !! path) v)]> (text_data path vs)
  = text_data path (vs ++ [v]).
Proof.
  destruct vs as [|v0 vs].
  - simpl. by rewrite lookup_empty, insert_empty, append_empty_r.
  - change (text_data path ((v0 :: vs) ++ [v]))
      with ({[ path := JStr (concat_all ((v0 :: vs) ++ [v])) ]} : gmap string jsval).
    change (text_data path (v0 :: vs))
      with ({[ path := JStr (concat_all (v0 :: vs)) ]} : gmap string jsval).
    by rewrite lookup_singleton_eq, insert_singleton_eq, concat_all_snoc.
Qed.

Lemma text_block_closed path id es :
  is_text_path path = true → path ≠ "__proto__" →
  ∀ a bt vs ws pa,
    filter (λ e, event_id e = id) es
    = (block_delta id path <$> ws) ++ [block_end id pa] →
    holds a id bt (text_data path vs) →
    ∃ l1 l2,
      completedBlocks (assemble_all a es)
      = completedBlocks a ++ l1
        ++ [ContentBlock.mk bt (text_data path (vs ++ ws) ∪ {[ "id" := JStr id ]})]
        ++ l2.
Proof.
  intros Hp Hne. induction es as [|e es IH]; intros a bt vs ws pa Hf Hh.
  { by destruct ws. }
  rewrite filter_cons in Hf. simpl. case_decide as He.
  - destruct ws as [|w ws]; simpl in Hf; injection Hf as -> Hf.
    + destruct (assemble_all_completed_grows (assemble a (block_end id pa)) es)
        as [l2 ->].
      rewrite (holds_end _ _ _ _ _ Hh), app_nil_r.
      exists [], l2. by rewrite <-app_assoc.
    + apply (holds_text_delta _ _ _ _ path w Hp Hne) in Hh.
      rewrite text_data_snoc in Hh.
      destruct (IH _ _ _ _ _ Hf Hh) as (l1 & l2 & ->).
      assert (completedBlocks (assemble a (block_delta id path w))
              = completedBlocks a) as ->.
      { simpl. unfold on_block_delta. destruct (map_get _ id); [|done].
        by destruct (applyBlockDelta _ _ _) as [r [h st']]. }
      exists l1, l2. by rewrite <-app_assoc.
  - apply (holds_other _ e) in Hh; [|done].
    destruct (IH _ _ _ _ _ Hf Hh) as (l1 & l2 & ->).
    destruct (assemble_completed_grows a e) as [l0 ->].
    exists (l0 ++ l1), l2. by rewrite <-!app_assoc.
Qed.

Lemma text_block_started path id es :
  is_text_path path = true → path ≠ "__proto__" →
  ∀ a bt ws pa,
    filter (λ e, event_id e = id) es
    = block_start id bt :: (block_delta id path <$> ws) ++ [block_end id pa] →
    ∃ l1 l2,
      completedBlocks (assemble_all a es)
      = completedBlocks a ++ l1
        ++ [ContentBlock.mk (or_default bt "text")
              (text_data path ws ∪ {[ "id" := JStr id ]})]
        ++ l2.
Proof.
  intros Hp Hne. induction es as [|e es IH]; intros a bt ws pa Hf; [done|].
  rewrite filter_cons in Hf. simpl. case_decide as He.
  - injection Hf as -> Hf.
    destruct (text_block_closed path id es Hp Hne _ _ [] ws pa Hf (holds_start a id bt))
      as (l1 & l2 & ->).
    exists l1, l2. done.
  - destruct (IH (assemble a e) _ _ _ Hf) as (l1 & l2 & ->).
    destruct (assemble_completed_grows a e) as [l0 ->].
    exists (l0 ++ l1), l2. by rewrite <-!app_assoc.
Qed.

(** *** Declared block types *)

Lemma applyBlockDelta_keeps path value h state r h' state' :
  applyBlockDelta path value (h, state) = (r, (h', state')) →
  block_id state' = block_id state ∧ block_type state' = block_type state.
Proof.
  unfold applyBlockDelta. intros H.
  repeat (case_match; simplify_eq/=); done.
Qed.

(** The block [id] is open with type [bt]. *)
Definition open_as (a : Assembler) (id : string) (bt : BlockType) : Prop :=
  ∃ st, map_get (streamingBlocks a) id = Some st
        ∧ block_id st = id ∧ block_type st = bt.

Lemma open_as_delta a id bt path value :
  open_as a id bt → open_as (assemble a (block_delta id path value)) id bt.
Proof.
  intros (st & Hget & Hid & Hbt). simpl. unfold on_block_delta.
  assert (map_has (streamingBlocks a) id = true) as ->.
  { apply map_has_true. eauto. }
  simpl. rewrite Hget.
  destruct (applyBlockDelta _ _ _) as [r [h' st']] eqn:E.
  apply applyBlockDelta_keeps in E as [Hid' Hbt'].
  exists st'. simpl. rewrite map_get_set_eq. by rewrite Hid', Hbt'.
Qed.

Lemma open_as_other a e id bt :
  event_id e ≠ id → open_as a id bt → open_as (assemble a e) id bt.
Proof. intros Hne (st & ? & ?). exists st. by rewrite assemble_other_block. Qed.

Lemma open_as_deltas es id bt :
  (∀ e, e ∈ es → event_id e = id → ∃ p v, e = block_delta id p v) →
  ∀ a, open_as a id bt → open_as (assemble_all a es) id bt.
Proof.
  induction es as [|e es IH]; intros Hes a Ho; [done|]. simpl.
  apply IH; [intros e' He'; apply Hes; by right|].
  destruct (decide (event_id e = id)) as [Heq|Hne].
  - destruct (Hes e) as (p & v & ->); [left|done|]. by apply open_as_delta.
  - by apply open_as_other.
Qed.

(** *** Arrays: what a delta does to the heap *)

(** The block holds a reference to the array [l] under some path. *)
Definition owns (st : StreamingBlockState) (l : loc) : Prop :=
  ∃ p, data st !! p = Some (JRef l).

(** No accumulating path holds a string. *)
Definition typed (st : StreamingBlockState) : Prop :=
  ∀ p s, is_accumulating p = true → data st !! p ≠ Some (JStr s).

(** The elements of the array under [path], none when there is no array. *)
Definition array_at (h : Heap) (d : gmap string jsval) (path : string) : list jsval :=
  match d !! path with
  | Some (JRef l) => default [] (h !! l)
  | _ => []
  end.

Lemma with_data_id st : with_data st (data st) = st.
Proof. by destruct st. Qed.

Lemma applyBlockDelta_accumulating path value h st :
  is_accumulating path = true → typed st →
  applyBlockDelta path value (h, st)
  = let '(h1, d1, arr) :=
      match data st !! path with
      | Some (JRef arr) => (h, data st, arr)
      | _ => (h ++ [[]], <[path := JRef (length h)]> (data st), length h)
      end in
    let h2 :=
      if String.eqb path "rows"
      then push (h1 ++ [JStr <$> split_cells value]) arr (JRef (length h1))
      else push h1 arr (JStr value) in
    (inr tt, (h2, with_data st d1)).
Proof.
  intros Ha Ht. unfold applyBlockDelta. rewrite Ha.
  destruct (data st !! path) as [[s|arr]|] eqn:E.
  - by destruct (Ht path s Ha).
  - simpl. rewrite E. by destruct (String.eqb path "rows").
  - simpl. rewrite lookup_insert_eq. by destruct (String.eqb path "rows").
Qed.

Lemma applyBlockDelta_headers value h st :
  applyBlockDelta "headers" value (h, st)
  = (inr tt, (h ++ [JStr <$> split_cells value],
              with_data st (<["headers" := JRef (length h)]> (data st)))).
Proof. done. Qed.

Lemma path_cases path :
  is_accumulating path = true ∨ path = "headers" ∨ is_text_path path = true.
Proof.
  unfold is_text_path. destruct (is_accumulating path); [by left|right].
  destruct (String.eqb path "headers") eqn:E; [left|by right].
  by apply String.eqb_eq in E.
Qed.

Lemma headers_not_accumulating : is_accumulating "headers" = false.
Proof. done. Qed.

Lemma text_path_not_accumulating path :
  is_text_path path = true → is_accumulating path = false.
Proof. unfold is_text_path. by destruct (is_accumulating path). Qed.

(** How one delta moves a block and the heap: the heap only grows; a cell
    the block does not own keeps its elements; the references the block gains
    are new cells; the references that get stored inside cells are new cells
    that the block itself does not hold. *)
Record heap_step (h : Heap) (st : StreamingBlockState)
    (h' : Heap) (st' : StreamingBlockState) : Prop := {
  step_grows : length h ≤ length h';
  step_frame : ∀ l, l < length h → ¬ owns st l → h' !! l = h !! l;
  step_owns : ∀ l, owns st' l → owns st l ∨ (length h ≤ l ∧ l < length h');
  step_elems : ∀ l elems r, h' !! l = Some elems → JRef r ∈ elems →
    (∃ elems0, h !! l = Some elems0 ∧ JRef r ∈ elems0)
    ∨ (length h ≤ r ∧ r < length h' ∧ ¬ owns st' r);
  step_typed : typed st';
  step_id : block_id st' = block_id st;
  step_type : block_type st' = block_type st
}.

Lemma not_JRef_in_strings r (ss : list string) : JRef r ∉ JStr <$> ss.
Proof. intros (s & ? & _)%list_elem_of_fmap. done. Qed.

Lemma owns_insert_ref st path l l' :
  owns (with_data st (<[path := JRef l]> (data st))) l' → l' = l ∨ owns st l'.
Proof.
  intros [p Hp]. simpl in Hp. destruct (decide (path = p)) as [->|Hne].
  - rewrite lookup_insert_eq in Hp. left. congruence.
  - rewrite lookup_insert_ne in Hp by done. right. by exists p.
Qed.

Lemma owns_insert_str st path s l :
  owns (with_data st (<[path := JStr s]> (data st))) l → owns st l.
Proof.
  intros [p Hp]. simpl in Hp. destruct (decide (path = p)) as [->|Hne].
  - by rewrite lookup_insert_eq in Hp.
  - rewrite lookup_insert_ne in Hp by done. by exists p.
Qed.

Lemma typed_insert_ref st path l :
  typed st → typed (with_data st (<[path := JRef l]> (data st))).
Proof.
  intros Ht p s Hp. simpl. destruct (decide (path = p)) as [->|Hne].
  - by rewrite lookup_insert_eq.
  - rewrite lookup_insert_ne by done. by apply Ht.
Qed.

Lemma typed_insert_text st path s :
  is_accumulating path = false → typed st →
  typed (with_data st (<[path := JStr s]> (data st))).
Proof.
  intros Hpath Ht p s' Hp. simpl. destruct (decide (path = p)) as [->|Hne].
  - congruence.
  - rewrite lookup_insert_ne by done. by apply Ht.
Qed.

Lemma heap_step_trans h st h1 st1 h2 st2 :
  heap_step h st h1 st1 → heap_step h1 st1 h2 st2 → heap_step h st h2 st2.
Proof.
  intros A B. split.
  - pose proof (step_grows _ _ _ _ A). pose proof (step_grows _ _ _ _ B). lia.
  - intros l Hl Hno. pose proof (step_grows _ _ _ _ A).
    rewrite (step_frame _ _ _ _ B), (step_frame _ _ _ _ A); [done..|lia|].
    intros [?|[? ?]]%(step_owns _ _ _ _ A); [done|lia].
  - intros l [Ho|[? ?]]%(step_owns _ _ _ _ B).
    + apply (step_owns _ _ _ _ A) in Ho as [?|[? ?]]; [by left|right].
      pose proof (step_grows _ _ _ _ B). lia.
    + right. pose proof (step_grows _ _ _ _ A). lia.
  - intros l elems r Hl Hr.
    destruct (step_elems _ _ _ _ B l elems r Hl Hr)
      as [(elems1 & Hl1 & Hr1)|(? & ? & ?)].
    + destruct (step_elems _ _ _ _ A l elems1 r Hl1 Hr1)
        as [?|(? & ? & Hno)]; [by left|right].
      pose proof (step_grows _ _ _ _ B). split_and!; [done|lia|].
      intros [?|[? ?]]%(step_owns _ _ _ _ B); [done|lia].
    + right. pose proof (step_grows _ _ _ _ A). split_and!; [lia|done..].
  - apply (step_typed _ _ _ _ B).
  - by rewrite (step_id _ _ _ _ B), (step_id _ _ _ _ A).
  - by rewrite (step_type _ _ _ _ B), (step_type _ _ _ _ A).
Qed.

(** [data[path] = [s1, ..., sn]]: a new array of strings under [path]. *)
Lemma heap_step_new_array h st path (ss : list string) :
  typed st →
  heap_step h st (h ++ [JStr <$> ss])
    (with_data st (<[path := JRef (length h)]> (data st))).
Proof.
  intros Ht. split; try done.
  - rewrite length_app. lia.
  - intros l Hl _. by rewrite lookup_app_l.
  - intros l [->|?]%owns_insert_ref; [right|by left].
    rewrite length_app. simpl. lia.
  - intros l elems r Hl Hr. left. exists elems. split; [|done].
    destruct (decide (l < length h)) as [Hlt|Hge].
    + by rewrite lookup_app_l in Hl.
    + rewrite lookup_app_r in Hl by lia.
      destruct (l - length h) as [|n]; simpl in Hl; [|done].
      injection Hl as <-. by apply not_JRef_in_strings in Hr.
  - by apply typed_insert_ref.
Qed.

(** [data[path] = existing + value] or [data[path] = value]. *)
Lemma heap_step_text h st path s :
  is_accumulating path = false → typed st →
  heap_step h st h (with_data st (<[path := JStr s]> (data st))).
Proof.
  intros Hp Ht. split; try done.
  - intros l ?%owns_insert_str. by left.
  - intros l elems r Hl Hr. left. eauto.
  - by apply typed_insert_text.
Qed.

(** An assignment to [__proto__] that the setter ignores. *)
Lemma heap_step_refl h st : typed st → heap_step h st h st.
Proof.
  intros Ht. split; try done.
  - intros l ?. by left.
  - intros l elems r Hl Hr. left. eauto.
Qed.

(** [arr.push(value)] on an array the block holds. *)
Lemma heap_step_push_string h st arr s :
  owns st arr → typed st →
  heap_step h st (push h arr (JStr s)) st.
Proof.
  intros Harr Ht. unfold push. split; try done.
  - by rewrite length_alter.
  - intros l Hl Hno. apply list_lookup_alter_ne. by intros ->.
  - intros l ?. by left.
  - intros l elems r Hl Hr. left.
    destruct (decide (arr = l)) as [->|Hne].
    + rewrite list_lookup_alter_eq in Hl.
      destruct (h !! l) as [elems0|]; simpl in Hl; [|done].
      injection Hl as <-. exists elems0. split; [done|].
      apply elem_of_app in Hr as [?|Hr]; [done|].
      by apply list_elem_of_singleton in Hr.
    + rewrite list_lookup_alter_ne in Hl by done. eauto.
Qed.

(** [arr.push([c1, ..., cn])]: a new array of cells, appended to an array
    the block holds. *)
Lemma heap_step_push_row h st arr (ss : list string) :
  owns st arr → typed st → (∀ l, owns st l → l < length h) →
  heap_step h st (push (h ++ [JStr <$> ss]) arr (JRef (length h))) st.
Proof.
  intros Harr Ht Hal. pose proof (Hal _ Harr) as Hlt. unfold push.
  split; try done.
  - rewrite length_alter, length_app. lia.
  - intros l Hl Hno. rewrite list_lookup_alter_ne by by intros ->.
    by rewrite lookup_app_l.
  - intros l ?. by left.
  - intros l elems r Hl Hr.
    destruct (decide (arr = l)) as [->|Hne].
    + rewrite list_lookup_alter_eq, lookup_app_l in Hl by done.
      destruct (h !! l) as [elems0|]; simpl in Hl; [|done].
      injection Hl as <-.
      apply elem_of_app in Hr as [?|Hr]; [left; eauto|right].
      apply list_elem_of_singleton in Hr. injection Hr as ->.
      rewrite length_alter, length_app. simpl.
      split_and!; [lia..|]. intros ?%Hal. lia.
    + rewrite list_lookup_alter_ne in Hl by done. left.
      destruct (decide (l < length h)) as [?|Hge].
      * rewrite lookup_app_l in Hl by done. eauto.
      * rewrite lookup_app_r in Hl by lia.
        destruct (l - length h) as [|n]; simpl in Hl; [|done].
        injection Hl as <-. by apply not_JRef_in_strings in Hr.
Qed.

Lemma applyBlockDelta_heap_step path value h st :
  typed st → (∀ l, owns st l → l < length h) →
  ∃ h' st', applyBlockDelta path value (h, st) = (inr tt, (h', st'))
            ∧ heap_step h st h' st'.
Proof.
  intros Ht Hal. destruct (path_cases path) as [Ha|[->|Hp]].
  - rewrite applyBlockDelta_accumulating by done.
    destruct (data st !! path) as [[s|arr]|] eqn:E.
    + by destruct (Ht path s Ha).
    + rewrite with_data_id. eexists _, _. split; [done|].
      assert (owns st arr) by by exists path.
      destruct (String.eqb path "rows").
      * by apply heap_step_push_row.
      * by apply heap_step_push_string.
    + eexists _, _. split; [done|].
      set (st1 := with_data st (<[path := JRef (length h)]> (data st))).
      assert (heap_step h st (h ++ [[]]) st1) as A.
      { by apply (heap_step_new_array h st path []). }
      assert (owns st1 (length h)) as Ho.
      { exists path. simpl. by rewrite lookup_insert_eq. }
      apply (heap_step_trans _ _ _ _ _ _ A).
      destruct (String.eqb path "rows").
      * apply heap_step_push_row; [done|apply A|].
        intros l [->|?%Hal]%owns_insert_ref; rewrite length_app; simpl; lia.
      * apply heap_step_push_string; [done|apply A].
  - rewrite applyBlockDelta_headers. eexists _, _. split; [done|].
    by apply heap_step_new_array.
  - rewrite applyBlockDelta_text_any by done. eexists _, _. split; [done|].
    destruct (assign_text_cases (data st) path (text_after (data st !! path) value))
      as [(_ & _ & ->)| ->].
    + rewrite with_data_id. by apply heap_step_refl.
    + apply heap_step_text; [|done]. by apply text_path_not_accumulating.
Qed.

(** *** Well-formed assembler states *)

Definition open_in (a : Assembler) (id : string) (st : StreamingBlockState) : Prop :=
  map_get (streamingBlocks a) id = Some st.

(** Some open block holds a reference to [l]. *)
Definition owned (a : Assembler) (l : loc) : Prop :=
  ∃ id st, open_in a id st ∧ owns st l.

(** The content block holds a reference to [l]. *)
Definition held (c : ContentBlock) (l : loc) : Prop :=
  ∃ p, ContentBlock.data c !! p = Some (JRef l).

(** Some array has the reference [r] among its elements. *)
Definition stored (h : Heap) (r : loc) : Prop :=
  ∃ l elems, h !! l = Some elems ∧ JRef r ∈ elems.

Record wf (a : Assembler) : Prop := {
  wf_keys : NoDup (streamingBlocks a).*1;
  wf_ids : ∀ id st, open_in a id st → block_id st = id;
  wf_typed : ∀ id st, open_in a id st → typed st;
  wf_owned_alloc : ∀ l, owned a l → l < length (heap a);
  wf_held_alloc : ∀ c l, c ∈ completedBlocks a → held c l → l < length (heap a);
  wf_stored_alloc : ∀ r, stored (heap a) r → r < length (heap a);
  wf_owner : ∀ id1 st1 id2 st2 l,
    open_in a id1 st1 → open_in a id2 st2 → owns st1 l → owns st2 l → id1 = id2;
  wf_held_frozen : ∀ c l, c ∈ completedBlocks a → held c l → ¬ owned a l;
  wf_stored_frozen : ∀ r, stored (heap a) r → ¬ owned a r
}.

(** [streamingBlocks.set(id, st)] *)
Definition set_block (a : Assembler) (id : string) (st : StreamingBlockState) : Assembler :=
  {| heap := heap a;
     streamingBlocks := map_set (streamingBlocks a) id st;
     completedBlocks := completedBlocks a |}.

Lemma open_in_set_block a id st id' st' :
  open_in (set_block a id st) id' st' →
  (id' = id ∧ st' = st) ∨ (id' ≠ id ∧ open_in a id' st').
Proof.
  unfold open_in. simpl. destruct (decide (id = id')) as [->|Hne].
  - rewrite map_get_set_eq. intros [= ->]. by left.
  - rewrite map_get_set_ne by done. right. split; [congruence|done].
Qed.

Lemma owns_fresh id bt l : ¬ owns (fresh_block id bt) l.
Proof. intros [p Hp]. simpl in Hp. by rewrite lookup_empty in Hp. Qed.

Lemma owned_set_fresh a id bt l :
  owned (set_block a id (fresh_block id bt)) l → owned a l.
Proof.
  intros (id' & st' & [[-> ->]|[_ Ho]]%open_in_set_block & Hl).
  - by apply owns_fresh in Hl.
  - by exists id', st'.
Qed.

Lemma wf_initial : wf initial.
Proof.
  split; simpl; try done.
  - apply NoDup_nil_2.
  - by intros l (id & st & ? & _).
  - intros c l Hc. by apply elem_of_nil in Hc.
  - by intros r (l & elems & ? & _).
  - intros c l Hc. by apply elem_of_nil in Hc.
  - by intros r (l & elems & ? & _).
Qed.

Lemma wf_set_fresh a id bt : wf a → wf (set_block a id (fresh_block id bt)).
Proof.
  intros W. split.
  - apply map_set_NoDup, W.
  - intros id' st' [[-> ->]|[_ Ho]]%open_in_set_block; [done|].
    by apply (wf_ids a W).
  - intros id' st' [[-> ->]|[_ Ho]]%open_in_set_block.
    + intros p s _. simpl. by rewrite lookup_empty.
    + by apply (wf_typed a W id').
  - intros l ?%owned_set_fresh. by apply (wf_owned_alloc a W).
  - apply (wf_held_alloc a W).
  - apply (wf_stored_alloc a W).
  - intros id1 st1 id2 st2 l
      [[-> ->]|[_ Ho1]]%open_in_set_block [[-> ->]|[_ Ho2]]%open_in_set_block
      H1 H2; try done.
    + by apply owns_fresh in H1.
    + by apply owns_fresh in H2.
    + by apply (wf_owner a W id1 st1 id2 st2 l).
  - intros c l Hc Hh ?%owned_set_fresh. by apply (wf_held_frozen a W c l).
  - intros r Hr ?%owned_set_fresh. by apply (wf_stored_frozen a W r).
Qed.

(** The block [id], open with state [st], becomes [st'] over the heap [h']. *)
Definition move_block (a : Assembler) (id : string) (h' : Heap)
    (st' : StreamingBlockState) : Assembler :=
  {| heap := h';
     streamingBlocks := map_set (streamingBlocks a) id st';
     completedBlocks := completedBlocks a |}.

Lemma open_in_move_block a id h' st' id2 st2 :
  open_in (move_block a id h' st') id2 st2 →
  (id2 = id ∧ st2 = st') ∨ (id2 ≠ id ∧ open_in a id2 st2).
Proof. apply (open_in_set_block a id st' id2 st2). Qed.

Lemma owned_move_block a id st h' st' l :
  wf a → open_in a id st → heap_step (heap a) st h' st' →
  owned (move_block a id h' st') l → owned a l ∨ length (heap a) ≤ l.
Proof.
  intros W Ho S (id2 & st2 & [[-> ->]|[_ Ho2]]%open_in_move_block & Hl).
  - apply (step_owns _ _ _ _ S) in Hl as [?|[? ?]]; [left|by right].
    by exists id, st.
  - left. by exists id2, st2.
Qed.

Lemma stored_move_block a id st h' st' r :
  wf a → open_in a id st → heap_step (heap a) st h' st' →
  stored h' r →
  stored (heap a) r ∨ (length (heap a) ≤ r ∧ r < length h' ∧ ¬ owns st' r).
Proof.
  intros W Ho S (l & elems & Hl & Hr).
  destruct (step_elems _ _ _ _ S l elems r Hl Hr) as [(elems0 & ? & ?)|?];
    [left|by right].
  by exists l, elems0.
Qed.

Lemma wf_move_block a id st h' st' :
  wf a → open_in a id st → heap_step (heap a) st h' st' →
  wf (move_block a id h' st').
Proof.
  intros W Ho S. pose proof (step_grows _ _ _ _ S) as Hgrow.
  assert (Hfresh : ∀ l, length (heap a) ≤ l → ¬ owned a l).
  { intros l Hl ?%(wf_owned_alloc a W). lia. }
  split.
  - apply map_set_NoDup, W.
  - intros id2 st2 [[-> ->]|[_ Ho2]]%open_in_move_block.
    + rewrite (step_id _ _ _ _ S). by apply (wf_ids a W).
    + by apply (wf_ids a W).
  - intros id2 st2 [[-> ->]|[_ Ho2]]%open_in_move_block.
    + apply (step_typed _ _ _ _ S).
    + by apply (wf_typed a W id2).
  - intros l (id2 & st2 & [[-> ->]|[_ Ho2]]%open_in_move_block & Hl); simpl.
    + apply (step_owns _ _ _ _ S) in Hl as [?|[? ?]]; [|done].
      assert (l < length (heap a)); [|lia].
      apply (wf_owned_alloc a W). by exists id, st.
    + assert (l < length (heap a)); [|lia].
      apply (wf_owned_alloc a W). by exists id2, st2.
  - intros c l Hc Hh. simpl.
    pose proof (wf_held_alloc a W c l Hc Hh). lia.
  - intros r [?%(wf_stored_alloc a W)|(? & ? & ?)]%(stored_move_block a id st h' st' _ W Ho S);
      simpl; [lia|done].
  - intros id1 st1 id2 st2 l
      [[-> ->]|[Hn1 Ho1]]%open_in_move_block [[-> ->]|[Hn2 Ho2]]%open_in_move_block
      H1 H2; try done.
    + apply (step_owns _ _ _ _ S) in H1 as [H1|[? ?]].
      * by apply (wf_owner a W id st id2 st2 l).
      * destruct (Hfresh l); [done|]. by exists id2, st2.
    + apply (step_owns _ _ _ _ S) in H2 as [H2|[? ?]].
      * by apply (wf_owner a W id1 st1 id st l).
      * destruct (Hfresh l); [done|]. by exists id1, st1.
    + by apply (wf_owner a W id1 st1 id2 st2 l).
  - intros c l Hc Hh [?|?]%(owned_move_block a id st h' st' _ W Ho S).
    + by apply (wf_held_frozen a W c l).
    + pose proof (wf_held_alloc a W c l Hc Hh). lia.
  - intros r [Hr|(? & ? & Hno)]%(stored_move_block a id st h' st' _ W Ho S).
    + intros [?|?]%(owned_move_block a id st h' st' _ W Ho S).
      * by apply (wf_stored_frozen a W r).
      * pose proof (wf_stored_alloc a W r Hr). lia.
    + intros (id2 & st2 & [[-> ->]|[_ Ho2]]%open_in_move_block & Hl); [done|].
      destruct (Hfresh r); [done|]. by exists id2, st2.
Qed.

(** The auto-creation at the head of the [block_delta] handler. *)
Definition ensure_block (a : Assembler) (id : string) : Assembler :=
  if map_has (streamingBlocks a) id then a
  else set_block a id (fresh_block id "text").

Lemma ensure_block_open a id : ∃ st, open_in (ensure_block a id) id st.
Proof.
  unfold ensure_block, open_in. destruct (map_has _ id) eqn:E.
  - by apply map_has_true in E as [st ?]; exists st.
  - eexists. simpl. apply map_get_set_eq.
Qed.

Lemma wf_ensure_block a id : wf a → wf (ensure_block a id).
Proof.
  intros W. unfold ensure_block. destruct (map_has _ id); [done|].
  by apply wf_set_fresh.
Qed.

Lemma ensure_block_heap a id : heap (ensure_block a id) = heap a.
Proof. unfold ensure_block. by destruct (map_has _ id). Qed.

Lemma ensure_block_completed a id :
  completedBlocks (ensure_block a id) = completedBlocks a.
Proof. unfold ensure_block. by destruct (map_has _ id). Qed.

Lemma owned_ensure_block a id l : owned (ensure_block a id) l → owned a l.
Proof.
  unfold ensure_block. destruct (map_has _ id); [done|].
  apply owned_set_fresh.
Qed.

Lemma on_block_delta_unfold id path value a :
  on_block_delta id path value a
  = match map_get (streamingBlocks (ensure_block a id)) id with
    | Some st =>
        let '(r, (h, st')) := applyBlockDelta path value (heap a, st) in
        (r, move_block (ensure_block a id) id h st')
    | None => (inr tt, ensure_block a id)
    end.
Proof.
  unfold on_block_delta, ensure_block.
  destruct (map_has (streamingBlocks a) id); simpl.
  - destruct (map_get _ id); by destruct a.
  - by destruct (map_get _ id).
Qed.

(** From a well-formed state the [block_delta] handler never throws, and it
    moves the block by a heap step. *)
Lemma on_block_delta_step id path value a :
  wf a →
  ∃ st h' st',
    open_in (ensure_block a id) id st
    ∧ applyBlockDelta path value (heap a, st) = (inr tt, (h', st'))
    ∧ heap_step (heap a) st h' st'
    ∧ on_block_delta id path value a
      = (inr tt, move_block (ensure_block a id) id h' st').
Proof.
  intros W. pose proof (wf_ensure_block a id W) as W1.
  destruct (ensure_block_open a id) as [st Ho].
  destruct (applyBlockDelta_heap_step path value (heap a) st)
    as (h' & st' & Heq & S).
  { by apply (wf_typed _ W1 id). }
  { intros l Hl. rewrite <-(ensure_block_heap a id).
    apply (wf_owned_alloc _ W1). by exists id, st. }
  exists st, h', st'. split_and!; [done..|].
  rewrite on_block_delta_unfold. unfold open_in in Ho. by rewrite Ho, Heq.
Qed.

Lemma held_stateToContentBlock st l :
  held (stateToContentBlock st) l ↔ owns st l.
Proof.
  unfold held, owns, stateToContentBlock. simpl. split; intros [p Hp]; exists p.
  - apply lookup_union_Some_raw in Hp as [?|[_ Hp]]; [done|].
    apply lookup_singleton_Some in Hp as [_ ?]. done.
  - by apply lookup_union_Some_l.
Qed.

Lemma open_in_delete a id id2 st2 :
  NoDup (streamingBlocks a).*1 →
  map_get (map_delete (streamingBlocks a) id) id2 = Some st2 →
  id2 ≠ id ∧ open_in a id2 st2.
Proof.
  intros Hnd Hget. destruct (decide (id = id2)) as [->|Hne].
  - by rewrite map_get_delete_eq in Hget.
  - rewrite map_get_delete_ne in Hget by done. split; [congruence|done].
Qed.

Lemma wf_on_block_end id partial a : wf a → wf (on_block_end id partial a).2.
Proof.
  intros W. unfold on_block_end.
  destruct (map_get (streamingBlocks a) id) as [st|] eqn:Hget; [|done].
  simpl.
  set (st1 := {| block_id := block_id st; block_type := block_type st;
                 data := data st; streaming := false;
                 partial := default false partial |}).
  set (a' := {| heap := heap a;
                 streamingBlocks := map_delete (streamingBlocks a) id;
                 completedBlocks := completedBlocks a ++ [stateToContentBlock st1] |}).
  assert (Hown : ∀ l, owns st1 l ↔ owns st l) by done.
  assert (Hsub : ∀ l, owned a' l
    → ∃ id2 st2, id2 ≠ id ∧ open_in a id2 st2 ∧ owns st2 l).
  { intros l (id2 & st2 & Ho & Hl).
    apply open_in_delete in Ho as [? ?]; [|apply W]. by exists id2, st2. }
  assert (Hsub' : ∀ l, owned a' l → owned a l).
  { intros l (id2 & st2 & _ & ? & ?)%Hsub. by exists id2, st2. }
  split; simpl.
  - apply map_delete_NoDup, W.
  - intros id2 st2 [_ Ho]%open_in_delete; [|apply W]. by apply (wf_ids a W).
  - intros id2 st2 [_ Ho]%open_in_delete; [|apply W]. by apply (wf_typed a W id2).
  - intros l ?%Hsub'. by apply (wf_owned_alloc a W).
  - intros c l [Hc|Hc%list_elem_of_singleton]%elem_of_app Hh; [|subst c].
    + by apply (wf_held_alloc a W c l).
    + apply held_stateToContentBlock, Hown in Hh.
      apply (wf_owned_alloc a W). by exists id, st.
  - apply (wf_stored_alloc a W).
  - intros id1 st1' id2 st2 l [_ Ho1]%open_in_delete [_ Ho2]%open_in_delete;
      [|apply W..].
    by apply (wf_owner a W).
  - intros c l [Hc|Hc%list_elem_of_singleton]%elem_of_app Hh; [|subst c].
    + intros ?%Hsub'. by apply (wf_held_frozen a W c l).
    + apply held_stateToContentBlock, Hown in Hh.
      intros (id2 & st2 & Hne & Ho2 & Hl2)%Hsub.
      by destruct Hne; apply (wf_owner a W id2 st2 id st l).
  - intros r Hr ?%Hsub'. by apply (wf_stored_frozen a W r).
Qed.

Lemma wf_assemble a e : wf a → wf (assemble a e).
Proof.
  intros W. destruct e as [id bt|id p v|id pa]; simpl.
  - by apply (wf_set_fresh a id (or_default bt "text")).
  - destruct (on_block_delta_step id p v a W) as (st & h' & st' & Ho & _ & S & ->).
    simpl. apply (wf_move_block _ id st); [by apply wf_ensure_block|done|].
    by rewrite ensure_block_heap.
  - by apply wf_on_block_end.
Qed.

(** The states the handlers can produce from the initial state. *)
Inductive reachable : Assembler → Prop :=
| reachable_initial : reachable initial
| reachable_step a e : reachable a → reachable (assemble a e).

Lemma reachable_wf a : reachable a → wf a.
Proof. induction 1; [apply wf_initial|by apply wf_assemble]. Qed.

Lemma reachable_all a es : reachable a → reachable (assemble_all a es).
Proof.
  revert a. induction es as [|e es IH]; intros a Ha; [done|].
  simpl. by apply IH, reachable_step.
Qed.

(** *** The merge rules of [applyBlockDelta] *)

Lemma push_lookup_eq (h : Heap) l v elems :
  h !! l = Some elems → push h l v !! l = Some (elems ++ [v]).
Proof. intros H. unfold push. by rewrite list_lookup_alter_eq, H. Qed.

Lemma push_lookup_ne (h : Heap) l l' v : l ≠ l' → push h l v !! l' = h !! l'.
Proof. intros H. unfold push. by rewrite list_lookup_alter_ne. Qed.

Lemma lookup_alloc (h : Heap) elems : (h ++ [elems]) !! length h = Some elems.
Proof. by apply list_lookup_middle. Qed.

Lemma ensure_block_has a id st : open_in a id st → ensure_block a id = a.
Proof.
  intros Ho. unfold ensure_block.
  assert (map_has (streamingBlocks a) id = true) as ->; [|done].
  apply map_has_true. by exists st.
Qed.

Lemma accumulating_merge path value h st :
  is_accumulating path = true → typed st → (∀ l, owns st l → l < length h) →
  ∃ h' arr,
    applyBlockDelta path value (h, st)
    = (inr tt, (h', with_data st (<[path := JRef arr]> (data st))))
    ∧ if String.eqb path "rows" then
        ∃ row, h' !! arr = Some (array_at h (data st) path ++ [JRef row])
               ∧ h' !! row = Some (JStr <$> split_cells value)
      else h' !! arr = Some (array_at h (data st) path ++ [JStr value]).
Proof.
  intros Ha Ht Hal. rewrite applyBlockDelta_accumulating by done.
  unfold array_at. destruct (data st !! path) as [[s|arr]|] eqn:E.
  - by destruct (Ht path s Ha).
  - assert (arr < length h) as Hlt by (apply Hal; by exists path).
    destruct (lookup_lt_is_Some_2 h arr Hlt) as [elems Helems].
    rewrite Helems. simpl. eexists _, arr. split.
    { by rewrite (insert_id _ _ _ E). }
    destruct (String.eqb path "rows").
    + exists (length h). split.
      * apply push_lookup_eq. by rewrite lookup_app_l.
      * rewrite push_lookup_ne by lia. apply lookup_alloc.
    + by apply push_lookup_eq.
  - eexists _, (length h). split; [done|].
    destruct (String.eqb path "rows").
    + exists (length (h ++ [[]])). split.
      * apply push_lookup_eq. rewrite lookup_app_l.
        -- apply lookup_alloc.
        -- rewrite length_app. simpl. lia.
      * rewrite push_lookup_ne.
        -- apply lookup_alloc.
        -- rewrite length_app. simpl. lia.
    + apply push_lookup_eq, lookup_alloc.
Qed.

(** *** The name [__proto__]

    No open block of a reachable state has an own property [__proto__]: the
    only assignment that could make one is dropped. *)

Definition no_proto (st : StreamingBlockState) : Prop :=
  data st !! "__proto__" = None.

Definition no_protos (a : Assembler) : Prop :=
  ∀ id st, open_in a id st → no_proto st.

Lemma applyBlockDelta_other_paths path value h st r h' st' p :
  applyBlockDelta path value (h, st) = (r, (h', st')) → p ≠ path →
  data st' !! p = data st !! p.
Proof.
  unfold applyBlockDelta, assign_text. intros H Hne.
  repeat (case_match; simplify_eq/=); rewrite ?lookup_insert_ne by done; done.
Qed.

Lemma applyBlockDelta_no_proto path value h st r h' st' :
  no_proto st → applyBlockDelta path value (h, st) = (r, (h', st')) → no_proto st'.
Proof.
  unfold no_proto. intros Hn Heq. destruct (decide (path = "__proto__")) as [->|Hne].
  - rewrite applyBlockDelta_text_any in Heq by done. injection Heq as <- <- <-.
    simpl. by rewrite assign_text_proto.
  - by rewrite (applyBlockDelta_other_paths _ _ _ _ _ _ _ _ Heq).
Qed.

Lemma no_protos_set_fresh a id bt :
  no_protos a → no_protos (set_block a id (fresh_block id bt)).
Proof.
  intros N id' st' [[-> ->]|[_ Ho]]%open_in_set_block; [|by apply (N id')].
  apply lookup_empty.
Qed.

Lemma no_protos_assemble a e : wf a → no_protos a → no_protos (assemble a e).
Proof.
  intros W N. destruct e as [id bt|id p v|id pa]; simpl.
  - by apply (no_protos_set_fresh a id (or_default bt "text")).
  - destruct (on_block_delta_step id p v a W) as (st & h' & st' & Ho & Heq & _ & ->).
    simpl.
    assert (N1 : no_protos (ensure_block a id)).
    { unfold ensure_block. destruct (map_has _ id); [done|].
      by apply no_protos_set_fresh. }
    intros id2 st2 [[-> ->]|[_ Ho2]]%open_in_move_block.
    + exact (applyBlockDelta_no_proto p v (heap a) st _ h' st' (N1 id st Ho) Heq).
    + by apply (N1 id2).
  - unfold on_block_end.
    destruct (map_get (streamingBlocks a) id) as [st|] eqn:Hget; [|done].
    intros id2 st2 Ho. simpl in Ho. unfold open_in in Ho. simpl in Ho.
    apply open_in_delete in Ho as [_ Ho]; [|apply W]. by apply (N id2).
Qed.

Lemma reachable_no_protos a : reachable a → no_protos a.
Proof.
  induction 1 as [|a e R IH]; [done|].
  apply no_protos_assemble; [by apply reachable_wf|done].
Qed.

(** X25.  The merge rule that [applyBlockDelta] applies to an open block of
    a reachable state, by the path of the delta: for [rows], [items] and
    [steps] the value is appended to the array under that path (an absent
    array counts as empty; for [rows] what is appended is a new array holding
    the trimmed pieces of the value split at the bar); for [headers] the path
    is set to a new array of the trimmed pieces; for any other path but
    [__proto__] the value is concatenated onto an existing string, and
    otherwise replaces what was there; a delta to [__proto__] leaves the
    block as it is.  No other path changes, and the handler runs to its
    end. *)
Theorem applyBlockDelta_merge_rules (a : Assembler) (id : string)
    (st : StreamingBlockState) (path value : string) :
  reachable a → open_in a id st →
  ∃ h' st',
    applyBlockDelta path value (heap a, st) = (inr tt, (h', st'))
    ∧ on_block_delta id path value a = (inr tt, move_block a id h' st')
    ∧ (∀ p, p ≠ path → data st' !! p = data st !! p)
    ∧ (is_accumulating path = true →
         ∃ arr, data st' !! path = Some (JRef arr)
           ∧ if String.eqb path "rows" then
               ∃ row, h' !! arr
                      = Some (array_at (heap a) (data st) path ++ [JRef row])
                      ∧ h' !! row = Some (JStr <$> split_cells value)
             else h' !! arr
                  = Some (array_at (heap a) (data st) path ++ [JStr value]))
    ∧ (path = "headers" →
         ∃ cells, data st' !! path = Some (JRef cells)
           ∧ h' !! cells = Some (JStr <$> split_cells value))
    ∧ (is_text_path path = true →
         h' = heap a
         ∧ if String.eqb path "__proto__" then st' = st
           else data st' !! path
                = Some (JStr match data st !! path with
                             | Some (JStr existing) => existing +:+ value
                             | _ => value
                             end)).
Proof.
  intros R Ho. pose proof (reachable_wf a R) as W.
  assert (Ht : typed st) by by apply (wf_typed a W id).
  assert (Hal : ∀ l, owns st l → l < length (heap a)).
  { intros l Hl. apply (wf_owned_alloc a W). by exists id, st. }
  assert (Hhandler : ∀ h' st',
    applyBlockDelta path value (heap a, st) = (inr tt, (h', st')) →
    on_block_delta id path value a = (inr tt, move_block a id h' st')).
  { intros h' st' Heq. rewrite on_block_delta_unfold.
    rewrite (ensure_block_has a id st Ho). unfold open_in in Ho.
    by rewrite Ho, Heq. }
  destruct (path_cases path) as [Ha|[->|Hp]].
  - destruct (accumulating_merge path value (heap a) st Ha Ht Hal)
      as (h' & arr & Heq & Harr).
    eexists _, _. split; [exact Heq|]. split; [by apply Hhandler|].
    split_and!.
    + intros p Hne. simpl. by rewrite lookup_insert_ne.
    + intros _. exists arr. simpl. by rewrite lookup_insert_eq.
    + intros ->. done.
    + intros Hp. apply text_path_not_accumulating in Hp. congruence.
  - eexists _, _. split; [apply applyBlockDelta_headers|].
    split; [by apply Hhandler|]. split_and!.
    + intros p Hne. simpl. by rewrite lookup_insert_ne.
    + done.
    + intros _. exists (length (heap a)). simpl.
      rewrite lookup_insert_eq. split; [done|apply lookup_alloc].
    + done.
  - eexists _, _. split; [by apply applyBlockDelta_text_any|].
    split; [by apply Hhandler, applyBlockDelta_text_any|]. split_and!.
    + intros p Hne. simpl.
      destruct (assign_text_cases (data st) path (text_after (data st !! path) value))
        as [(_ & _ & ->)| ->]; [done|]. by rewrite lookup_insert_ne.
    + intros Ha. apply text_path_not_accumulating in Hp. congruence.
    + intros ->. done.
    + intros _. split; [done|].
      destruct (String.eqb path "__proto__") eqn:E.
      * apply String.eqb_eq in E as ->.
        rewrite assign_text_proto by by apply (reachable_no_protos a R id).
        apply with_data_id.
      * apply String.eqb_neq in E. simpl.
        rewrite assign_text_ne by done. by rewrite lookup_insert_eq.
Qed.

(** C2, where the code departs from the claim.  [__proto__] is a path under
    the last rule: it is neither an array path nor [headers].  In a
    reachable state no open block holds a string there, so the rule asks for
    the value to be stored under the path; the handler runs to its end and
    leaves the heap and the block exactly as they were, so that the value is
    lost and the path still reads as absent. *)
Theorem proto_delta_dropped (a : Assembler) (id : string)
    (st : StreamingBlockState) (value : string) :
  reachable a → open_in a id st →
  is_text_path "__proto__" = true
  ∧ data st !! "__proto__" = None
  ∧ applyBlockDelta "__proto__" value (heap a, st) = (inr tt, (heap a, st))
  ∧ (on_block_delta id "__proto__" value a).1 = inr tt
  ∧ open_in (assemble a (block_delta id "__proto__" value)) id st
  ∧ heap (assemble a (block_delta id "__proto__" value)) = heap a.
Proof.
  intros R Ho. pose proof (reachable_no_protos a R id st Ho) as Hn.
  assert (Heq : applyBlockDelta "__proto__" value (heap a, st)
                = (inr tt, (heap a, st))).
  { rewrite applyBlockDelta_text_any by done.
    by rewrite assign_text_proto, with_data_id. }
  assert (Hd : on_block_delta id "__proto__" value a
               = (inr tt, move_block a id (heap a) st)).
  { rewrite on_block_delta_unfold, (ensure_block_has a id st Ho).
    unfold open_in in Ho. by rewrite Ho, Heq. }
  split_and!; [done..| | |].
  - by rewrite Hd.
  - simpl. rewrite Hd. unfold open_in. simpl. apply map_get_set_eq.
  - simpl. by rewrite Hd.
Qed.

(** *** Completed blocks are frozen *)

(** What a reader sees through a value, following references [n] levels
    deep. *)
Local Unset Elimination Schemes.
Inductive tree :=
| TStr (s : string)
| TArr (elems : list tree)
| TCut.
Local Set Elimination Schemes.

Fixpoint resolve (n : nat) (h : Heap) (v : jsval) : tree :=
  match v with
  | JStr s => TStr s
  | JRef l =>
      match n with
      | O => TCut
      | S n' =>
          match h !! l with
          | Some elems => TArr (resolve n' h <$> elems)
          | None => TCut
          end
      end
  end.

(** A content block as a reader sees it over the heap [h]. *)
Definition view (n : nat) (h : Heap) (c : ContentBlock) : BlockType * gmap string tree :=
  (ContentBlock.type c, resolve n h <$> ContentBlock.data c).

(** A value no open block can reach: a string, or an allocated array that
    no open block holds. *)
Definition frozen (a : Assembler) (v : jsval) : Prop :=
  match v with
  | JStr _ => True
  | JRef l => l < length (heap a) ∧ ¬ owned a l
  end.

Lemma owned_on_block_end id partial a l :
  wf a → owned (on_block_end id partial a).2 l → owned a l.
Proof.
  intros W. unfold on_block_end.
  destruct (map_get (streamingBlocks a) id) as [st|] eqn:Hget; [|done].
  intros (id2 & st2 & Ho & Hl). simpl in Ho.
  apply open_in_delete in Ho as [_ ?]; [|apply W]. by exists id2, st2.
Qed.

Lemma assemble_heap_grows a e :
  wf a → length (heap a) ≤ length (heap (assemble a e)).
Proof.
  intros W. destruct e as [id bt|id p v|id pa]; simpl; [done| |].
  - destruct (on_block_delta_step id p v a W) as (st & h' & st' & _ & _ & S & ->).
    simpl. apply (step_grows _ _ _ _ S).
  - unfold on_block_end. by destruct (map_get _ id).
Qed.

Lemma assemble_frame a e l :
  wf a → l < length (heap a) → ¬ owned a l →
  heap (assemble a e) !! l = heap a !! l ∧ ¬ owned (assemble a e) l.
Proof.
  intros W Hl Hno. destruct e as [id bt|id p v|id pa]; simpl.
  - split; [done|]. by intros ?%owned_set_fresh.
  - destruct (on_block_delta_step id p v a W) as (st & h' & st' & Ho & _ & S & ->).
    simpl. pose proof (wf_ensure_block a id W) as W1.
    assert (Hno1 : ¬ owned (ensure_block a id) l) by by intros ?%owned_ensure_block.
    split.
    + apply (step_frame _ _ _ _ S); [done|].
      intros ?. apply Hno1. by exists id, st.
    + rewrite <-(ensure_block_heap a id) in S.
      intros [?|?]%(owned_move_block _ id st h' st' l W1 Ho S); [done|].
      rewrite ensure_block_heap in *. lia.
  - split.
    + unfold on_block_end. by destruct (map_get _ id).
    + by intros ?%owned_on_block_end.
Qed.

Lemma frozen_assemble a e v : wf a → frozen a v → frozen (assemble a e) v.
Proof.
  intros W. destruct v as [s|l]; [done|]. intros [Hl Hno]. split.
  - pose proof (assemble_heap_grows a e W). lia.
  - by apply assemble_frame.
Qed.

Lemma frozen_elems a l elems v :
  wf a → heap a !! l = Some elems → v ∈ elems → frozen a v.
Proof.
  intros W Hl Hv. destruct v as [s|r]; [done|].
  assert (stored (heap a) r) by by exists l, elems.
  split; [by apply (wf_stored_alloc a W)|by apply (wf_stored_frozen a W)].
Qed.

Lemma frozen_held a c p v :
  wf a → c ∈ completedBlocks a → ContentBlock.data c !! p = Some v → frozen a v.
Proof.
  intros W Hc Hp. destruct v as [s|l]; [done|].
  assert (held c l) by by exists p.
  split; [by apply (wf_held_alloc a W c)|by apply (wf_held_frozen a W c)].
Qed.

Lemma resolve_assemble n a e v :
  wf a → frozen a v → resolve n (heap (assemble a e)) v = resolve n (heap a) v.
Proof.
  intros W. revert v. induction n as [|n IH]; intros [s|l] Hf; try done.
  destruct Hf as [Hl Hno]. simpl.
  destruct (assemble_frame a e l W Hl Hno) as [-> _].
  destruct (heap a !! l) as [elems|] eqn:Helems; [|done].
  f_equal. apply list_fmap_ext. intros i v Hv. apply IH.
  apply (frozen_elems a l elems); [done..|]. by apply list_elem_of_lookup_2 in Hv.
Qed.

Lemma resolve_assemble_all n es a v :
  wf a → frozen a v →
  resolve n (heap (assemble_all a es)) v = resolve n (heap a) v.
Proof.
  revert a. induction es as [|e es IH]; intros a W Hf; [done|]. simpl.
  rewrite IH; [|by apply wf_assemble|by apply frozen_assemble].
  by apply resolve_assemble.
Qed.

Lemma view_assemble_all n es a c :
  wf a → c ∈ completedBlocks a →
  view n (heap (assemble_all a es)) c = view n (heap a) c.
Proof.
  intros W Hc. unfold view. f_equal. apply map_eq. intros p.
  rewrite !lookup_fmap.
  destruct (ContentBlock.data c !! p) as [v|] eqn:Hp; [|done]. simpl.
  f_equal. apply resolve_assemble_all; [done|]. by apply (frozen_held a c p).
Qed.

Lemma on_block_end_open id pa a st :
  open_in a id st →
  on_block_end id pa a
  = (true, {| heap := heap a;
              streamingBlocks := map_delete (streamingBlocks a) id;
              completedBlocks := completedBlocks a ++ [stateToContentBlock st] |}).
Proof. intros Ho. unfold on_block_end. unfold open_in in Ho. by rewrite Ho. Qed.

Lemma on_block_delta_unseen id path value a :
  map_get (streamingBlocks a) id = None →
  on_block_delta id path value a
  = let '(r, (h, st')) :=
      applyBlockDelta path value (heap a, fresh_block id "text") in
    (r, move_block (set_block a id (fresh_block id "text")) id h st').
Proof.
  intros Hn. rewrite on_block_delta_unfold. unfold ensure_block.
  apply map_has_false in Hn as ->. simpl. by rewrite map_get_set_eq.
Qed.

(** C10.  In a reachable state: (1) whatever events follow, the completed
    blocks stay where they are in the completed list and a reader sees the
    same content through each of them, arrays included, since no open block
    holds any of their arrays; (2) when [block_end] closes a block, its id
    leaves the open set, and a later [block_delta] with the same id leaves the
    completed list alone and applies the delta to a new text block with empty
    data; (3) a snapshot lists the completed blocks first, in order, and then
    the open blocks in the order of the open set. *)
Theorem completed_blocks_frozen (a : Assembler) :
  reachable a →
  (∀ es,
     (∃ later, completedBlocks (assemble_all a es) = completedBlocks a ++ later)
     ∧ ∀ c n, c ∈ completedBlocks a →
         view n (heap (assemble_all a es)) c = view n (heap a) c)
  ∧ (∀ id st pa path value, open_in a id st →
       let a1 := assemble a (block_end id pa) in
       let a2 := assemble a1 (block_delta id path value) in
       completedBlocks a1 = completedBlocks a ++ [stateToContentBlock st]
       ∧ map_get (streamingBlocks a1) id = None
       ∧ completedBlocks a2 = completedBlocks a1
       ∧ ∃ h' st2,
           applyBlockDelta path value (heap a1, fresh_block id "text")
           = (inr tt, (h', st2))
           ∧ heap a2 = h' ∧ open_in a2 id st2 ∧ block_type st2 = "text")
  ∧ (∀ i c, completedBlocks a !! i = Some c →
       buildBlocksFromState (completedBlocks a) (streamingBlocks a) !! i = Some c)
  ∧ (∀ j st, map_values (streamingBlocks a) !! j = Some st →
       buildBlocksFromState (completedBlocks a) (streamingBlocks a)
         !! (length (completedBlocks a) + j)
       = Some (stateToContentBlock st)).
Proof.
  intros R. pose proof (reachable_wf a R) as W. split_and!.
  - intros es. split; [apply assemble_all_completed_grows|].
    intros c n Hc. by apply view_assemble_all.
  - intros id st pa path value Ho a1 a2.
    assert (Ha1 : a1 = {| heap := heap a;
                          streamingBlocks := map_delete (streamingBlocks a) id;
                          completedBlocks := completedBlocks a ++ [stateToContentBlock st] |}).
    { unfold a1. simpl. by rewrite (on_block_end_open id pa a st Ho). }
    assert (Hgone : map_get (streamingBlocks a1) id = None).
    { rewrite Ha1. simpl. apply map_get_delete_eq, W. }
    assert (W1 : wf a1) by by apply wf_assemble.
    destruct (applyBlockDelta_heap_step path value (heap a1) (fresh_block id "text"))
      as (h' & st2 & Heq & S).
    { intros p s _. simpl. by rewrite lookup_empty. }
    { by intros l ?%owns_fresh. }
    assert (Ha2 : a2 = move_block (set_block a1 id (fresh_block id "text")) id h' st2).
    { unfold a2. simpl. by rewrite (on_block_delta_unseen id path value a1 Hgone), Heq. }
    split_and!; [by rewrite Ha1|done|by rewrite Ha2|].
    exists h', st2. split_and!; [done|by rewrite Ha2| |].
    + rewrite Ha2. unfold open_in. simpl. apply map_get_set_eq.
    + by rewrite (step_type _ _ _ _ S).
  - intros i c Hc. unfold buildBlocksFromState. by apply lookup_app_l_Some.
  - intros j st Hst. unfold buildBlocksFromState.
    rewrite lookup_app_r by lia.
    replace (length (completedBlocks a) + j - length (completedBlocks a)) with j by lia.
    by rewrite list_lookup_fmap, Hst.
Qed.

(** The first delta of a block that is not open: the handler makes a text
    block for it, which then holds the value. *)
Lemma holds_first_delta a id path w :
  map_get (streamingBlocks a) id = None →
  is_text_path path = true → path ≠ "__proto__" →
  holds (assemble a (block_delta id path w)) id "text" (text_data path [w]).
Proof.
  intros Hn Hp Hne. simpl. rewrite on_block_delta_unseen by done.
  rewrite applyBlockDelta_text by done. simpl.
  eexists. split; [apply map_get_set_eq|]. split_and!; [done..|].
  apply (text_data_snoc path [] w).
Qed.

Lemma text_block_unseen path id es :
  is_text_path path = true → path ≠ "__proto__" →
  ∀ a w ws pa,
    map_get (streamingBlocks a) id = None →
    filter (λ e, event_id e = id) es
    = (block_delta id path <$> (w :: ws)) ++ [block_end id pa] →
    ∃ l1 l2,
      completedBlocks (assemble_all a es)
      = completedBlocks a ++ l1
        ++ [ContentBlock.mk "text" (text_data path (w :: ws) ∪ {[ "id" := JStr id ]})]
        ++ l2.
Proof.
  intros Hp Hne. induction es as [|e es IH]; intros a w ws pa Hn Hf; [done|].
  rewrite filter_cons in Hf. simpl. case_decide as He.
  - injection Hf as -> Hf.
    destruct (text_block_closed path id es Hp Hne _ _ [w] ws pa Hf
                (holds_first_delta a id path w Hn Hp Hne)) as (l1 & l2 & ->).
    assert (completedBlocks (assemble a (block_delta id path w))
            = completedBlocks a) as ->.
    { simpl. rewrite on_block_delta_unfold.
      destruct (map_get (streamingBlocks (ensure_block a id)) id);
        [|apply ensure_block_completed].
      destruct (applyBlockDelta _ _ _) as [r [h st']]. simpl.
      apply ensure_block_completed. }
    by exists l1, l2.
  - destruct (IH (assemble a e) w ws pa) as (l1 & l2 & ->); [|done|].
    { by rewrite assemble_other_block. }
    destruct (assemble_completed_grows a e) as [l0 ->].
    exists (l0 ++ l1), l2. by rewrite <-!app_assoc.
Qed.

(** The events of a text block: its [block_start], when it has one, the
    deltas to [path], and its [block_end]. *)
Definition text_block_events (id : string) (start : option (option string))
    (path : string) (vs : list string) (pa : option bool) : list BlockEvent :=
  match start with
  | Some bt => [block_start id bt]
  | None => []
  end ++ (block_delta id path <$> vs) ++ [block_end id pa].

(** The type of the block these events make: the declared one, or [text]
    for a block that its first delta creates. *)
Definition text_block_type (start : option (option string)) : BlockType :=
  match start with
  | Some bt => or_default bt "text"
  | None => "text"
  end.

(** C3.  Text accumulation, for any state [a] and any event sequence [es]
    in which the events of block [id] are, in this order, its [block_start]
    (or none, for a block that is not open in [a] and that its first delta
    creates), one or more deltas to one path that is neither an array path,
    nor [headers], nor [__proto__], and its [block_end] (events of other
    blocks may come in between): the run completes a block whose type is the
    declared one ([text] without a [block_start]) and whose data holds,
    under that path, the concatenation of the delta values in arrival order,
    next to the id.  [content], the path of the claim, is such a path.  The
    scenario of block [b1] is the instance spelled out in the last part. *)
Theorem text_deltas_concatenate :
  (∀ (a : Assembler) (es : list BlockEvent) (id : string)
     (start : option (option string))
     (path v : string) (vs : list string) (pa : option bool),
     is_text_path path = true → path ≠ "__proto__" →
     (start = None → map_get (streamingBlocks a) id = None) →
     filter (λ e, event_id e = id) es = text_block_events id start path (v :: vs) pa →
     ∃ before after c,
       completedBlocks (assemble_all a es)
       = completedBlocks a ++ before ++ [c] ++ after
       ∧ ContentBlock.type c = text_block_type start
       ∧ ContentBlock.data c
         = {[ path := JStr (concat_all (v :: vs)) ]} ∪ {[ "id" := JStr id ]}
       ∧ ContentBlock.data c !! path = Some (JStr (concat_all (v :: vs))))
  ∧ (is_text_path "content" = true ∧ "content" ≠ "__proto__")
  ∧ completedBlocks (assemble_all initial
      [block_start "b1" (Some "text"); block_delta "b1" "content" "Hi ";
       block_delta "b1" "content" "there"; block_end "b1" (Some false)])
    = [ContentBlock.mk "text"
         {[ "id" := JStr "b1"; "content" := JStr "Hi there" ]}].
Proof.
  split_and!; [|done..|by vm_compute].
  intros a es id start path v vs pa Hp Hne Hstart Hf.
  assert (∃ l1 l2,
    completedBlocks (assemble_all a es)
    = completedBlocks a ++ l1
      ++ [ContentBlock.mk (text_block_type start)
            (text_data path (v :: vs) ∪ {[ "id" := JStr id ]})]
      ++ l2) as (l1 & l2 & Heq).
  { destruct start as [bt|].
    - by apply (text_block_started path id es Hp Hne a bt (v :: vs) pa).
    - by apply (text_block_unseen path id es Hp Hne a v vs pa (Hstart eq_refl)). }
  eexists l1, l2, _. split; [exact Heq|]. split_and!; [done..|].
  simpl. apply lookup_union_Some_l, lookup_singleton_eq.
Qed.

(** C1 (as the code has it).  A block keeps the block type its [block_start]
    declares, whatever string that is, known or not: after the [block_start]
    and any further events that neither start nor end the block again, the
    block is open with that type, and [block_end] completes it as a content
    block of that type whose data is the accumulated data next to the id, at
    the top level.  A missing or empty declared type reads as [text]; any
    other string is kept as it is.  From a reachable state no delta of the
    block throws. *)
Theorem declared_type_kept (a : Assembler) (id : string) (bt : option string)
    (es : list BlockEvent) (pa : option bool) :
  reachable a →
  (∀ e, e ∈ es → event_id e = id → ∃ p v, e = block_delta id p v) →
  let a1 := assemble_all (assemble a (block_start id bt)) es in
  (∃ st, open_in a1 id st
         ∧ block_type st = or_default bt "text"
         ∧ completedBlocks (assemble a1 (block_end id pa))
           = completedBlocks a1
             ++ [ContentBlock.mk (or_default bt "text")
                   (data st ∪ {[ "id" := JStr id ]})])
  ∧ (∀ path value, (on_block_delta id path value a1).1 = inr tt)
  ∧ (∀ t, t ≠ "" → or_default (Some t) "text" = t).
Proof.
  intros R Hes a1. split_and!.
  - assert (open_as a1 id (or_default bt "text")) as (st & Ho & Hid & Hbt).
    { apply open_as_deltas; [done|]. eexists. simpl.
      by rewrite map_get_set_eq. }
    exists st. split_and!; [done..|]. simpl.
    rewrite (on_block_end_open id pa a1 st Ho). simpl.
    unfold stateToContentBlock. simpl. by rewrite Hbt, Hid.
  - intros path value.
    assert (W1 : wf a1) by by apply reachable_wf, reachable_all, reachable_step.
    by destruct (on_block_delta_step id path value a1 W1)
      as (? & ? & ? & _ & _ & _ & ->).
  - by intros [|c t].
Qed.

(** Whether [es] holds a [block_start] for [id]. *)
Definition started_before (id : string) (es : list BlockEvent) : bool :=
  existsb (λ e, match e with
                | block_start i _ => String.eqb i id
                | _ => false
                end) es.

(** C4 (as the code has it).  For a block id that is not open: a
    [block_end] is ignored, it changes nothing and schedules nothing; a
    [block_delta] opens a text block for the id and applies the delta to it.
    After a [block_delta] its block is always open. *)
Theorem events_on_unseen_block (a : Assembler) (id : string) :
  map_get (streamingBlocks a) id = None →
  (∀ pa, assemble a (block_end id pa) = a ∧ (on_block_end id pa a).1 = false)
  ∧ (∀ path value,
       ∃ r h st,
         applyBlockDelta path value (heap a, fresh_block id "text") = (r, (h, st))
         ∧ open_in (assemble a (block_delta id path value)) id st
         ∧ heap (assemble a (block_delta id path value)) = h
         ∧ block_type st = "text" ∧ block_id st = id)
  ∧ (∀ a' id' path value,
       ∃ st, open_in (assemble a' (block_delta id' path value)) id' st).
Proof.
  intros Hn. split_and!.
  - intros pa. simpl. unfold on_block_end. by rewrite Hn.
  - intros path value. simpl. rewrite on_block_delta_unseen by done.
    destruct (applyBlockDelta _ _ _) as [r [h st']] eqn:E.
    exists r, h, st'. split; [done|].
    apply applyBlockDelta_keeps in E as [Hid Hbt].
    unfold open_in. simpl. by rewrite map_get_set_eq.
  - intros a' id' path value. simpl. rewrite on_block_delta_unfold.
    destruct (ensure_block_open a' id') as [st Ho]. unfold open_in in Ho.
    rewrite Ho. destruct (applyBlockDelta _ _ _) as [r [h st']].
    exists st'. unfold open_in. simpl. by rewrite map_get_set_eq.
Qed.

(** *** The shapes of the accumulated data

    [blocksToTextFallback] reads [content], [language] and [code] as strings
    and [items], [steps] and [headers] as arrays of strings.  In every
    reachable state the data has these shapes. *)

Definition string_array_path (p : string) : Prop :=
  p = "items" ∨ p = "steps" ∨ p = "headers".

(** Text paths hold strings, and the arrays under [items], [steps] and
    [headers] hold strings only. *)
Definition well_typed_data (h : Heap) (d : gmap string jsval) : Prop :=
  (∀ p l, d !! p = Some (JRef l) → is_text_path p = false)
  ∧ (∀ p l, string_array_path p → d !! p = Some (JRef l) →
       ∃ ss : list string, h !! l = Some (JStr <$> ss)).

(** No array is held under two paths. *)
Definition injective_refs (st : StreamingBlockState) : Prop :=
  ∀ p1 p2 l, data st !! p1 = Some (JRef l) → data st !! p2 = Some (JRef l) → p1 = p2.

Lemma string_array_path_not_text p : string_array_path p → is_text_path p = false.
Proof. by intros [->|[->| ->]]. Qed.

Lemma string_array_path_not_rows p : string_array_path p → p ≠ "rows".
Proof. by intros [->|[->| ->]]. Qed.

Lemma accumulating_string_array p :
  is_accumulating p = true → p ≠ "rows" → String.eqb p "rows" = false.
Proof. intros _ ?. by apply String.eqb_neq. Qed.

Lemma well_typed_data_frame (h h' : Heap) d :
  well_typed_data h d →
  (∀ p l, d !! p = Some (JRef l) → h' !! l = h !! l) →
  well_typed_data h' d.
Proof.
  intros [H1 H2] Hfr. split; [done|].
  intros p l Hp Hl. rewrite (Hfr p l Hl). by apply (H2 p).
Qed.

Lemma well_typed_data_empty h : well_typed_data h ∅.
Proof. split; intros p l; by rewrite ?lookup_empty. Qed.

Lemma well_typed_data_insert_text (h : Heap) d path s :
  is_text_path path = true → well_typed_data h d →
  well_typed_data h (<[path := JStr s]> d).
Proof.
  intros Hp [H1 H2]. split.
  - intros p l. destruct (decide (path = p)) as [->|Hne].
    + by rewrite lookup_insert_eq.
    + rewrite lookup_insert_ne by done. apply H1.
  - intros p l Hsp. destruct (decide (path = p)) as [->|Hne].
    + by rewrite lookup_insert_eq.
    + rewrite lookup_insert_ne by done. by apply H2.
Qed.

(** A new array of strings under [path], which is not a text path. *)
Lemma well_typed_data_insert_array (h : Heap) d path (ss : list string) :
  is_text_path path = false →
  (∀ p l, d !! p = Some (JRef l) → l < length h) →
  well_typed_data h d →
  well_typed_data (h ++ [JStr <$> ss]) (<[path := JRef (length h)]> d).
Proof.
  intros Hp Hal [H1 H2]. split.
  - intros p l. destruct (decide (path = p)) as [->|Hne].
    + by rewrite lookup_insert_eq.
    + rewrite lookup_insert_ne by done. apply H1.
  - intros p l Hsp. destruct (decide (path = p)) as [->|Hne].
    + rewrite lookup_insert_eq. intros [= <-]. exists ss. apply lookup_alloc.
    + rewrite lookup_insert_ne by done. intros Hl.
      rewrite lookup_app_l by by apply (Hal p). by apply (H2 p).
Qed.

Lemma injective_refs_insert_fresh st path (h : Heap) :
  (∀ l, owns st l → l < length h) → injective_refs st →
  injective_refs (with_data st (<[path := JRef (length h)]> (data st))).
Proof.
  intros Hal Hinj p1 p2 l. simpl.
  destruct (decide (path = p1)) as [->|Hn1], (decide (p1 = p2)) as [->|Hn2];
    try done.
  - rewrite lookup_insert_eq, lookup_insert_ne by done. intros [= <-] Hl.
    assert (length h < length h); [|lia]. apply Hal. by exists p2.
  - destruct (decide (path = p2)) as [->|Hn3].
    + rewrite lookup_insert_ne, lookup_insert_eq by done. intros Hl [= <-].
      assert (length h < length h); [|lia]. apply Hal. by exists p1.
    + rewrite !lookup_insert_ne by done. intros ? ?.
      destruct Hn2. by apply (Hinj p1 p2 l).
Qed.

Lemma injective_refs_insert_text st path s :
  injective_refs st → injective_refs (with_data st (<[path := JStr s]> (data st))).
Proof.
  intros Hinj p1 p2 l. simpl.
  destruct (decide (path = p1)) as [->|Hn1]; [by rewrite lookup_insert_eq|].
  destruct (decide (path = p2)) as [->|Hn2]; [by rewrite (lookup_insert_eq _ p2)|].
  rewrite !lookup_insert_ne by done. apply Hinj.
Qed.

(** Pushing onto the array under [path] keeps the shapes: the arrays under
    other paths are other arrays, and what is pushed onto [items] or [steps]
    is a string. *)
Lemma well_typed_data_push (h : Heap) st path arr x :
  injective_refs st → data st !! path = Some (JRef arr) →
  (path ≠ "rows" → ∃ s, x = JStr s) →
  (string_array_path path → path ≠ "rows") →
  well_typed_data h (data st) →
  well_typed_data (push h arr x) (data st).
Proof.
  intros Hinj Harr Hx _ [H1 H2]. split; [done|].
  intros p l Hsp Hl. destruct (decide (p = path)) as [->|Hne].
  - rewrite Harr in Hl. injection Hl as <-.
    destruct (H2 path arr Hsp Harr) as [ss Hss].
    destruct (Hx (string_array_path_not_rows _ Hsp)) as [s ->].
    exists (ss ++ [s]). rewrite fmap_app. by apply push_lookup_eq.
  - rewrite push_lookup_ne; [by apply (H2 p)|].
    intros ->. destruct Hne. by apply (Hinj p path l).
Qed.

Lemma applyBlockDelta_well_typed path value h st :
  typed st → (∀ l, owns st l → l < length h) →
  injective_refs st → well_typed_data h (data st) →
  ∃ h' st', applyBlockDelta path value (h, st) = (inr tt, (h', st'))
            ∧ well_typed_data h' (data st') ∧ injective_refs st'.
Proof.
  intros Ht Hal Hinj Hwt.
  assert (Hal' : ∀ p l, data st !! p = Some (JRef l) → l < length h).
  { intros p l Hl. apply Hal. by exists p. }
  assert (Hrow : ∀ s : string,
    path ≠ "rows" → ∃ s', (JStr s : jsval) = JStr s') by (intros s _; by exists s).
  destruct (path_cases path) as [Ha|[->|Hp]].
  - rewrite applyBlockDelta_accumulating by done.
    assert (Hnt : is_text_path path = false).
    { unfold is_text_path. by rewrite Ha. }
    destruct (data st !! path) as [[s|arr]|] eqn:E.
    + by destruct (Ht path s Ha).
    + rewrite with_data_id. eexists _, _. split; [done|]. split; [|done].
      destruct (String.eqb path "rows") eqn:Er.
      * apply String.eqb_eq in Er.
        apply (well_typed_data_push _ st path); try done.
        { intros Hsp. by apply string_array_path_not_rows. }
        apply (well_typed_data_frame h); [done|].
        intros p l Hl. apply lookup_app_l. by apply (Hal' p).
      * apply (well_typed_data_push _ st path); try done.
        { by apply Hrow. }
        intros Hsp. by apply string_array_path_not_rows.
    + set (st1 := with_data st (<[path := JRef (length h)]> (data st))).
      assert (Hwt1 : well_typed_data (h ++ [[]]) (data st1)).
      { by apply (well_typed_data_insert_array h (data st) path []). }
      assert (Hinj1 : injective_refs st1) by by apply injective_refs_insert_fresh.
      assert (Harr : data st1 !! path = Some (JRef (length h))).
      { simpl. by rewrite lookup_insert_eq. }
      assert (Hal1 : ∀ p l, data st1 !! p = Some (JRef l) → l < length (h ++ [[]])).
      { intros p l Hl. rewrite length_app. simpl.
        assert (owns st1 l) as [->|?%Hal]%owns_insert_ref by (by exists p); lia. }
      eexists _, _. split; [done|]. split; [|done].
      destruct (String.eqb path "rows") eqn:Er.
      * apply (well_typed_data_push _ st1 path); try done.
        { intros Hne. apply String.eqb_eq in Er. done. }
        { intros Hsp. by apply string_array_path_not_rows. }
        apply (well_typed_data_frame (h ++ [[]])); [done|].
        intros p l Hl. apply lookup_app_l. by apply (Hal1 p).
      * apply (well_typed_data_push _ st1 path); try done.
        { by apply Hrow. }
        intros Hsp. by apply string_array_path_not_rows.
  - rewrite applyBlockDelta_headers. eexists _, _. split; [done|]. split.
    + by apply well_typed_data_insert_array.
    + by apply injective_refs_insert_fresh.
  - rewrite applyBlockDelta_text_any by done. eexists _, _. split; [done|].
    destruct (assign_text_cases (data st) path (text_after (data st !! path) value))
      as [(_ & _ & ->)| ->].
    + by rewrite with_data_id.
    + split.
      * by apply well_typed_data_insert_text.
      * by apply injective_refs_insert_text.
Qed.

Record well_typed (a : Assembler) : Prop := {
  wt_open : ∀ id st, open_in a id st →
    well_typed_data (heap a) (data st) ∧ injective_refs st;
  wt_completed : ∀ c, c ∈ completedBlocks a →
    well_typed_data (heap a) (ContentBlock.data c)
}.

Lemma well_typed_initial : well_typed initial.
Proof. split; [done|]. intros c Hc. by apply elem_of_nil in Hc. Qed.

Lemma well_typed_set_fresh a id bt :
  well_typed a → well_typed (set_block a id (fresh_block id bt)).
Proof.
  intros [Ho Hc]. split; [|done].
  intros id' st' [[-> ->]|[_ ?]]%open_in_set_block; [|by apply (Ho id')].
  split; [apply well_typed_data_empty|].
  intros p1 p2 l. simpl. by rewrite lookup_empty.
Qed.

Lemma well_typed_ensure_block a id : well_typed a → well_typed (ensure_block a id).
Proof.
  intros W. unfold ensure_block. destruct (map_has _ id); [done|].
  by apply well_typed_set_fresh.
Qed.

Lemma well_typed_data_closed h st :
  well_typed_data h (data st) →
  well_typed_data h (ContentBlock.data (stateToContentBlock st)).
Proof.
  intros [H1 H2]. unfold stateToContentBlock. simpl.
  assert (Hsub : ∀ p l,
    (data st ∪ {[ "id" := JStr (block_id st) ]}) !! p = Some (JRef l) →
    data st !! p = Some (JRef l)).
  { intros p l [?|[_ Hp]]%lookup_union_Some_raw; [done|].
    by apply lookup_singleton_Some in Hp as [_ ?]. }
  split.
  - intros p l ?%Hsub. by apply (H1 p l).
  - intros p l Hsp ?%Hsub. by apply (H2 p).
Qed.

Lemma well_typed_assemble a e : wf a → well_typed a → well_typed (assemble a e).
Proof.
  intros W T. destruct e as [id bt|id p v|id pa]; simpl.
  - by apply (well_typed_set_fresh a id (or_default bt "text")).
  - pose proof (wf_ensure_block a id W) as W1.
    pose proof (well_typed_ensure_block a id T) as T1.
    destruct (on_block_delta_step id p v a W)
      as (st & h' & st' & Ho & Heq & S & ->).
    destruct (wt_open _ T1 id st Ho) as [Hwt Hinj].
    destruct (applyBlockDelta_well_typed p v (heap a) st)
      as (h2 & st2 & Heq2 & Hwt2 & Hinj2).
    { by apply (wf_typed _ W1 id). }
    { intros l Hl. rewrite <-(ensure_block_heap a id).
      apply (wf_owned_alloc _ W1). by exists id, st. }
    { done. }
    { by rewrite <-(ensure_block_heap a id). }
    rewrite Heq in Heq2. injection Heq2 as <- <-. simpl.
    assert (Hframe : ∀ l, l < length (heap a) → ¬ owns st l → h' !! l = heap a !! l).
    { apply (step_frame _ _ _ _ S). }
    split; simpl.
    + intros id2 st2 [[-> ->]|[Hne Ho2]]%open_in_move_block; [done|].
      destruct (wt_open _ T1 id2 st2 Ho2) as [Hwt' Hinj'].
      rewrite ensure_block_heap in Hwt'. split; [|done].
      apply (well_typed_data_frame (heap a)); [done|].
      intros q l Hl. apply Hframe.
      * rewrite <-(ensure_block_heap a id).
        apply (wf_owned_alloc _ W1). exists id2, st2. split; [done|]. by exists q.
      * intros Hown. destruct Hne.
        apply (wf_owner _ W1 id2 st2 id st l); [done..| |done]. by exists q.
    + intros c Hc. rewrite ensure_block_completed in Hc.
      apply (well_typed_data_frame (heap a)); [by apply (wt_completed a T)|].
      intros q l Hl. assert (held c l) as Hh by by exists q.
      apply Hframe; [by apply (wf_held_alloc a W c)|].
      intros Hown. apply (wf_held_frozen a W c l); [done..|].
      apply owned_ensure_block with id. by exists id, st.
  - unfold on_block_end.
    destruct (map_get (streamingBlocks a) id) as [st|] eqn:Hget; [|done].
    split; simpl.
    + intros id2 st2 Ho. apply open_in_delete in Ho as [_ Ho]; [|apply W].
      by apply (wt_open a T id2).
    + intros c [Hc|Hc%list_elem_of_singleton]%elem_of_app.
      * by apply (wt_completed a T).
      * subst c. apply (well_typed_data_closed (heap a)
          {| block_id := block_id st; block_type := block_type st;
             data := data st; streaming := false;
             partial := default false pa |}).
        by apply (wt_open a T id st).
Qed.

Lemma reachable_well_typed a : reachable a → well_typed a.
Proof.
  induction 1 as [|a e R IH]; [apply well_typed_initial|].
  apply well_typed_assemble; [by apply reachable_wf|done].
Qed.

(** Every block of a snapshot of a reachable state has the shapes that
    [blocksToTextFallback] reads. *)
Lemma snapshot_well_typed a b :
  reachable a →
  b ∈ buildBlocksFromState (completedBlocks a) (streamingBlocks a) →
  well_typed_data (heap a) (ContentBlock.data b).
Proof.
  intros R. pose proof (reachable_well_typed a R) as T.
  pose proof (reachable_wf a R) as W.
  intros [Hb|(st & -> & Hst)%list_elem_of_fmap]%elem_of_app.
  - by apply (wt_completed a T).
  - apply well_typed_data_closed.
    unfold map_values in Hst. apply list_elem_of_fmap in Hst as ([id st'] & -> & Hin).
    apply (wt_open a T id). by apply map_get_elem; [apply W|].
Qed.

(** *** Concrete runs of the assembler *)

Definition table_state : Assembler :=
  assemble_all initial
    [block_start "t" (Some "table"); block_delta "t" "headers" "a | b";
     block_delta "t" "rows" "1|2"].

Example table_state_heap :
  heap table_state = [[JStr "a"; JStr "b"]; [JRef 2]; [JStr "1"; JStr "2"]].
Proof. reflexivity. Qed.

Lemma applyBlockDelta_merge_rules_witness :
  ∃ st h' st',
    open_in table_state "t" st
    ∧ applyBlockDelta "rows" " 3 | 4" (heap table_state, st) = (inr tt, (h', st'))
    ∧ ∃ arr row,
        data st' !! "rows" = Some (JRef arr)
        ∧ h' !! arr = Some (array_at (heap table_state) (data st) "rows" ++ [JRef row])
        ∧ h' !! row = Some [JStr "3"; JStr "4"].
Proof.
  assert (R : reachable table_state) by apply reachable_all, reachable_initial.
  destruct (map_get (streamingBlocks table_state) "t") as [st|] eqn:Ho;
    [|by vm_compute in Ho].
  destruct (applyBlockDelta_merge_rules table_state "t" st "rows" " 3 | 4" R Ho)
    as (h' & st' & Heq & _ & _ & Hacc & _).
  destruct (Hacc eq_refl) as (arr & Harr & row & H1 & H2).
  exists st, h', st'. split_and!; [done..|]. by exists arr, row.
Defined.

Definition list_closed : Assembler :=
  assemble_all initial
    [block_start "b1" (Some "list"); block_delta "b1" "items" "x";
     block_end "b1" None].

Definition list_block : ContentBlock :=
  ContentBlock.mk "list" {[ "id" := JStr "b1"; "items" := JRef 0 ]}.

Lemma completed_blocks_frozen_witness :
  view 2 (heap (assemble_all list_closed
                  [block_delta "b1" "items" "y"; block_start "b1" (Some "list");
                   block_delta "b1" "items" "z"])) list_block
  = ("list", {[ "id" := TStr "b1"; "items" := TArr [TStr "x"] ]}).
Proof.
  assert (R : reachable list_closed) by apply reachable_all, reachable_initial.
  destruct (completed_blocks_frozen list_closed R) as [H _].
  destruct (H [block_delta "b1" "items" "y"; block_start "b1" (Some "list");
               block_delta "b1" "items" "z"]) as [_ Hv].
  rewrite Hv; [by vm_compute|].
  assert (completedBlocks list_closed = [list_block]) as -> by by vm_compute.
  left.
Defined.

Lemma text_deltas_concatenate_witness :
  ∃ before after c,
    completedBlocks (assemble_all initial
      [block_start "b1" (Some "text"); block_delta "b1" "content" "Hi ";
       block_start "b2" (Some "code"); block_delta "b1" "content" "there";
       block_end "b2" None; block_end "b1" (Some false)])
    = completedBlocks initial ++ before ++ [c] ++ after
    ∧ ContentBlock.type c = "text"
    ∧ ContentBlock.data c !! "content" = Some (JStr "Hi there").
Proof.
  destruct (proj1 text_deltas_concatenate initial
    [block_start "b1" (Some "text"); block_delta "b1" "content" "Hi ";
     block_start "b2" (Some "code"); block_delta "b1" "content" "there";
     block_end "b2" None; block_end "b1" (Some false)]
    "b1" (Some (Some "text")) "content" "Hi " ["there"] (Some false))
    as (before & after & c & H1 & H2 & _ & H3); [done..|].
  by exists before, after, c.
Defined.

(** A text block that no [block_start] announces: its first delta creates
    it. *)
Example text_block_without_start :
  completedBlocks (assemble_all initial
    [block_delta "b1" "content" "Hi "; block_delta "b1" "content" "there";
     block_end "b1" None])
  = [ContentBlock.mk "text" {[ "id" := JStr "b1"; "content" := JStr "Hi there" ]}].
Proof. by vm_compute. Qed.

Lemma proto_delta_dropped_witness :
  applyBlockDelta "__proto__" "x"
    (heap (assemble initial (block_start "b1" (Some "text"))), fresh_block "b1" "text")
  = (inr tt, (heap (assemble initial (block_start "b1" (Some "text"))),
              fresh_block "b1" "text"))
  ∧ open_in (assemble (assemble initial (block_start "b1" (Some "text")))
               (block_delta "b1" "__proto__" "x")) "b1" (fresh_block "b1" "text").
Proof.
  destruct (proto_delta_dropped (assemble initial (block_start "b1" (Some "text")))
              "b1" (fresh_block "b1" "text") "x")
    as (_ & _ & H1 & _ & H2 & _).
  - apply reachable_step, reachable_initial.
  - reflexivity.
  - by split.
Defined.

(** The run behind C2: the deltas to [__proto__] leave no trace in the
    completed block. *)
Example proto_deltas_leave_no_trace :
  completedBlocks (assemble_all initial
    [block_start "b1" (Some "text"); block_delta "b1" "__proto__" "x";
     block_delta "b1" "__proto__" "y"; block_end "b1" None])
  = [ContentBlock.mk "text" {[ "id" := JStr "b1" ]}].
Proof. by vm_compute. Qed.

(** C1, where the claim fails: a block declared as [future_kind], a type
    outside the known ones, is completed with type [future_kind], not
    [unknown], and its data is just the id: nothing wraps the original tag. *)
Lemma unknown_type_not_normalized :
  ∃ c,
    completedBlocks (assemble_all initial
      [block_start "b2" (Some "future_kind"); block_end "b2" None]) = [c]
    ∧ ("future_kind" ∉ known_block_types)
    ∧ ContentBlock.type c = "future_kind"
    ∧ ContentBlock.type c ≠ "unknown"
    ∧ ContentBlock.data c = {[ "id" := JStr "b2" ]}.
Proof.
  eexists. split; [by vm_compute|]. split_and!; try done.
  unfold known_block_types. rewrite !not_elem_of_cons. split_and!; try done.
  apply not_elem_of_nil.
Qed.

Lemma declared_type_kept_witness :
  ∃ st,
    open_in (assemble_all (assemble initial (block_start "b2" (Some "future_kind")))
               [block_delta "b2" "content" "x"]) "b2" st
    ∧ block_type st = "future_kind"
    ∧ completedBlocks
        (assemble
           (assemble_all (assemble initial (block_start "b2" (Some "future_kind")))
              [block_delta "b2" "content" "x"])
           (block_end "b2" None))
      = [ContentBlock.mk "future_kind" (data st ∪ {[ "id" := JStr "b2" ]})].
Proof.
  destruct (declared_type_kept initial "b2" (Some "future_kind")
              [block_delta "b2" "content" "x"] None reachable_initial)
    as [(st & H1 & H2 & H3) _].
  { intros e ->%list_elem_of_singleton _. by eexists _, _. }
  exists st. split_and!; [done..|]. by rewrite H3.
Defined.

(** C4, where the claim fails: a [block_end] for a block id that no
    [block_start] has announced is processed without any block being made
    for it; the state stays the initial one. *)
Lemma block_end_unseen_ignored :
  started_before "ghost" [] = false
  ∧ assemble_all initial [block_end "ghost" None] = initial
  ∧ map_get (streamingBlocks (assemble_all initial [block_end "ghost" None])) "ghost"
    = None
  ∧ completedBlocks (assemble_all initial [block_end "ghost" None]) = [].
Proof. done. Qed.

Lemma events_on_unseen_block_witness :
  assemble initial (block_end "ghost" (Some true)) = initial
  ∧ ∃ st, open_in (assemble initial (block_delta "ghost" "content" "x")) "ghost" st
          ∧ block_type st = "text" ∧ block_id st = "ghost".
Proof.
  destruct (events_on_unseen_block initial "ghost" eq_refl) as (He & Hd & _).
  split; [apply He|].
  destruct (Hd "content" "x") as (r & h & st & _ & Ho & _ & Hty & Hid).
  by exists st.
Defined.

End Hook.

(** ** [examples/frontend/useStreamingQuery.ts]: the read loop of [streamQuery]

    The loop is a state machine over what the environment does while the
    hook awaits: the reader delivers a chunk, ends or fails, an animation
    frame comes, time passes, or the user stops the stream.  The state is the
    set of local variables of [streamQuery] and the refs of the hook; the
    calls of the callbacks are logged in order.

    A chunk is given by the events of the [data: ] lines it completes, in
    order, as the handler reads them after [JSON.parse]; a line that is not a
    [data: ] line, that fails to parse, or whose [type] the dispatch does not
    know is skipped by the source and is not listed.  The model starts when
    the reader has been obtained. *)

Module StreamQuery.
Import JsString Hook.

(** A JavaScript number, which the hook only stores and passes on. *)
Definition number : Type := Z.

Module Citation.
Record t := mk { citation_number : nat; content : string; score : option number }.
End Citation.

(** A citation as it arrives: [citation_number] and [content] may be absent. *)
Module RawCitation.
Record t := mk { citation_number : option nat; content : option string;
                 score : option number }.
End RawCitation.

(** [Partial<Message>]: the fields an update carries.  [blocks] may be
    present with the value [undefined]. *)
Module Update.
Record t := mk {
  content : option string;
  blocks : option (option (list ContentBlock));
  citations : option (list Citation.t);
  streaming : option bool;
  confidence : option number
}.
End Update.

Inductive Output :=
| onMessageUpdate (u : Update.t)
| onError (message : string)
| onConversationIdChange (id : string)
| onUserMessageId (id : string)
| onAssistantMessageId (id : string)
| setConfidence (c : number)
| reader_cancel.

(** The events the dispatch knows, by [data.type].  A field is [None] when it
    is missing or fails the test the handler makes on it ([typeof x ===
    'string'], [Array.isArray], [typeof x === 'number']); a field the
    handler defaults with [||] or [??] is optional as well. *)
Inductive Event :=
| conversation_id (id : option string)
| user_message_id (id : option string)
| start
| progress (message : option string)
| block (e : BlockEvent)
| response (data : option string)
| citations (data : option (list RawCitation.t))
| confidence_update (confidence_score : option number)
| done (assistant_message_id : option string) (confidence_score : option number)
| error (error data message : option string).

(** What the environment does while the hook awaits. *)
Inductive Input :=
| chunk (events : list Event)
| end_of_stream
| read_error (errorMessage : string)
| frame
| elapse (ms : N)
| stop.

Definition STREAM_TIMEOUT : N := 60000.

(** The variables of one call of [streamQuery] and the refs of the hook:
    [asm] holds [streamingBlocks] and [completedBlocks] with the arrays they
    reach; [citations_] is the variable [citations]; [timeoutRef] is the time
    at which the armed timer fires; [now] is the time since the timer was
    set, in milliseconds; [reading] tells that the loop awaits
    [reader.read()]; [out] logs the calls made so far, oldest first. *)
Record Loop := {
  asm : Assembler;
  fullResponse : string;
  citations_ : list Citation.t;
  receivedDoneEvent : bool;
  pendingUpdate : bool;
  timeoutRef : option N;
  stopStreamingRef : bool;
  confidence : number;
  now : N;
  reading : bool;
  out : list Output
}.

(** The state when the reader has been obtained and the timer set; [c] is
    the confidence the closure has captured. *)
Definition init (c : number) : Loop :=
  {| asm := initial; fullResponse := ""; citations_ := [];
     receivedDoneEvent := false; pendingUpdate := false;
     timeoutRef := Some STREAM_TIMEOUT; stopStreamingRef := false;
     confidence := c; now := 0; reading := true; out := [] |}.

Definition set_asm (a : Assembler) (s : Loop) : Loop :=
  {| asm := a; fullResponse := fullResponse s; citations_ := citations_ s;
     receivedDoneEvent := receivedDoneEvent s; pendingUpdate := pendingUpdate s;
     timeoutRef := timeoutRef s; stopStreamingRef := stopStreamingRef s;
     confidence := confidence s; now := now s; reading := reading s; out := out s |}.

Definition set_fullResponse (r : string) (s : Loop) : Loop :=
  {| asm := asm s; fullResponse := r; citations_ := citations_ s;
     receivedDoneEvent := receivedDoneEvent s; pendingUpdate := pendingUpdate s;
     timeoutRef := timeoutRef s; stopStreamingRef := stopStreamingRef s;
     confidence := confidence s; now := now s; reading := reading s; out := out s |}.

Definition set_citations (c : list Citation.t) (s : Loop) : Loop :=
  {| asm := asm s; fullResponse := fullResponse s; citations_ := c;
     receivedDoneEvent := receivedDoneEvent s; pendingUpdate := pendingUpdate s;
     timeoutRef := timeoutRef s; stopStreamingRef := stopStreamingRef s;
     confidence := confidence s; now := now s; reading := reading s; out := out s |}.

Definition set_receivedDoneEvent (b : bool) (s : Loop) : Loop :=
  {| asm := asm s; fullResponse := fullResponse s; citations_ := citations_ s;
     receivedDoneEvent := b; pendingUpdate := pendingUpdate s;
     timeoutRef := timeoutRef s; stopStreamingRef := stopStreamingRef s;
     confidence := confidence s; now := now s; reading := reading s; out := out s |}.

Definition set_pendingUpdate (b : bool) (s : Loop) : Loop :=
  {| asm := asm s; fullResponse := fullResponse s; citations_ := citations_ s;
     receivedDoneEvent := receivedDoneEvent s; pendingUpdate := b;
     timeoutRef := timeoutRef s; stopStreamingRef := stopStreamingRef s;
     confidence := confidence s; now := now s; reading := reading s; out := out s |}.

Definition set_timeoutRef (t : option N) (s : Loop) : Loop :=
  {| asm := asm s; fullResponse := fullResponse s; citations_ := citations_ s;
     receivedDoneEvent := receivedDoneEvent s; pendingUpdate := pendingUpdate s;
     timeoutRef := t; stopStreamingRef := stopStreamingRef s;
     confidence := confidence s; now := now s; reading := reading s; out := out s |}.

Definition set_stopStreamingRef (b : bool) (s : Loop) : Loop :=
  {| asm := asm s; fullResponse := fullResponse s; citations_ := citations_ s;
     receivedDoneEvent := receivedDoneEvent s; pendingUpdate := pendingUpdate s;
     timeoutRef := timeoutRef s; stopStreamingRef := b;
     confidence := confidence s; now := now s; reading := reading s; out := out s |}.

Definition set_now (t : N) (s : Loop) : Loop :=
  {| asm := asm s; fullResponse := fullResponse s; citations_ := citations_ s;
     receivedDoneEvent := receivedDoneEvent s; pendingUpdate := pendingUpdate s;
     timeoutRef := timeoutRef s; stopStreamingRef := stopStreamingRef s;
     confidence := confidence s; now := t; reading := reading s; out := out s |}.

Definition set_reading (b : bool) (s : Loop) : Loop :=
  {| asm := asm s; fullResponse := fullResponse s; citations_ := citations_ s;
     receivedDoneEvent := receivedDoneEvent s; pendingUpdate := pendingUpdate s;
     timeoutRef := timeoutRef s; stopStreamingRef := stopStreamingRef s;
     confidence := confidence s; now := now s; reading := b; out := out s |}.

(** A call of a callback, logged after the earlier ones. *)
Definition emit (o : Output) (s : Loop) : Loop :=
  {| asm := asm s; fullResponse := fullResponse s; citations_ := citations_ s;
     receivedDoneEvent := receivedDoneEvent s; pendingUpdate := pendingUpdate s;
     timeoutRef := timeoutRef s; stopStreamingRef := stopStreamingRef s;
     confidence := confidence s; now := now s; reading := reading s;
     out := out s ++ [o] |}.

(** *** [blocksToTextFallback] *)

Definition nl : string := String "010"%char "".

(** [(data.f as string) || '']: absent reads as the empty string.  The
    paths read this way are text paths, and a text path holds a string
    whenever it is set ([Hook.snapshot_well_typed]). *)
Definition as_string (v : option jsval) : string :=
  match v with
  | Some (JStr s) => s
  | _ => ""
  end.

(** [(data.f as string[]) || []]: the elements of the array, absent reads as
    no elements.  The arrays read this way, under [items], [steps] and
    [headers], hold strings only ([Hook.snapshot_well_typed]). *)
Definition as_strings (h : Heap) (v : option jsval) : list string :=
  match v with
  | Some (JRef l) => (λ e, as_string (Some e)) <$> default [] (h !! l)
  | _ => []
  end.

Definition block_text (h : Heap) (block : ContentBlock) : string :=
  let data := ContentBlock.data block in
  let type := ContentBlock.type block in
  if String.eqb type "text" || String.eqb type "markdown" then
    as_string (data !! "content")
  else if String.eqb type "list" then
    join nl (as_strings h (data !! "items"))
  else if String.eqb type "steps" then
    join nl (imap (λ i s, pretty (i + 1) +:+ ". " +:+ s)
               (as_strings h (data !! "steps")))
  else if String.eqb type "table" then
    "[Table: " +:+ join ", " (as_strings h (data !! "headers")) +:+ "]"
  else if String.eqb type "code" then
    "```" +:+ as_string (data !! "language") +:+ nl
      +:+ as_string (data !! "code") +:+ "```"
  else "".

(** [blocks.map(...).filter(Boolean).join('\n\n')] *)
Definition blocksToTextFallback (h : Heap) (blocks : list ContentBlock) : string :=
  join (nl +:+ nl) (filter (λ t, falsy t = false) (block_text h <$> blocks)).

Global Arguments blocksToTextFallback : simpl never.

(** *** The closures of [streamQuery] *)

(** [rafId] is non-null exactly while [pendingUpdate] is set: the two are
    written together in [scheduleUpdate], in the frame callback and in
    [cancelScheduledUpdate]. *)
Definition scheduleUpdate (s : Loop) : Loop :=
  if pendingUpdate s then s else set_pendingUpdate true s.

Definition cancelScheduledUpdate (s : Loop) : Loop := set_pendingUpdate false s.

Definition currentBlocks (s : Loop) : list ContentBlock :=
  buildBlocksFromState (completedBlocks (asm s)) (streamingBlocks (asm s)).

(** The callback given to [requestAnimationFrame]. *)
Definition frame_callback (s : Loop) : Loop :=
  let s := set_pendingUpdate false s in
  let blocks := currentBlocks s in
  let s := set_fullResponse (blocksToTextFallback (heap (asm s)) blocks) s in
  emit (onMessageUpdate
          (Update.mk (Some (fullResponse s)) (Some (Some blocks)) None (Some true) None)) s.

Definition timeoutMsg : string :=
  "The server did not respond in time. Please try again.".

(** The callback given to [setTimeout]. *)
Definition timeout_callback (s : Loop) : Loop :=
  if stopStreamingRef s then s
  else
    let s := emit reader_cancel s in
    let s := emit (onMessageUpdate
                     (Update.mk (Some timeoutMsg) None None (Some false) None)) s in
    let s := emit (onError timeoutMsg) s in
    set_stopStreamingRef true s.

(** [if (timeoutRef.current) { clearTimeout(...); timeoutRef.current = null }] *)
Definition clear_timeout (s : Loop) : Loop := set_timeoutRef None s.

(** *** The dispatch on [data.type] *)

(** [a || b || ... || d] over optional strings. *)
Fixpoint first_truthy (xs : list (option string)) (d : string) : string :=
  match xs with
  | [] => d
  | Some x :: xs' => if falsy x then first_truthy xs' d else x
  | None :: xs' => first_truthy xs' d
  end.

Global Arguments first_truthy : simpl never.

Definition to_citation (idx : nat) (cit : RawCitation.t) : Citation.t :=
  Citation.mk (default (idx + 1) (RawCitation.citation_number cit))
    (or_default (RawCitation.content cit) "")
    (RawCitation.score cit).

(** [finalBlocks.length > 0 ? finalBlocks : undefined] *)
Definition blocks_or_undefined (bs : list ContentBlock) : option (list ContentBlock) :=
  match bs with [] => None | _ => Some bs end.

Definition process_event (s : Loop) (e : Event) : Loop :=
  match e with
  | conversation_id id =>
      match id with
      | Some i => if falsy i then s else emit (onConversationIdChange i) s
      | None => s
      end
  | user_message_id id =>
      match id with
      | Some i => if falsy i then s else emit (onUserMessageId i) s
      | None => s
      end
  | start =>
      emit (onMessageUpdate
              (Update.mk (Some "Retrieving relevant documents...") None None
                 (Some true) None)) s
  | progress message =>
      let progressMessage := or_default message "Processing..." in
      if falsy (fullResponse s) then
        emit (onMessageUpdate
                (Update.mk (Some progressMessage) None None (Some true) None)) s
      else s
  | block (block_start blockId blockType) =>
      scheduleUpdate (set_asm (on_block_start blockId blockType (asm s)) s)
  | block (block_delta blockId path value) =>
      let '(r, a) := on_block_delta blockId path value (asm s) in
      match r with
      | inr _ => scheduleUpdate (set_asm a s)
      | inl _ => set_asm a s
      end
  | block (block_end blockId partial) =>
      let '(was_open, a) := on_block_end blockId partial (asm s) in
      if was_open then scheduleUpdate (set_asm a s) else set_asm a s
  | response data =>
      match data with
      | Some d =>
          let s := set_fullResponse d s in
          emit (onMessageUpdate
                  (Update.mk (Some (fullResponse s)) None None (Some true) None)) s
      | None => s
      end
  | citations data =>
      match data with
      | Some raw =>
          let s := set_citations (imap to_citation raw) s in
          emit (onMessageUpdate
                  (Update.mk None None (Some (citations_ s)) (Some true) None)) s
      | None => s
      end
  | confidence_update score =>
      match score with
      | Some c => emit (setConfidence c) s
      | None => s
      end
  | done assistant_message_id confidence_score =>
      let s := set_receivedDoneEvent true s in
      let s := cancelScheduledUpdate s in
      let s := clear_timeout s in
      let finalBlocks := currentBlocks s in
      let finalContent :=
        first_truthy [Some (blocksToTextFallback (heap (asm s)) finalBlocks);
                      Some (fullResponse s)] "No response received." in
      let s :=
        match assistant_message_id with
        | Some i => if falsy i then s else emit (onAssistantMessageId i) s
        | None => s
        end in
      let finalConfidence := default (confidence s) confidence_score in
      let s := emit (setConfidence finalConfidence) s in
      let s := emit (onMessageUpdate
                       (Update.mk (Some finalContent)
                          (Some (blocks_or_undefined finalBlocks))
                          (Some (citations_ s)) (Some false)
                          (Some finalConfidence))) s in
      set_stopStreamingRef true s
  | error e d m =>
      let s := cancelScheduledUpdate s in
      let errorMessage := first_truthy [e; d; m] "Stream error occurred" in
      let s := emit (onMessageUpdate
                       (Update.mk (Some (first_truthy [Some (fullResponse s)] errorMessage))
                          None None (Some false) None)) s in
      let s := emit (onError errorMessage) s in
      set_stopStreamingRef true s
  end.

(** [for (const line of lines) { if (stopStreamingRef.current) break; ... }] *)
Fixpoint process_events (s : Loop) (es : list Event) : Loop :=
  match es with
  | [] => s
  | e :: es' =>
      if stopStreamingRef s then s else process_events (process_event s e) es'
  end.

Definition unexpected_end_msg : string := "Response stream ended unexpectedly.".
Definition no_response_msg : string :=
  "No response received from the server. The stream ended without data.".

(** What follows the [while] loop, with the [finally] block. *)
Definition finish (s : Loop) : Loop :=
  let s := cancelScheduledUpdate s in
  let s :=
    if receivedDoneEvent s then s
    else
      let finalBlocks := currentBlocks s in
      if negb (falsy (fullResponse s))
         || negb (bool_decide (citations_ s = []))
         || negb (bool_decide (finalBlocks = [])) then
        let finalContent :=
          first_truthy [Some (blocksToTextFallback (heap (asm s)) finalBlocks);
                        Some (fullResponse s)] unexpected_end_msg in
        emit (onMessageUpdate
                (Update.mk (Some finalContent)
                   (Some (blocks_or_undefined finalBlocks))
                   (Some (citations_ s)) (Some false) None)) s
      else if negb (stopStreamingRef s) then
        let s := emit (onMessageUpdate
                         (Update.mk (Some no_response_msg) None None (Some false) None)) s in
        emit (onError no_response_msg) s
      else s in
  let s := clear_timeout s in
  set_reading false (set_stopStreamingRef false s).

(** The [catch] block with the [finally] block, for a rejected read;
    [errorMessage] is the message the block derives from the exception. *)
Definition catch (errorMessage : string) (s : Loop) : Loop :=
  let s := clear_timeout s in
  let s := emit (onError errorMessage) s in
  let s := emit (onMessageUpdate
                   (Update.mk (Some errorMessage) None None (Some false) None)) s in
  set_reading false (set_stopStreamingRef false s).

(** The head of the [while] loop after a chunk: stop and leave, or read on. *)
Definition loop_head (s : Loop) : Loop :=
  if stopStreamingRef s then finish (emit reader_cancel s) else s.

(** [if (timeoutRef.current && fullResponse === '' && value) { ... }] on a
    chunk, whose [value] is always truthy. *)
Definition begin_chunk (s : Loop) : Loop :=
  match timeoutRef s with
  | Some _ => if falsy (fullResponse s) then clear_timeout s else s
  | None => s
  end.

(** One move of the environment. *)
Definition step (s : Loop) (i : Input) : Loop :=
  match i with
  | chunk events =>
      if reading s then loop_head (process_events (begin_chunk s) events)
      else s
  | end_of_stream => if reading s then finish s else s
  | read_error errorMessage => if reading s then catch errorMessage s else s
  | frame => if pendingUpdate s then frame_callback s else s
  | elapse ms =>
      let s := set_now (now s + ms)%N s in
      match timeoutRef s with
      | Some deadline =>
          if (deadline <=? now s)%N then
            let fired := timeout_callback (set_timeoutRef None s) in
            if reading s && negb (stopStreamingRef s) then finish fired else fired
          else s
      | None => s
      end
  | stop =>
      if reading s then
        finish (clear_timeout (emit reader_cancel (set_stopStreamingRef true s)))
      else clear_timeout s
  end.

Definition run (s : Loop) (ins : list Input) : Loop := foldl step s ins.

(** The states of the loop for a captured confidence [c]. *)
Inductive reachable (c : number) : Loop → Prop :=
| reachable_init : reachable c (init c)
| reachable_step s i : reachable c s → reachable c (step s i).

(** *** Reading the log *)

Definition update_of (o : Output) : option Update.t :=
  match o with
  | onMessageUpdate u => Some u
  | _ => None
  end.

(** The updates delivered to [onMessageUpdate], oldest first. *)
Definition updates (log : list Output) : list Update.t := omap update_of log.

Definition is_final (u : Update.t) : bool :=
  bool_decide (Update.streaming u = Some false).

(** No update with [streaming: false] has been delivered. *)
Definition no_final (log : list Output) : Prop :=
  Forall (λ u, is_final u = false) (updates log).

(** The last update delivered is the one update with [streaming: false]. *)
Definition one_final_last (log : list Output) : Prop :=
  ∃ us u, updates log = us ++ [u]
          ∧ is_final u = true ∧ Forall (λ u', is_final u' = false) us.

(** [{ ...prev, ...updates }]: the message state a consumer keeps. *)
Definition merge (prev u : Update.t) : Update.t :=
  Update.mk
    (match Update.content u with Some x => Some x | None => Update.content prev end)
    (match Update.blocks u with Some x => Some x | None => Update.blocks prev end)
    (match Update.citations u with Some x => Some x | None => Update.citations prev end)
    (match Update.streaming u with Some x => Some x | None => Update.streaming prev end)
    (match Update.confidence u with Some x => Some x | None => Update.confidence prev end).

Definition message (log : list Output) : Update.t :=
  foldl merge (Update.mk None None None None None) (updates log).

(** The stream has received something: the test of the final snapshot. *)
Definition has_content (s : Loop) : bool :=
  negb (falsy (fullResponse s))
  || negb (bool_decide (citations_ s = []))
  || negb (bool_decide (currentBlocks s = [])).

(** Neither [done] nor [error]. *)
Definition non_terminal (e : Event) : Prop :=
  match e with
  | done _ _ | error _ _ _ => False
  | _ => True
  end.

(** The loop has left through [finish]: nothing is scheduled or armed. *)
Definition quiet (s : Loop) : Prop :=
  reading s = false ∧ pendingUpdate s = false ∧ timeoutRef s = None.

(** Mid-chunk: not stopped, no [done] seen, no final update delivered. *)
Definition calm (s : Loop) : Prop :=
  stopStreamingRef s = false ∧ receivedDoneEvent s = false ∧ no_final (out s).

Lemma updates_app l1 l2 : updates (l1 ++ l2) = updates l1 ++ updates l2.
Proof. apply omap_app. Qed.

Lemma no_final_app l1 l2 : no_final (l1 ++ l2) ↔ no_final l1 ∧ no_final l2.
Proof. unfold no_final. rewrite updates_app. apply Forall_app. Qed.

Lemma no_final_nil : no_final [].
Proof. apply Forall_nil_2. Qed.

Lemma no_final_not_update o : update_of o = None → no_final [o].
Proof. intros H. unfold no_final, updates. simpl. rewrite H. apply Forall_nil_2. Qed.

Lemma no_final_streaming u :
  is_final u = false → no_final [onMessageUpdate u].
Proof. intros H. unfold no_final. simpl. by apply Forall_singleton. Qed.

Lemma one_final_last_snoc log u :
  no_final log → is_final u = true → one_final_last (log ++ [onMessageUpdate u]).
Proof.
  intros Hn Hu. exists (updates log), u. by rewrite updates_app.
Qed.

Lemma one_final_last_quiet_snoc log o :
  update_of o = None → one_final_last log → one_final_last (log ++ [o]).
Proof.
  intros Ho (us & u & Hus & ? & ?). exists us, u.
  rewrite updates_app. unfold updates at 2. simpl. rewrite Ho.
  by rewrite app_nil_r.
Qed.

Lemma quiet_step s i :
  quiet s →
  quiet (step s i) ∧ out (step s i) = out s ∧ asm (step s i) = asm s.
Proof.
  intros (Hr & Hp & Ht). destruct i; simpl; rewrite ?Hr, ?Hp, ?Ht; done.
Qed.

Lemma quiet_run s ins :
  quiet s → quiet (run s ins) ∧ out (run s ins) = out s ∧ asm (run s ins) = asm s.
Proof.
  revert s. induction ins as [|i ins IH]; intros s Hq; [done|]. simpl.
  destruct (quiet_step s i Hq) as (Hq' & <- & <-). by apply IH.
Qed.

(** *** What the handlers keep *)

Ltac loop_cases :=
  unfold scheduleUpdate, cancelScheduledUpdate, clear_timeout in *;
  repeat (case_match; simplify_eq/=); simpl in *.

Lemma process_event_fields s e :
  reading (process_event s e) = reading s
  ∧ now (process_event s e) = now s
  ∧ confidence (process_event s e) = confidence s
  ∧ (timeoutRef s = None → timeoutRef (process_event s e) = None)
  ∧ ∃ l, out (process_event s e) = out s ++ l.
Proof.
  destruct e as [?|?| |?|[]|?|?|?|? ?|? ? ?]; simpl; loop_cases;
    split_and!; try done;
    first [by exists []; rewrite app_nil_r
          | by eexists [_]
          | rewrite <-?app_assoc; by eexists ].
Qed.

Lemma process_events_stopped s es :
  stopStreamingRef s = true → process_events s es = s.
Proof. intros H. destruct es; simpl; by rewrite ?H. Qed.

Lemma process_events_fields s es :
  reading (process_events s es) = reading s
  ∧ now (process_events s es) = now s
  ∧ confidence (process_events s es) = confidence s
  ∧ (timeoutRef s = None → timeoutRef (process_events s es) = None)
  ∧ ∃ l, out (process_events s es) = out s ++ l.
Proof.
  revert s. induction es as [|e es IH]; intros s; simpl.
  { split_and!; try done. exists []. by rewrite app_nil_r. }
  destruct (stopStreamingRef s).
  { split_and!; try done. exists []. by rewrite app_nil_r. }
  destruct (process_event_fields s e) as (H1 & H2 & H3 & H4 & l1 & H5).
  destruct (IH (process_event s e)) as (I1 & I2 & I3 & I4 & l2 & I5).
  rewrite I1, I2, I3, I5, H1, H2, H3, H5. split_and!; try done.
  - intros Ht. by apply I4, H4.
  - exists (l1 ++ l2). by rewrite app_assoc.
Qed.

Lemma process_event_calm s e :
  non_terminal e → calm s → calm (process_event s e).
Proof.
  intros He (Hs & Hd & Hn). unfold calm.
  destruct e as [?|?| |?|[]|?|?|?|? ?|? ? ?]; try done; simpl; loop_cases;
    split_and!; try done;
    apply no_final_app; (split; [done|]);
    first [by apply no_final_not_update | by apply no_final_streaming].
Qed.

Lemma process_events_calm s es :
  Forall non_terminal es → calm s → calm (process_events s es).
Proof.
  revert s. induction es as [|e es IH]; intros s Hes Hc; [done|].
  apply Forall_cons in Hes as [He Hes]. simpl.
  destruct Hc as (Hs & Hc). rewrite Hs.
  apply IH; [done|]. by apply process_event_calm.
Qed.

Lemma process_events_app s pre es :
  Forall non_terminal pre → calm s →
  process_events s (pre ++ es) = process_events (process_events s pre) es.
Proof.
  revert s. induction pre as [|e pre IH]; intros s Hpre Hc; [done|].
  apply Forall_cons in Hpre as [He Hpre]. simpl.
  destruct Hc as (Hs & Hc). rewrite Hs.
  apply IH; [done|]. by apply process_event_calm.
Qed.

(** A chunk that leaves the loop running has met no [done] and no [error]. *)
Lemma process_events_running s es :
  calm s → stopStreamingRef (process_events s es) = false →
  calm (process_events s es).
Proof.
  revert s. induction es as [|e es IH]; intros s Hc Hrun; [done|].
  simpl in *. destruct Hc as (Hs & Hc). rewrite Hs in *.
  assert (non_terminal e ∨ stopStreamingRef (process_event s e) = true) as [He|Hst].
  { destruct e; simpl; auto. }
  - apply IH; [|done]. by apply process_event_calm.
  - by rewrite process_events_stopped, Hst in Hrun.
Qed.

(** *** Leaving the loop *)

(** The snapshot [finish] delivers when something has been received. *)
Definition final_snapshot (s : Loop) : Update.t :=
  Update.mk
    (Some (first_truthy [Some (blocksToTextFallback (heap (asm s)) (currentBlocks s));
                         Some (fullResponse s)] unexpected_end_msg))
    (Some (blocks_or_undefined (currentBlocks s)))
    (Some (citations_ s)) (Some false) None.

Definition no_response_update : Update.t :=
  Update.mk (Some no_response_msg) None None (Some false) None.

Lemma finish_quiet s : quiet (finish s).
Proof. unfold finish, quiet. by loop_cases. Qed.

Lemma finish_out s :
  out (finish s)
  = out s ++
    if receivedDoneEvent s then []
    else if has_content s then [onMessageUpdate (final_snapshot s)]
    else if stopStreamingRef s then []
    else [onMessageUpdate no_response_update; onError no_response_msg].
Proof.
  unfold finish, has_content, final_snapshot, currentBlocks.
  loop_cases; rewrite <-?app_assoc, ?app_nil_r; done.
Qed.

Lemma finish_fields s :
  asm (finish s) = asm s ∧ fullResponse (finish s) = fullResponse s
  ∧ now (finish s) = now s ∧ confidence (finish s) = confidence s.
Proof. unfold finish. by loop_cases. Qed.

Lemma catch_out msg s :
  out (catch msg s)
  = out s ++ [onError msg;
              onMessageUpdate (Update.mk (Some msg) None None (Some false) None)].
Proof. unfold catch. simpl. by rewrite <-app_assoc. Qed.

(** The update of the [done] handler. *)
Definition done_update (s : Loop) (confidence_score : option number) : Update.t :=
  Update.mk
    (Some (first_truthy [Some (blocksToTextFallback (heap (asm s)) (currentBlocks s));
                         Some (fullResponse s)] "No response received."))
    (Some (blocks_or_undefined (currentBlocks s)))
    (Some (citations_ s)) (Some false)
    (Some (default (confidence s) confidence_score)).

Lemma process_event_done s mid score :
  let s' := process_event s (done mid score) in
  stopStreamingRef s' = true ∧ receivedDoneEvent s' = true
  ∧ pendingUpdate s' = false ∧ timeoutRef s' = None
  ∧ ∃ l, out s' = out s ++ l ++ [onMessageUpdate (done_update s score)]
         ∧ updates l = [].
Proof.
  simpl. unfold done_update, currentBlocks, cancelScheduledUpdate, clear_timeout.
  destruct mid as [i|]; [destruct (falsy i)|]; simpl; split_and!; try done.
  - eexists [_]. by rewrite <-!app_assoc.
  - eexists [_; _]. by rewrite <-!app_assoc.
  - eexists [_]. by rewrite <-!app_assoc.
Qed.

(** The update of the [error] handler. *)
Definition error_update (s : Loop) (errorMessage : string) : Update.t :=
  Update.mk (Some (if falsy (fullResponse s) then errorMessage else fullResponse s))
    None None (Some false) None.

Lemma process_event_error s e d m :
  let s' := process_event s (error e d m) in
  let msg := first_truthy [e; d; m] "Stream error occurred" in
  stopStreamingRef s' = true ∧ receivedDoneEvent s' = receivedDoneEvent s
  ∧ asm s' = asm s ∧ fullResponse s' = fullResponse s
  ∧ citations_ s' = citations_ s
  ∧ out s' = out s ++ [onMessageUpdate (error_update s msg); onError msg].
Proof.
  simpl. unfold error_update. split_and!; try done.
  rewrite <-app_assoc. unfold first_truthy at 1. simpl.
  by destruct (falsy (fullResponse s)).
Qed.

(** *** Invariants of the loop *)

(** The text in [fullResponse] has gone out as the content of a streaming
    update. *)
Definition delivered (s : Loop) : Prop :=
  fullResponse s = ""
  ∨ ∃ u, onMessageUpdate u ∈ out s
         ∧ Update.content u = Some (fullResponse s)
         ∧ Update.streaming u = Some true.

(** Nothing has happened yet but the passing of time. *)
Definition pristine (s : Loop) : Prop := s = set_now (now s) (init (confidence s)).

Record inv (s : Loop) : Prop := {
  inv_calm : reading s = true → calm s;
  inv_timer : ∀ d, timeoutRef s = Some d →
    d = STREAM_TIMEOUT ∧ (now s < STREAM_TIMEOUT)%N ∧ pristine s;
  inv_idle : reading s = false → timeoutRef s = None;
  inv_asm : Hook.reachable (asm s);
  inv_delivered : delivered s
}.

Lemma delivered_grows s s' :
  fullResponse s' = fullResponse s → (∃ l, out s' = out s ++ l) →
  delivered s → delivered s'.
Proof.
  intros Hf [l Hl] [H|(u & Hin & Hc & Hs)]; [left; congruence|right].
  exists u. rewrite Hf, Hl. split; [|done]. apply elem_of_app. by left.
Qed.

Lemma process_event_asm s e :
  asm (process_event s e) = asm s
  ∨ ∃ b, asm (process_event s e) = assemble (asm s) b.
Proof.
  destruct e as [?|?| |?|b|?|?|?|? ?|? ? ?];
    try (left; simpl; by loop_cases).
  right. exists b. destruct b; simpl; loop_cases; done.
Qed.

Lemma process_event_delivered s e : delivered s → delivered (process_event s e).
Proof.
  intros Hd.
  assert ((∃ d, e = response (Some d))
          ∨ fullResponse (process_event s e) = fullResponse s) as [[d ->]|Hsame].
  { destruct e as [?|?| |?|[]|[d|]|?|?|? ?|? ? ?]; simpl; loop_cases; eauto. }
  - right. simpl. eexists. split; [apply elem_of_app; right; left|done].
  - apply (delivered_grows s); [done|apply process_event_fields|done].
Qed.

Lemma process_events_inner s es :
  Hook.reachable (asm s) → delivered s →
  Hook.reachable (asm (process_events s es)) ∧ delivered (process_events s es).
Proof.
  revert s. induction es as [|e es IH]; intros s Ha Hd; [done|]. simpl.
  destruct (stopStreamingRef s); [done|]. apply IH.
  - destruct (process_event_asm s e) as [->|[b ->]]; [done|].
    by apply Hook.reachable_step.
  - by apply process_event_delivered.
Qed.

Lemma inv_init c : inv (init c).
Proof.
  split; simpl; try done.
  - intros _. split_and!; try done. apply no_final_nil.
  - by intros d [= <-].
  - apply Hook.reachable_initial.
  - by left.
Qed.

Lemma pristine_fields s :
  pristine s →
  asm s = initial ∧ fullResponse s = "" ∧ citations_ s = []
  ∧ receivedDoneEvent s = false ∧ pendingUpdate s = false
  ∧ stopStreamingRef s = false ∧ reading s = true ∧ out s = [].
Proof. intros ->. done. Qed.

Lemma inv_finish s :
  Hook.reachable (asm s) → delivered s → inv (finish s).
Proof.
  intros Ha Hd. destruct (finish_quiet s) as (Hr & _ & Ht).
  destruct (finish_fields s) as (Hasm & Hfull & _).
  split.
  - by rewrite Hr.
  - by rewrite Ht.
  - done.
  - by rewrite Hasm.
  - apply (delivered_grows s); [done| |done]. rewrite finish_out. by eexists.
Qed.

Lemma begin_chunk_fields s :
  asm (begin_chunk s) = asm s ∧ fullResponse (begin_chunk s) = fullResponse s
  ∧ out (begin_chunk s) = out s ∧ reading (begin_chunk s) = reading s
  ∧ stopStreamingRef (begin_chunk s) = stopStreamingRef s
  ∧ receivedDoneEvent (begin_chunk s) = receivedDoneEvent s
  ∧ citations_ (begin_chunk s) = citations_ s
  ∧ now (begin_chunk s) = now s ∧ confidence (begin_chunk s) = confidence s.
Proof. unfold begin_chunk. by loop_cases. Qed.

Lemma begin_chunk_timer s : inv s → timeoutRef (begin_chunk s) = None.
Proof.
  intros I. unfold begin_chunk.
  destruct (timeoutRef s) as [d|] eqn:Ht; [|done].
  destruct (inv_timer s I d Ht) as (_ & _ & Hp).
  apply pristine_fields in Hp as (_ & -> & _). done.
Qed.

Lemma begin_chunk_calm s : calm s → calm (begin_chunk s).
Proof.
  destruct (begin_chunk_fields s) as (_ & _ & Ho & _ & Hs & Hd & _).
  unfold calm. by rewrite Ho, Hs, Hd.
Qed.

Lemma inv_step s i : inv s → inv (step s i).
Proof.
  intros I. destruct i as [es| |msg| |ms|]; simpl.
  - (* chunk *)
    destruct (reading s) eqn:Hr; [|done].
    pose proof (inv_calm s I Hr) as Hc.
    destruct (begin_chunk_fields s) as (Ha & Hf & Ho & Hr' & _).
    assert (Hd0 : delivered (begin_chunk s)).
    { apply (delivered_grows s); [done| |apply I]. exists []. by rewrite app_nil_r. }
    destruct (process_events_inner (begin_chunk s) es) as [Hasm Hdel];
      [rewrite Ha; apply I|done|].
    destruct (process_events_fields (begin_chunk s) es) as (Hr2 & _ & _ & Ht2 & _).
    unfold loop_head.
    destruct (stopStreamingRef (process_events (begin_chunk s) es)) eqn:Hst.
    + apply inv_finish; [done|].
      apply (delivered_grows (process_events (begin_chunk s) es)); [done| |done].
      by eexists.
    + split; try done.
      * intros _. apply process_events_running; [|done]. by apply begin_chunk_calm.
      * rewrite Ht2; [done|]. by apply begin_chunk_timer.
      * by rewrite Hr2, Hr', Hr.
  - (* end of stream *)
    destruct (reading s); [|done]. apply inv_finish; apply I.
  - (* read error *)
    destruct (reading s); [|done]. split; simpl; try done.
    + apply I.
    + apply (delivered_grows s); [done| |apply I].
      rewrite catch_out. by eexists.
  - (* frame *)
    destruct (pendingUpdate s) eqn:Hp; [|done].
    unfold frame_callback. split; simpl.
    + intros Hr. destruct (inv_calm s I Hr) as (? & ? & ?).
      split_and!; [done..|]. apply no_final_app. split; [done|].
      by apply no_final_streaming.
    + intros d Ht. destruct (inv_timer s I d Ht) as (_ & _ & Hpr).
      apply pristine_fields in Hpr as (_ & _ & _ & _ & Hp' & _). congruence.
    + apply I.
    + apply I.
    + right. eexists. split; [apply elem_of_app; right; left|done].
  - (* elapse *)
    destruct (timeoutRef s) as [d|] eqn:Ht.
    + destruct (inv_timer s I d Ht) as (-> & Hlt & Hpr).
      pose proof (pristine_fields s Hpr) as (Ha & Hf & Hc & Hd & Hp & Hs & Hr & Ho).
      destruct (STREAM_TIMEOUT <=? now s + ms)%N eqn:Hfire.
      * rewrite Hr. unfold timeout_callback. simpl. rewrite Hs. simpl.
        apply inv_finish; simpl; [rewrite Ha; apply Hook.reachable_initial|].
        left. by simpl.
      * apply N.leb_gt in Hfire. split; simpl; try done.
        -- intros _. unfold calm. simpl. rewrite Hs, Hd, Ho.
           split_and!; try done. apply no_final_nil.
        -- intros d' Ht'. rewrite Ht in Ht'. injection Ht' as <-.
           split_and!; [done..|]. unfold pristine, set_now, init. simpl.
           by rewrite Ha, Hf, Hc, Hd, Hp, Ht, Hs, Hr, Ho.
        -- rewrite Hr. done.
        -- apply I.
        -- left. done.
    + split; simpl; try done.
      * intros Hr. destruct (inv_calm s I Hr) as (? & ? & ?). done.
      * by rewrite Ht.
      * apply I.
      * apply I.
  - (* stop *)
    destruct (reading s) eqn:Hr.
    + apply inv_finish; simpl; [apply I|].
      apply (delivered_grows s); [done| |apply I]. simpl. by eexists.
    + split; simpl; try done.
      * by rewrite Hr.
      * apply I.
      * apply I.
Qed.

Lemma reachable_inv c s : reachable c s → inv s.
Proof. induction 1; [apply inv_init|by apply inv_step]. Qed.

Lemma reachable_run c s ins : reachable c s → reachable c (run s ins).
Proof.
  revert s. induction ins as [|i ins IH]; intros s Hs; [done|].
  simpl. by apply IH, reachable_step.
Qed.

(** *** The timer *)

Definition timeout_update : Update.t :=
  Update.mk (Some timeoutMsg) None None (Some false) None.

(** The log of a stream that timed out. *)
Definition timeout_log : list Output :=
  [reader_cancel; onMessageUpdate timeout_update; onError timeoutMsg].

(** Inputs during which no data arrives and nobody stops the stream. *)
Definition waiting (i : Input) : Prop :=
  match i with
  | frame | elapse _ => True
  | _ => False
  end.

Definition waited (i : Input) : N :=
  match i with
  | elapse ms => ms
  | _ => 0
  end.

Definition total_wait (ins : list Input) : N := foldr (λ i t, (waited i + t)%N) 0%N ins.

Lemma timeout_fires c t ms :
  (STREAM_TIMEOUT <=? t + ms)%N = true →
  let s := step (set_now t (init c)) (elapse ms) in
  quiet s ∧ out s = timeout_log ∧ asm s = initial.
Proof. intros H. simpl. rewrite H. done. Qed.

Lemma waiting_run c ins :
  Forall waiting ins → ∀ t, (t < STREAM_TIMEOUT)%N →
  let s := run (set_now t (init c)) ins in
  if (STREAM_TIMEOUT <=? t + total_wait ins)%N
  then quiet s ∧ out s = timeout_log ∧ asm s = initial
  else s = set_now (t + total_wait ins) (init c).
Proof.
  induction ins as [|i ins IH]; intros Hw t Ht.
  { simpl. rewrite N.add_0_r. apply N.leb_gt in Ht as ->. done. }
  apply Forall_cons in Hw as [Hi Hw]. destruct i as [| | | |ms|]; try done.
  - (* frame *) apply (IH Hw t Ht).
  - (* elapse *)
    change (run (set_now t (init c)) (elapse ms :: ins))
      with (run (step (set_now t (init c)) (elapse ms)) ins).
    change (total_wait (elapse ms :: ins)) with (ms + total_wait ins)%N.
    cbv zeta. rewrite N.add_assoc.
    destruct (STREAM_TIMEOUT <=? t + ms)%N eqn:Hfire.
    + destruct (timeout_fires c t ms Hfire) as (Hq & Ho & Ha).
      apply N.leb_le in Hfire.
      assert ((STREAM_TIMEOUT <=? t + ms + total_wait ins)%N = true) as ->
        by (apply N.leb_le; lia).
      destruct (quiet_run _ ins Hq) as (Hq' & Ho' & Ha').
      split_and!; [done|by rewrite Ho'|by rewrite Ha'].
    + assert (step (set_now t (init c)) (elapse ms) = set_now (t + ms) (init c)) as ->.
      { simpl. by rewrite Hfire. }
      apply N.leb_gt in Hfire. apply (IH Hw (t + ms)%N Hfire).
Qed.

Lemma step_timer_none s i : timeoutRef s = None → timeoutRef (step s i) = None.
Proof.
  intros Ht. destruct i as [es| |msg| |ms|]; simpl.
  - destruct (reading s); [|done]. unfold loop_head.
    destruct (process_events_fields (begin_chunk s) es) as (_ & _ & _ & H & _).
    destruct (stopStreamingRef _); [apply finish_quiet|].
    apply H. unfold begin_chunk. by rewrite Ht.
  - destruct (reading s); [apply finish_quiet|done].
  - by destruct (reading s).
  - by destruct (pendingUpdate s).
  - by rewrite Ht.
  - destruct (reading s); [apply finish_quiet|done].
Qed.

(** C5 (as the code has it).  The hook has one timer, the first-chunk
    timeout of 60 s.  While no chunk arrives and nobody stops the stream it
    counts: before 60 s nothing happens at all, and at 60 s the read is
    cancelled, one update with the timeout message and [streaming: false] is
    delivered, the error is reported, and the loop is left (no block has been
    opened by then).  The first chunk clears the timer, nothing sets it again,
    and without a timer the passing of time changes nothing but the clock. *)
Theorem first_chunk_timeout_only (c : number) :
  (∀ ins, Forall waiting ins →
     let s := run (init c) ins in
     if (STREAM_TIMEOUT <=? total_wait ins)%N
     then quiet s ∧ out s = timeout_log ∧ asm s = initial
     else s = set_now (total_wait ins) (init c))
  ∧ (∀ s events, reachable c s → reading s = true →
       timeoutRef (step s (chunk events)) = None)
  ∧ (∀ s, timeoutRef s = None →
       (∀ i, timeoutRef (step s i) = None)
       ∧ ∀ ms, step s (elapse ms) = set_now (now s + ms) s).
Proof.
  split_and!.
  - intros ins Hw. apply (waiting_run c ins Hw 0%N). done.
  - intros s events R Hr. simpl. rewrite Hr. unfold loop_head.
    destruct (process_events_fields (begin_chunk s) events) as (_ & _ & _ & H & _).
    destruct (stopStreamingRef _); [apply finish_quiet|].
    by apply H, begin_chunk_timer, (reachable_inv c).
  - intros s Ht. split; [intros i; by apply step_timer_none|].
    intros ms. simpl. by rewrite Ht.
Qed.

(** *** The final snapshot *)

Lemma is_final_false_update c b ci co :
  is_final (Update.mk c b ci (Some false) co) = true.
Proof. done. Qed.

Lemma has_content_stop s :
  has_content (clear_timeout (emit reader_cancel (set_stopStreamingRef true s)))
  = has_content s.
Proof. done. Qed.

Lemma chunk_done s pre mid score post :
  calm (begin_chunk s) → Forall non_terminal pre →
  let s1 := process_events (begin_chunk s) pre in
  process_events (begin_chunk s) (pre ++ done mid score :: post)
  = process_event s1 (done mid score) ∧ calm s1.
Proof.
  intros Hc Hpre s1.
  assert (calm s1) as Hc1 by by apply process_events_calm.
  split; [|done]. rewrite process_events_app by done. fold s1. simpl.
  destruct Hc1 as (-> & _). by apply process_events_stopped.
Qed.

Lemma chunk_error s pre e d m post :
  calm (begin_chunk s) → Forall non_terminal pre →
  let s1 := process_events (begin_chunk s) pre in
  process_events (begin_chunk s) (pre ++ error e d m :: post)
  = process_event s1 (error e d m) ∧ calm s1.
Proof.
  intros Hc Hpre s1.
  assert (calm s1) as Hc1 by by apply process_events_calm.
  split; [|done]. rewrite process_events_app by done. fold s1. simpl.
  destruct Hc1 as (-> & _). by apply process_events_stopped.
Qed.

(** C7 (as the code has it).  While the loop reads, no update with
    [streaming: false] has been delivered.  When the stream then ends by the
    end of the transport, by a [done] event (the first terminal event of its
    chunk) or by the timeout, exactly one update with [streaming: false] is
    delivered and it is the last update; when the user stops the stream, that
    holds if something has been received (text, citations or blocks), and
    otherwise no update is delivered at all.  In each case the loop is left
    with nothing scheduled, and from then on nothing is delivered any more. *)
Theorem one_final_snapshot (c : number) (s : Loop) :
  reachable c s → reading s = true →
  no_final (out s)
  ∧ (one_final_last (out (step s end_of_stream)) ∧ quiet (step s end_of_stream))
  ∧ (∀ pre mid score post, Forall non_terminal pre →
       one_final_last (out (step s (chunk (pre ++ done mid score :: post))))
       ∧ quiet (step s (chunk (pre ++ done mid score :: post))))
  ∧ (∀ ms d, timeoutRef s = Some d → (d ≤ now s + ms)%N →
       one_final_last (out (step s (elapse ms))) ∧ quiet (step s (elapse ms)))
  ∧ (quiet (step s stop)
     ∧ if has_content s then one_final_last (out (step s stop))
       else updates (out (step s stop)) = updates (out s))
  ∧ (∀ s' ins, quiet s' → out (run s' ins) = out s').
Proof.
  intros R Hr. pose proof (reachable_inv c s R) as I.
  destruct (inv_calm s I Hr) as (Hs & Hd & Hn).
  split; [done|]. split; [|split; [|split; [|split]]].
  - simpl. rewrite Hr. split; [|apply finish_quiet].
    rewrite finish_out, Hd, Hs. destruct (has_content s).
    + by apply one_final_last_snoc.
    + change [onMessageUpdate no_response_update; onError no_response_msg]
        with ([onMessageUpdate no_response_update] ++ [onError no_response_msg]).
      rewrite app_assoc. apply one_final_last_quiet_snoc; [done|].
      by apply one_final_last_snoc.
  - intros pre mid score post Hpre. simpl. rewrite Hr.
    destruct (chunk_done s pre mid score post) as [-> Hc1]; [|done|].
    { apply begin_chunk_calm. by split_and!. }
    set (s1 := process_events (begin_chunk s) pre) in *.
    destruct (process_event_done s1 mid score)
      as (Hst & Hdone & _ & _ & l & Hout & Hl).
    remember (process_event s1 (done mid score)) as s2 eqn:Hs2.
    unfold loop_head. rewrite Hst. split; [|apply finish_quiet].
    rewrite finish_out.
    change (receivedDoneEvent (emit reader_cancel s2)) with (receivedDoneEvent s2).
    change (out (emit reader_cancel s2)) with (out s2 ++ [reader_cancel]).
    rewrite Hdone, app_nil_r.
    apply one_final_last_quiet_snoc; [done|]. rewrite Hout, app_assoc.
    apply one_final_last_snoc; [|done].
    apply no_final_app. split; [apply Hc1|].
    unfold no_final. rewrite Hl. apply Forall_nil_2.
  - intros ms d Ht Hle. destruct (inv_timer s I d Ht) as (-> & _ & Hp).
    rewrite Hp.
    destruct (timeout_fires (confidence s) (now s) ms) as (Hq & Ho & _).
    { by apply N.leb_le. }
    split; [|done]. rewrite Ho. by exists [], timeout_update.
  - simpl. rewrite Hr. split; [apply finish_quiet|].
    rewrite finish_out. simpl. rewrite Hd, has_content_stop.
    destruct (has_content s).
    + apply one_final_last_snoc; [|done]. apply no_final_app.
      split; [done|]. by apply no_final_not_update.
    + rewrite app_nil_r, updates_app. simpl. by rewrite app_nil_r.
  - intros s' ins Hq. by destruct (quiet_run s' ins Hq) as (_ & ? & _).
Qed.

(** *** Failures *)

Lemma message_snoc log u :
  message (log ++ [onMessageUpdate u]) = merge (message log) u.
Proof. unfold message. rewrite updates_app. simpl. by rewrite foldl_app. Qed.

(** C6 (as the code has it).  When an [error] event arrives (the first
    terminal event of its chunk), the handler delivers one update with
    [streaming: false] and reports the error message through [onError].  The
    content of that update is the text in [fullResponse] when there is one,
    and this text has been delivered before as the content of a streaming
    update; only when there is none is the content the error message.  The
    update carries neither blocks nor citations, so the blocks and citations
    of the message state stay as delivered.  A timeout can only come while
    nothing at all has been delivered. *)
Theorem error_event_keeps_content (c : number) (s : Loop)
    (pre post : list Event) (e d m : option string) :
  reachable c s → reading s = true → Forall non_terminal pre →
  let s1 := process_events (begin_chunk s) pre in
  let msg := first_truthy [e; d; m] "Stream error occurred" in
  let u := error_update s1 msg in
  (∃ rest, out (step s (chunk (pre ++ error e d m :: post)))
           = out s1 ++ [onMessageUpdate u; onError msg] ++ rest)
  ∧ Update.streaming u = Some false
  ∧ (fullResponse s1 ≠ "" →
       Update.content u = Some (fullResponse s1)
       ∧ ∃ u0, onMessageUpdate u0 ∈ out s1
               ∧ Update.content u0 = Some (fullResponse s1)
               ∧ Update.streaming u0 = Some true)
  ∧ (fullResponse s1 = "" → Update.content u = Some msg)
  ∧ Update.blocks (message (out s1 ++ [onMessageUpdate u]))
    = Update.blocks (message (out s1))
  ∧ Update.citations (message (out s1 ++ [onMessageUpdate u]))
    = Update.citations (message (out s1))
  ∧ (∀ t, timeoutRef s = Some t → out s = []).
Proof.
  intros R Hr Hpre s1 msg u. pose proof (reachable_inv c s R) as I.
  destruct (inv_calm s I Hr) as (Hs & Hd & Hn).
  destruct (begin_chunk_fields s) as (Ha & Hf & Ho & _).
  assert (Hdel : delivered s1).
  { apply process_events_inner; [rewrite Ha; apply I|].
    apply (delivered_grows s); [done| |apply I]. exists []. by rewrite app_nil_r. }
  split; [|split; [|split; [|split; [|split; [|split]]]]].
  - simpl. rewrite Hr.
    destruct (chunk_error s pre e d m post) as [-> Hc1]; [|done|].
    { apply begin_chunk_calm. by split_and!. }
    fold s1.
    destruct (process_event_error s1 e d m) as (Hst & _ & _ & _ & _ & Hout).
    remember (process_event s1 (error e d m)) as s2 eqn:Hs2.
    unfold loop_head. rewrite Hst, finish_out.
    change (out (emit reader_cancel s2)) with (out s2 ++ [reader_cancel]).
    rewrite Hout, <-!app_assoc. by eexists.
  - done.
  - intros Hne. unfold u, error_update. simpl.
    destruct (falsy (fullResponse s1)) eqn:Hfal.
    { by apply falsy_true in Hfal. }
    split; [done|]. by destruct Hdel.
  - intros Hemp. unfold u, error_update. simpl. by rewrite Hemp.
  - by rewrite message_snoc.
  - by rewrite message_snoc.
  - intros t Ht. destruct (inv_timer s I t Ht) as (_ & _ & Hp).
    by apply pristine_fields in Hp as (_ & _ & _ & _ & _ & _ & _ & ?).
Qed.

(** *** Concrete runs of the loop *)

(** A stream whose first chunk has opened a text block. *)
Definition mid_stream : Loop :=
  run (init 0%Z)
    [chunk [block (block_start "b1" (Some "text"));
            block (block_delta "b1" "content" "Hi")];
     frame].

(** C5, where the claim fails: after the first chunk no timer is armed, and
    a silence of any length neither cancels the read nor closes the open
    block nor delivers a terminal state. *)
Lemma silence_mid_stream_never_cancels :
  reading mid_stream = true
  ∧ timeoutRef mid_stream = None
  ∧ map_has (streamingBlocks (asm mid_stream)) "b1" = true
  ∧ run mid_stream [elapse 1000000000; frame; elapse 1000000000]
    = set_now 2000000000 mid_stream.
Proof. by vm_compute. Qed.

Lemma first_chunk_timeout_only_witness :
  quiet (run (init 0%Z) [elapse 30000; frame; elapse 30000; frame])
  ∧ out (run (init 0%Z) [elapse 30000; frame; elapse 30000; frame]) = timeout_log
  ∧ asm (run (init 0%Z) [elapse 30000; frame; elapse 30000; frame]) = initial.
Proof.
  destruct (first_chunk_timeout_only 0%Z) as [H _].
  apply (H [elapse 30000; frame; elapse 30000; frame]).
  repeat constructor.
Defined.

(** C7, where the claim fails: a stream the user stops before anything has
    been received ends without any update, so without a final snapshot. *)
Lemma cancelled_stream_no_final :
  reading (run (init 0%Z) [stop]) = false
  ∧ out (run (init 0%Z) [stop]) = [reader_cancel]
  ∧ updates (out (run (init 0%Z) [stop])) = [].
Proof. done. Qed.

(** An [error] event after some text: the handler delivers an update with
    [streaming: false], and the code after the loop delivers a second one. *)
Example error_after_text_two_finals :
  updates (out (run (init 0%Z)
                  [chunk [response (Some "Hello"); error (Some "boom") None None]]))
  = [Update.mk (Some "Hello") None None (Some true) None;
     Update.mk (Some "Hello") None None (Some false) None;
     Update.mk (Some "Hello") (Some None) (Some []) (Some false) None].
Proof. by vm_compute. Qed.

(** A rejected read while a frame is scheduled: the scheduled update is not
    cancelled and goes out, with [streaming: true], after the final one. *)
Example read_error_then_frame :
  Update.streaming <$>
    updates (out (run (init 0%Z)
                    [chunk [block (block_start "b1" (Some "text"))];
                     read_error "boom"; frame]))
  = [Some false; Some true].
Proof. by vm_compute. Qed.

Lemma one_final_snapshot_witness :
  one_final_last
    (out (step mid_stream
            (chunk ([block (block_delta "b1" "content" " there")]
                    ++ done None None :: [start]))))
  ∧ quiet (step mid_stream
             (chunk ([block (block_delta "b1" "content" " there")]
                     ++ done None None :: [start]))).
Proof.
  assert (R : reachable 0%Z mid_stream) by apply reachable_run, reachable_init.
  destruct (one_final_snapshot 0%Z mid_stream R eq_refl) as (_ & _ & H & _).
  apply H. repeat constructor.
Defined.

(** C6, where the claim fails: after an [error] event the message state a
    consumer holds is the same as after a stream that just ended, with the
    content delivered before and no trace of the error. *)
Lemma error_not_annotated :
  message (out (run (init 0%Z)
                  [chunk [response (Some "Hello"); error (Some "boom") None None]]))
  = Update.mk (Some "Hello") (Some None) (Some []) (Some false) None
  ∧ message (out (run (init 0%Z) [chunk [response (Some "Hello")]; end_of_stream]))
    = Update.mk (Some "Hello") (Some None) (Some []) (Some false) None.
Proof. by vm_compute. Qed.

(** A rejected read after some text: the [catch] block puts the error
    message in place of the text. *)
Example read_error_replaces_content :
  message (out (run (init 0%Z) [chunk [response (Some "Hello")]; read_error "boom"]))
  = Update.mk (Some "boom") None None (Some false) None.
Proof. by vm_compute. Qed.

Lemma error_event_keeps_content_witness :
  ∃ rest,
    out (step (init 0%Z)
           (chunk ([response (Some "Hello")] ++ error None None (Some "boom") :: [])))
    = [onMessageUpdate (Update.mk (Some "Hello") None None (Some true) None)]
      ++ [onMessageUpdate (Update.mk (Some "Hello") None None (Some false) None);
          onError "boom"]
      ++ rest.
Proof.
  destruct (error_event_keeps_content 0%Z (init 0%Z) [response (Some "Hello")] []
              None None (Some "boom") (reachable_init 0%Z) eq_refl)
    as [[rest H] _].
  { repeat constructor. }
  exists rest. exact H.
Defined.

End StreamQuery.

(** ** More on JavaScript strings *)

Module JsText.
Import JsString.

Definition first_char (s : string) : option ascii :=
  match s with
  | EmptyString => None
  | String c _ => Some c
  end.

Fixpoint last_char (s : string) : option ascii :=
  match s with
  | EmptyString => None
  | String c EmptyString => Some c
  | String _ s' => last_char s'
  end.

(** No white space at either end. *)
Definition tidy (s : string) : Prop :=
  (∀ c, first_char s = Some c → is_ws c = false)
  ∧ (∀ c, last_char s = Some c → is_ws c = false).

(** The number of occurrences of the code unit [d]. *)
Fixpoint count_char (d : ascii) (s : string) : nat :=
  match s with
  | EmptyString => 0
  | String c s' => (if Ascii.eqb c d then 1 else 0) + count_char d s'
  end.

(** [hay.includes(needle)] *)
Fixpoint includes (needle hay : string) : bool :=
  startsWith needle hay
  || match hay with
     | EmptyString => false
     | String _ hay' => includes needle hay'
     end.

Lemma trimStart_first s c : first_char (trimStart s) = Some c → is_ws c = false.
Proof.
  induction s as [|x s IH]; simpl; [done|].
  destruct (is_ws x) eqn:Hx; [done|]. simpl. by intros [= <-].
Qed.

Lemma trimEnd_last s c : last_char (trimEnd s) = Some c → is_ws c = false.
Proof.
  revert c. induction s as [|x s IH]; intros c; simpl; [done|].
  destruct (trimEnd s) as [|y t] eqn:Ht.
  - destruct (is_ws x) eqn:Hx; [done|]. simpl. by intros [= <-].
  - simpl. destruct t; apply IH.
Qed.

Lemma trimEnd_first s :
  trimEnd s = "" ∨ first_char (trimEnd s) = first_char s.
Proof.
  destruct s as [|x s]; simpl; [by left|].
  destruct (trimEnd s); [|by right].
  destruct (is_ws x); [by left|by right].
Qed.

Lemma trim_tidy s : tidy (trim s).
Proof.
  unfold trim. split; intros c Hc.
  - destruct (trimEnd_first (trimStart s)) as [He|He].
    + by rewrite He in Hc.
    + rewrite He in Hc. by apply (trimStart_first s).
  - by apply (trimEnd_last (trimStart s)).
Qed.

Lemma split_not_nil d s : split d s ≠ [].
Proof.
  destruct s as [|c s]; simpl; [done|].
  destruct (Ascii.eqb c d); [done|]. by destruct (split d s).
Qed.

End JsText.

(** ** [utils/sse_parser.ts]: sequences of lines *)

Module SseLines.
Import JsString JsText SseParser.

Section lines.
Variable any : Type.
Variable JSON_parse : string → exn + any.

Local Abbreviation parseLine := (SseParser.parseLine any JSON_parse).
Local Abbreviation parseSSELine := (SseParser.parseSSELine any JSON_parse).
Local Abbreviation parseLines := (SseParser.parseLines any JSON_parse).
Local Abbreviation SSEParseResult := (SseParser.SSEParseResult any).

Definition cleared : SSEParser := {| currentEventName := None |}.

(** What a [data:] line returns when the pending name is [n]. *)
Definition data_result (n : option string) (line : string) : SSEParseResult :=
  if falsy (payload_of line) then None
  else match JSON_parse (payload_of line) with
       | inr v => Some {| eventName := name_or_undefined n; data := v |}
       | inl _ => None
       end.

Lemma event_not_data line :
  startsWith "event:" line = true → startsWith "data:" line = false.
Proof. intros (rest & -> & _)%startsWith_cons. done. Qed.

Lemma parseLine_event' st line :
  startsWith "event:" line = true →
  parseLine line st
  = (inr None, {| currentEventName := Some (trim (drop 6 line)) |}).
Proof.
  intros H. unfold SseParser.parseLine. rewrite H.
  by rewrite (trim_replace_prefix_ws EVENT_PREFIX line H).
Qed.

Lemma parseLine_data st line :
  startsWith "data:" line = true →
  parseLine line st = (inr (data_result (currentEventName st) line), cleared).
Proof.
  intros H. unfold SseParser.parseLine, data_result.
  rewrite (data_not_event _ H), H, (payload_of_eq _ H).
  destruct (falsy (payload_of line)); [done|].
  unfold try_catch, mbind, M_bind, lift, get, set_name, put, mret, M_ret.
  by destruct (JSON_parse (payload_of line)).
Qed.

Lemma parseSSELine_data line :
  startsWith "data:" line = true →
  parseSSELine line = inr (data any <$> data_result None line).
Proof.
  intros H. unfold SseParser.parseSSELine, data_result.
  rewrite H, (payload_of_eq _ H). simpl.
  destruct (falsy (payload_of line)); [done|].
  by destruct (JSON_parse (payload_of line)).
Qed.

Lemma data_result_data n line :
  data any <$> data_result n line = data any <$> data_result None line.
Proof.
  unfold data_result. destruct (falsy _); [done|].
  by destruct (JSON_parse _).
Qed.

(** The three kinds of lines. *)
Lemma line_cases line :
  startsWith "event:" line = true
  ∨ startsWith "data:" line = true
  ∨ (startsWith "event:" line = false ∧ startsWith "data:" line = false).
Proof.
  destruct (startsWith "event:" line); [by left|].
  destruct (startsWith "data:" line); [right; by left|right; by right].
Qed.

(** X1.  On every line and in every state of the parser, [SSEParser.parseLine]
    returns without throwing, and the legacy function [parseSSELine]
    returns on the same line the [data] of that result, [null] where the
    parser returns [null]: the two differ by the event name only. *)
Theorem legacy_parse_agrees (st : SSEParser) (line : string) :
  ∃ r st', parseLine line st = (inr r, st')
           ∧ parseSSELine line = inr (data any <$> r).
Proof.
  destruct (line_cases line) as [He|[Hd|[He Hd]]].
  - eexists _, _. split; [by apply parseLine_event'|].
    unfold SseParser.parseSSELine. by rewrite (event_not_data _ He).
  - eexists _, _. split; [by apply parseLine_data|].
    by rewrite parseSSELine_data, (data_result_data (currentEventName st)).
  - eexists _, _. split; [by apply parseLine_other|].
    unfold SseParser.parseSSELine. by rewrite Hd.
Qed.

(** *** The parser as a function of its state *)

Definition result_of (st : SSEParser) (line : string) : SSEParseResult :=
  if startsWith "event:" line then None
  else if startsWith "data:" line then data_result (currentEventName st) line
  else None.

Definition state_after (st : SSEParser) (line : string) : SSEParser :=
  if startsWith "event:" line then {| currentEventName := Some (trim (drop 6 line)) |}
  else if startsWith "data:" line then cleared
  else if falsy (trim line) then cleared
  else st.

Fixpoint results (st : SSEParser) (lines : list string) : list SSEParseResult :=
  match lines with
  | [] => []
  | l :: ls => result_of st l :: results (state_after st l) ls
  end.

Definition final_state (st : SSEParser) (lines : list string) : SSEParser :=
  foldl state_after st lines.

Lemma parseLine_run st line :
  parseLine line st = (inr (result_of st line), state_after st line).
Proof.
  unfold result_of, state_after.
  destruct (line_cases line) as [He|[Hd|[He Hd]]].
  - rewrite He. by apply parseLine_event'.
  - rewrite (data_not_event _ Hd), Hd. by apply parseLine_data.
  - rewrite He, Hd. by apply parseLine_other.
Qed.

Lemma parseLines_run lines st :
  parseLines lines st = (inr (results st lines), final_state st lines).
Proof.
  revert st. induction lines as [|l ls IH]; intros st; [done|].
  simpl. unfold mbind, M_bind at 1. rewrite parseLine_run.
  unfold mbind, M_bind. by rewrite IH.
Qed.

Lemma results_app st ls1 ls2 :
  results st (ls1 ++ ls2) = results st ls1 ++ results (final_state st ls1) ls2.
Proof.
  revert st. induction ls1 as [|l ls1 IH]; intros st; [done|].
  simpl. by rewrite IH.
Qed.

(** *** Event names *)

(** The pending name, when there is one, has no white space at its ends. *)
Definition tidy_name (st : SSEParser) : Prop :=
  ∀ n, currentEventName st = Some n → tidy n.

Lemma tidy_name_after st line : tidy_name st → tidy_name (state_after st line).
Proof.
  intros Ht. unfold state_after.
  destruct (startsWith "event:" line).
  { intros n [= <-]. apply trim_tidy. }
  destruct (startsWith "data:" line); [done|].
  by destruct (falsy (trim line)).
Qed.

Lemma result_of_name st line ev n :
  tidy_name st → result_of st line = Some ev → eventName any ev = Some n →
  n ≠ "" ∧ tidy n.
Proof.
  intros Ht. unfold result_of, data_result.
  destruct (startsWith "event:" line); [done|].
  destruct (startsWith "data:" line); [|done].
  destruct (falsy (payload_of line)); [done|].
  destruct (JSON_parse (payload_of line)) as [e|v]; [done|].
  intros [= <-]. simpl. destruct (currentEventName st) as [m|] eqn:Hm; [|done].
  simpl. destruct m as [|c m]; [done|]. simpl. intros [= <-].
  split; [done|]. by apply Ht.
Qed.

Lemma results_names st lines ev n :
  tidy_name st → Some ev ∈ results st lines → eventName any ev = Some n →
  n ≠ "" ∧ tidy n.
Proof.
  revert st. induction lines as [|l ls IH]; intros st Ht; simpl.
  { by intros ?%elem_of_nil. }
  intros [Hev|Hin]%elem_of_cons Hn.
  - by apply (result_of_name st l ev).
  - apply (IH (state_after st l)); [by apply tidy_name_after|done..].
Qed.

(** X2.  Over any sequence of lines given to a new parser, every line is
    handled without an exception, and an event name attached to a result
    is never the empty string and has no white space at either end. *)
Theorem event_names_trimmed (lines : list string) :
  ∃ rs st', parseLines lines fresh_parser = (inr rs, st')
    ∧ ∀ ev n, Some ev ∈ rs → eventName any ev = Some n → n ≠ "" ∧ tidy n.
Proof.
  eexists _, _. split; [apply parseLines_run|].
  intros ev n. by apply results_names.
Qed.

(** A result that carries an event name. *)
Definition named (r : SSEParseResult) : bool :=
  match r with
  | Some ev => match eventName any ev with Some _ => true | None => false end
  | None => false
  end.

Definition pending (st : SSEParser) : nat :=
  match currentEventName st with Some _ => 1 | None => 0 end.

(** [line.startsWith('event:')] *)
Definition is_event_line (line : string) : bool := startsWith "event:" line.

Lemma named_step st l :
  (if named (result_of st l) then 1 else 0) + pending (state_after st l)
  ≤ (if is_event_line l then 1 else 0) + pending st.
Proof.
  unfold result_of, state_after, is_event_line.
  destruct (startsWith "event:" l); [unfold pending; simpl; lia|].
  destruct (startsWith "data:" l).
  - unfold data_result. destruct (falsy _); [unfold pending; simpl; lia|].
    destruct (JSON_parse _); [unfold pending; simpl; lia|].
    unfold pending, named. simpl.
    destruct (currentEventName st) as [m|]; simpl; [|lia].
    destruct (falsy m); simpl; lia.
  - destruct (falsy (trim l)); unfold pending; simpl; lia.
Qed.

Lemma named_bound st lines :
  length (List.filter named (results st lines))
  ≤ length (List.filter is_event_line lines) + pending st.
Proof.
  revert st. induction lines as [|l ls IH]; intros st; [simpl; lia|].
  specialize (IH (state_after st l)). pose proof (named_step st l) as Hs.
  change (results st (l :: ls))
    with (result_of st l :: results (state_after st l) ls).
  cbn [List.filter].
  destruct (named (result_of st l)), (is_event_line l); cbn [length]; lia.
Qed.

(** X3.  An [event:] line names at most one result: over any sequence of
    lines, the results that carry an event name are at most as many as the
    [event:] lines, plus one when a name was pending at the start. *)
Theorem one_event_per_name (st : SSEParser) (lines : list string) :
  ∃ rs st', parseLines lines st = (inr rs, st')
    ∧ length (List.filter named rs)
      ≤ length (List.filter is_event_line lines) + pending st.
Proof.
  eexists _, _. split; [apply parseLines_run|]. apply named_bound.
Qed.

(** A line that is neither an [event:] line, nor a [data:] line, nor blank:
    a comment or another field of the stream. *)
Definition field_line (l : string) : Prop :=
  startsWith "event:" l = false ∧ startsWith "data:" l = false ∧ trim l ≠ "".

Lemma field_lines_run st others :
  Forall field_line others →
  results st others = replicate (length others) None
  ∧ final_state st others = st.
Proof.
  revert st. induction others as [|l ls IH]; intros st Hf; [done|].
  apply Forall_cons in Hf as [(He & Hd & Hb) Hf].
  assert (state_after st l = st) as Hst.
  { unfold state_after. rewrite He, Hd.
    destruct (falsy (trim l)) eqn:E; [|done]. by apply falsy_true in E. }
  simpl. unfold final_state in *. simpl. rewrite Hst.
  destruct (IH st Hf) as [-> ->]. split; [|done].
  unfold result_of. by rewrite He, Hd.
Qed.

Lemma startsWith_append p s : startsWith p (p +:+ s) = true.
Proof.
  induction p as [|a p IH]; simpl; [done|].
  by rewrite Ascii.eqb_refl.
Qed.

Lemma drop_append p s : drop (String.length p) (p +:+ s) = s.
Proof. induction p as [|a p IH]; simpl; done. Qed.

Lemma blank_line_run st blank :
  trim blank = "" → result_of st blank = None ∧ state_after st blank = cleared.
Proof.
  intros Hb. assert (Hf : falsy (trim blank) = true) by by apply falsy_true.
  unfold result_of, state_after.
  destruct (startsWith "event:" blank) eqn:He.
  { rewrite (prefixed_not_blank "event:" blank) in Hf; [done|by right|done]. }
  destruct (startsWith "data:" blank) eqn:Hd.
  { rewrite (prefixed_not_blank "data:" blank) in Hf; [done|by left|done]. }
  by rewrite Hf.
Qed.

Lemma data_line_run st payload v :
  JSON_parse (trim payload) = inr v → trim payload ≠ "" →
  result_of st ("data:" +:+ payload)
  = Some {| eventName := name_or_undefined (currentEventName st); data := v |}.
Proof.
  intros Hv Hne. unfold result_of, data_result, payload_of.
  change (drop 5 ("data:" +:+ payload)) with payload.
  change (startsWith "event:" ("data:" +:+ payload)) with false.
  change (startsWith "data:" ("data:" +:+ payload)) with true.
  cbv iota. rewrite Hv.
  destruct (falsy (trim payload)) eqn:E; [|done]. by apply falsy_true in E.
Qed.

(** X4.  The name of an [event:] line stays pending across lines that are
    neither [event:] lines, nor [data:] lines, nor blank (comments, [id:]
    fields): the next [data:] line whose payload parses carries it, trimmed,
    and every line before returns [null].  With a blank line before the
    [data:] line the result carries no name. *)
Theorem event_name_survives_fields (st : SSEParser) (name payload : string)
    (others : list string) (v : any) :
  Forall field_line others →
  JSON_parse (trim payload) = inr v → trim payload ≠ "" →
  (∃ st', parseLines (("event:" +:+ name) :: others ++ ["data:" +:+ payload]) st
          = (inr (replicate (S (length others)) None
                  ++ [Some {| eventName := name_or_undefined (Some (trim name));
                              data := v |}]),
             st'))
  ∧ (∀ blank, trim blank = "" →
     ∃ st', parseLines
              (("event:" +:+ name) :: others ++ [blank; "data:" +:+ payload]) st
            = (inr (replicate (S (S (length others))) None
                    ++ [Some {| eventName := None; data := v |}]),
               st')).
Proof.
  intros Hf Hv Hne.
  set (st1 := {| currentEventName := Some (trim name) |}).
  assert (Hev : result_of st ("event:" +:+ name) = None
                ∧ state_after st ("event:" +:+ name) = st1) by done.
  destruct Hev as [Hr1 Hs1].
  destruct (field_lines_run st1 others Hf) as [Hr2 Hs2].
  split.
  - eexists. rewrite parseLines_run. f_equal. f_equal.
    change (results st (("event:" +:+ name) :: others ++ ["data:" +:+ payload]))
      with (result_of st ("event:" +:+ name)
            :: results (state_after st ("event:" +:+ name))
                 (others ++ ["data:" +:+ payload])).
    rewrite Hr1, Hs1, results_app, Hr2, Hs2. simpl.
    by rewrite (data_line_run st1 payload v Hv Hne).
  - intros blank Hb. eexists. rewrite parseLines_run. f_equal. f_equal.
    change (results st (("event:" +:+ name) :: others ++ [blank; "data:" +:+ payload]))
      with (result_of st ("event:" +:+ name)
            :: results (state_after st ("event:" +:+ name))
                 (others ++ [blank; "data:" +:+ payload])).
    rewrite Hr1, Hs1, results_app, Hr2, Hs2.
    destruct (blank_line_run st1 blank Hb) as [Hr3 Hs3].
    change (results st1 [blank; "data:" +:+ payload])
      with [result_of st1 blank;
            result_of (state_after st1 blank) ("data:" +:+ payload)].
    rewrite Hr3, Hs3, (data_line_run cleared payload v Hv Hne).
    rewrite (replicate_S_end (S (length others))). simpl.
    by rewrite <-app_assoc.
Qed.

End lines.

Lemma event_name_survives_fields_witness :
  ∃ st', parseLines (option bool) parse_literal
           (("event:" +:+ " block ") :: [": ping"; "id: 7"] ++ ["data:" +:+ " true"])
           {| currentEventName := Some "old" |}
         = (inr ([None; None; None]
                 ++ [Some {| eventName := Some "block"; data := Some true |}]),
            st').
Proof.
  destruct (event_name_survives_fields (option bool) parse_literal
              {| currentEventName := Some "old" |} " block " " true"
              [": ping"; "id: 7"] (Some true)) as [H _].
  - repeat constructor; done.
  - reflexivity.
  - done.
  - exact H.
Defined.

End SseLines.

(** ** Splitting and joining *)

Module JsSplit.
Import JsString JsText.

(** The separator as a string. *)
Definition sep (d : ascii) : string := String d "".

Lemma length_split d s : length (split d s) = S (count_char d s).
Proof.
  induction s as [|c s IH]; simpl; [done|].
  destruct (Ascii.eqb c d); simpl; [by rewrite IH|].
  destruct (split d s) as [|w ws]; simpl in *; lia.
Qed.

Lemma split_pieces d s : Forall (λ p, count_char d p = 0) (split d s).
Proof.
  induction s as [|c s IH]; simpl; [by constructor|].
  destruct (Ascii.eqb c d) eqn:E; [by constructor|].
  destruct (split d s) as [|w ws]; simpl.
  - constructor; [|done]. simpl. by rewrite E.
  - apply Forall_cons in IH as [Hw Hws]. constructor; [|done].
    simpl. by rewrite E.
Qed.

Lemma join_cons2 s x y xs :
  join s (x :: y :: xs) = x +:+ s +:+ join s (y :: xs).
Proof. done. Qed.

Lemma join_split d s : join (sep d) (split d s) = s.
Proof.
  induction s as [|c s IH]; simpl; [done|].
  destruct (Ascii.eqb c d) eqn:E.
  - apply Ascii.eqb_eq in E as ->.
    pose proof (split_not_nil d s) as Hn.
    destruct (split d s) as [|w ws]; [done|].
    rewrite join_cons2, IH. done.
  - pose proof (split_not_nil d s) as Hn.
    destruct (split d s) as [|w [|w2 ws]]; [done| |].
    + simpl in *. by rewrite IH.
    + rewrite join_cons2 in *. rewrite append_cons. by rewrite IH.
Qed.

Lemma split_piece d p : count_char d p = 0 → split d p = [p].
Proof.
  induction p as [|c p IH]; simpl; [done|].
  destruct (Ascii.eqb c d); [done|]. intros H. by rewrite IH.
Qed.

Lemma split_piece_sep d p s :
  count_char d p = 0 → split d (p +:+ sep d +:+ s) = p :: split d s.
Proof.
  induction p as [|c p IH]; simpl.
  - intros _. by rewrite Ascii.eqb_refl.
  - destruct (Ascii.eqb c d) eqn:E; [done|]. intros H.
    by rewrite IH.
Qed.

Lemma split_join d ps :
  ps ≠ [] → Forall (λ p, count_char d p = 0) ps →
  split d (join (sep d) ps) = ps.
Proof.
  induction ps as [|p ps IH]; [done|]. intros _ [Hp Hps]%Forall_cons.
  destruct ps as [|q ps]; [by apply split_piece|].
  rewrite join_cons2, split_piece_sep by done. by rewrite IH.
Qed.

Lemma count_char_trimStart d s : count_char d (trimStart s) ≤ count_char d s.
Proof.
  induction s as [|c s IH]; simpl; [done|].
  destruct (is_ws c); simpl; lia.
Qed.

Lemma count_char_trimEnd d s : count_char d (trimEnd s) ≤ count_char d s.
Proof.
  induction s as [|c s IH]; simpl; [done|].
  destruct (trimEnd s) as [|x t]; simpl in *.
  - destruct (is_ws c); simpl; lia.
  - lia.
Qed.

Lemma count_char_trim d s : count_char d s = 0 → count_char d (trim s) = 0.
Proof.
  intros H. unfold trim.
  pose proof (count_char_trimEnd d (trimStart s)).
  pose proof (count_char_trimStart d s). lia.
Qed.

End JsSplit.

(** ** [examples/frontend/useStreamingQuery.ts]: the helper functions *)

Module Blocks.
Import JsString JsText JsSplit Hook StreamQuery.

(** *** The cells of a row *)

(** X5.  [value.split('|').map(s => s.trim())] gives one cell more than
    [value] has bars; no cell holds a bar, and no cell has white space at
    either end. *)
Theorem split_cells_shape (value : string) :
  length (split_cells value) = S (count_char "|" value)
  ∧ Forall (λ cell, tidy cell ∧ count_char "|" cell = 0) (split_cells value).
Proof.
  unfold split_cells. split.
  - by rewrite length_fmap, length_split.
  - apply Forall_fmap. eapply Forall_impl; [apply split_pieces|].
    intros p Hp. simpl. split; [apply trim_tidy|by apply count_char_trim].
Qed.

(** X6.  A row written as cells joined with bars is read back as the trimmed
    cells, when there is at least one cell and no cell holds a bar. *)
Theorem split_cells_join (raw : list string) :
  raw ≠ [] → Forall (λ p, count_char "|" p = 0) raw →
  split_cells (join "|" raw) = trim <$> raw.
Proof.
  intros Hne Hraw. unfold split_cells.
  change (join "|" raw) with (join (sep "|") raw).
  by rewrite (split_join "|" raw Hne Hraw).
Qed.

Lemma split_cells_join_witness :
  split_cells (join "|" ["Name "; " Score"; ""]) = trim <$> ["Name "; " Score"; ""].
Proof. apply split_cells_join; [done|]. repeat constructor. Defined.

(** *** The order of the open blocks *)

Definition open_ids (a : Assembler) : list string := (streamingBlocks a).*1.

Definition snapshot (a : Assembler) : list ContentBlock :=
  buildBlocksFromState (completedBlocks a) (streamingBlocks a).

(** X7.  [block_start] opens the block with empty data, whatever was there
    under its id.  For an id that is open already the state is replaced in
    place: the order of the open blocks is kept and the snapshot keeps its
    length; for a new id the block comes last and the snapshot has one block
    more.  The other open blocks, the completed blocks and the arrays are
    left as they are. *)
Theorem block_restart_resets (a : Assembler) (id : string) (bt : option string) :
  let a' := assemble a (block_start id bt) in
  open_in a' id (fresh_block id (or_default bt "text"))
  ∧ (∀ st, open_in a id st → open_ids a' = open_ids a)
  ∧ (map_get (streamingBlocks a) id = None → open_ids a' = open_ids a ++ [id])
  ∧ (∀ id', id' ≠ id →
       map_get (streamingBlocks a') id' = map_get (streamingBlocks a) id')
  ∧ completedBlocks a' = completedBlocks a
  ∧ heap a' = heap a
  ∧ length (snapshot a')
    = length (snapshot a) + (if map_has (streamingBlocks a) id then 0 else 1).
Proof.
  simpl. unfold open_in, open_ids, snapshot, buildBlocksFromState, map_values.
  simpl. split_and!; try done.
  - apply map_get_set_eq.
  - intros st Hst. apply map_set_keys_has. by exists st.
  - apply map_set_keys_new.
  - intros id' Hne. by apply map_get_set_ne.
  - rewrite !length_app, !length_fmap.
    assert (length (map_set (streamingBlocks a) id
                      (fresh_block id (or_default bt "text")))
            = length (streamingBlocks a)
              + (if map_has (streamingBlocks a) id then 0 else 1)) as ->; [|lia].
    rewrite <-(length_fmap fst (map_set _ _ _)), <-(length_fmap fst (streamingBlocks a)).
    destruct (map_has (streamingBlocks a) id) eqn:E.
    + apply map_has_true in E. rewrite map_set_keys_has by done. lia.
    + apply map_has_false in E. rewrite map_set_keys_new by done.
      rewrite length_app. simpl. lia.
Qed.

Lemma map_get_split {V} (m : JsMap V) k v :
  map_get m k = Some v →
  ∃ pre post, m = pre ++ (k, v) :: post ∧ map_delete m k = pre ++ post.
Proof.
  induction m as [|[k0 v0] m IH]; csimpl; [done|].
  destruct (String.eqb k0 k) eqn:E.
  - apply String.eqb_eq in E as ->. intros [= ->]. by exists [], m.
  - intros (pre & post & -> & ->)%IH. by exists ((k0, v0) :: pre), post.
Qed.

(** X8.  [block_end] for an open block moves it to the completed blocks: the
    snapshot built by [buildBlocksFromState] holds the same blocks as before,
    in the same order when the block was the first of the open ones, and no
    array changes. *)
Theorem block_end_keeps_snapshot (a : Assembler) (id : string)
    (pa : option bool) (st : StreamingBlockState) :
  open_in a id st →
  let a' := assemble a (block_end id pa) in
  snapshot a' ≡ₚ snapshot a
  ∧ (∀ rest, streamingBlocks a = (id, st) :: rest → snapshot a' = snapshot a)
  ∧ heap a' = heap a.
Proof.
  intros Ho. simpl. rewrite (on_block_end_open id pa a st Ho). simpl.
  unfold snapshot, buildBlocksFromState, map_values. simpl.
  split_and!; [| |done].
  - destruct (map_get_split _ _ _ Ho) as (pre & post & -> & ->).
    rewrite <-app_assoc. apply Permutation_app_head.
    rewrite !fmap_app, !fmap_cons. simpl.
    by rewrite (Permutation_middle).
  - intros rest Hrest. rewrite Hrest. simpl. rewrite String.eqb_refl.
    by rewrite <-app_assoc.
Qed.

Lemma block_end_keeps_snapshot_witness :
  snapshot (assemble
              (assemble_all initial [block_start "a" None; block_start "b" None])
              (block_end "b" None))
  ≡ₚ snapshot (assemble_all initial [block_start "a" None; block_start "b" None]).
Proof.
  destruct (block_end_keeps_snapshot
              (assemble_all initial [block_start "a" None; block_start "b" None])
              "b" None (fresh_block "b" "text") eq_refl) as [H _].
  exact H.
Defined.

(** *** When [applyBlockDelta] throws *)

Lemma set_data_id (st : StreamingBlockState) :
  {| block_id := block_id st; block_type := block_type st; data := data st;
     streaming := streaming st; partial := partial st |} = st.
Proof. by destruct st. Qed.

(** X9.  For a string value.  When the path is [rows], [items] or [steps]
    and [data[path]] holds a string that is not empty, [applyBlockDelta]
    throws a [TypeError] and has changed nothing.  An empty string under
    such a path is replaced by a new array.  When the path is another one,
    or [data[path]] is absent or an array, the function returns normally. *)
Theorem applyBlockDelta_throws_on_string (path value : string) (h : Heap)
    (st : StreamingBlockState) :
  (∀ s, is_accumulating path = true → data st !! path = Some (JStr s) → s ≠ "" →
     applyBlockDelta path value (h, st) = (inl TypeError, (h, st)))
  ∧ (is_accumulating path = true → data st !! path = Some (JStr "") →
       ∃ h' st', applyBlockDelta path value (h, st) = (inr tt, (h', st'))
                 ∧ data st' !! path = Some (JRef (length h)))
  ∧ (is_accumulating path = false ∨ data st !! path = None
     ∨ (∃ arr, data st !! path = Some (JRef arr)) →
       (applyBlockDelta path value (h, st)).1 = inr tt).
Proof.
  split_and!.
  - intros s Ha E Hs. unfold applyBlockDelta. rewrite Ha, E.
    destruct s as [|c s]; [done|]. simpl. rewrite E. by rewrite set_data_id.
  - intros Ha E. unfold applyBlockDelta. rewrite Ha, E. simpl.
    rewrite lookup_insert_eq.
    destruct (String.eqb path "rows"); eexists _, _; (split; [done|]);
      simpl; by rewrite lookup_insert_eq.
  - intros H. destruct (is_accumulating path) eqn:Ha.
    + unfold applyBlockDelta. rewrite Ha.
      destruct H as [?|[E|[arr E]]]; [done| |]; rewrite E; simpl.
      * rewrite lookup_insert_eq. by destruct (String.eqb path "rows").
      * rewrite E. by destruct (String.eqb path "rows").
    + destruct (path_cases path) as [?|[->|Hp]]; [congruence|done|].
      by rewrite applyBlockDelta_text_any.
Qed.

(** *** The text fallback of several blocks *)

(** Two texts with a blank line between them, when both are there. *)
Definition glue (a b : string) : string :=
  if falsy a then b
  else if falsy b then a
  else a +:+ (nl +:+ nl) +:+ b.

Lemma join_empty_iff s (xs : list string) :
  Forall (λ t, falsy t = false) xs → join s xs = "" ↔ xs = [].
Proof.
  intros Hxs. split; [|by intros ->].
  destruct xs as [|x xs]; [done|].
  apply Forall_cons in Hxs as [Hx _]. destruct x as [|c x]; [done|].
  by destruct xs.
Qed.

Lemma join_app s (xs ys : list string) :
  xs ≠ [] → ys ≠ [] → join s (xs ++ ys) = join s xs +:+ s +:+ join s ys.
Proof.
  intros Hxs Hys. induction xs as [|x xs IH]; [done|].
  destruct xs as [|x2 xs].
  - destruct ys as [|y ys]; [done|]. done.
  - change ((x :: x2 :: xs) ++ ys) with (x :: x2 :: (xs ++ ys)).
    rewrite !join_cons2. change (x2 :: (xs ++ ys)) with ((x2 :: xs) ++ ys).
    rewrite IH by done. by rewrite !append_assoc.
Qed.

Definition texts (h : Heap) (blocks : list ContentBlock) : list string :=
  filter (λ t, falsy t = false) (block_text h <$> blocks).

Lemma texts_nonempty h blocks : Forall (λ t, falsy t = false) (texts h blocks).
Proof. apply Forall_forall. by intros t [? _]%list_elem_of_filter. Qed.

Lemma texts_nil h blocks :
  texts h blocks = [] ↔ Forall (λ b, block_text h b = "") blocks.
Proof.
  unfold texts. induction blocks as [|b bs IH]; [done|].
  rewrite fmap_cons, filter_cons, Forall_cons. case_decide as Hd.
  - split; [done|]. intros [Hb _]. by rewrite Hb in Hd.
  - rewrite IH. apply not_false_iff_true, falsy_true in Hd.
    split; [by split|by intros [_ ?]].
Qed.

(** The data of a block has the shapes that [blocksToTextFallback] casts it
    to: a text path holds no array, and [items], [steps] and [headers] hold
    nothing, or an array of strings.  On such blocks a cast of the source
    never reads a value of another type. *)
Definition readable (h : Heap) (b : ContentBlock) : Prop :=
  well_typed_data h (ContentBlock.data b)
  ∧ ∀ p s, string_array_path p → ContentBlock.data b !! p ≠ Some (JStr s).

Lemma readable_strings h bt (d : gmap string jsval) :
  (∀ p v, d !! p = Some v → is_text_path p = true ∧ ∃ s, v = JStr s) →
  readable h (ContentBlock.mk bt d).
Proof.
  intros Hd. split; [split|]; simpl.
  - intros p l Hp. by destruct (Hd p _ Hp) as [_ [s ?]].
  - intros p l _ Hp. by destruct (Hd p _ Hp) as [_ [s ?]].
  - intros p s Hsp Hp. destruct (Hd p _ Hp) as [Ht _].
    by rewrite (string_array_path_not_text p Hsp) in Ht.
Qed.

(** X10.  For blocks whose data has the shapes that the function casts it
    to: the text fallback of blocks put one after the other is made of the
    fallbacks of the two parts, with a blank line between them when neither
    is empty.  The fallback of some blocks is empty exactly when the text of
    every block is empty. *)
Theorem fallback_app (h : Heap) (bs1 bs2 : list ContentBlock) :
  Forall (readable h) bs1 → Forall (readable h) bs2 →
  blocksToTextFallback h (bs1 ++ bs2)
  = glue (blocksToTextFallback h bs1) (blocksToTextFallback h bs2)
  ∧ (blocksToTextFallback h bs1 = "" ↔ Forall (λ b, block_text h b = "") bs1).
Proof.
  intros _ _.
  unfold blocksToTextFallback. fold (texts h (bs1 ++ bs2)).
  fold (texts h bs1). fold (texts h bs2).
  assert (Hemp : ∀ bs, join (nl +:+ nl) (texts h bs) = "" ↔ texts h bs = []).
  { intros bs. apply join_empty_iff, texts_nonempty. }
  split; [|by rewrite Hemp, texts_nil].
  assert (texts h (bs1 ++ bs2) = texts h bs1 ++ texts h bs2) as ->.
  { unfold texts. by rewrite fmap_app, filter_app. }
  unfold glue.
  destruct (falsy (join (nl +:+ nl) (texts h bs1))) eqn:E1.
  { apply falsy_true, Hemp in E1. by rewrite E1. }
  destruct (falsy (join (nl +:+ nl) (texts h bs2))) eqn:E2.
  { apply falsy_true, Hemp in E2. by rewrite E2, app_nil_r. }
  apply join_app.
  - intros Hn. rewrite Hn in E1. done.
  - intros Hn. rewrite Hn in E2. done.
Qed.

Definition hello_block : ContentBlock :=
  ContentBlock.mk "text" {[ "content" := JStr "Hello" ]}.

Definition code_block : ContentBlock :=
  ContentBlock.mk "code" {[ "language" := JStr "js"; "code" := JStr "f()" ]}.

Lemma fallback_app_witness :
  blocksToTextFallback [] ([hello_block] ++ [code_block])
  = glue (blocksToTextFallback [] [hello_block]) (blocksToTextFallback [] [code_block])
  ∧ (blocksToTextFallback [] [hello_block] = ""
     ↔ Forall (λ b, block_text [] b = "") [hello_block]).
Proof.
  apply fallback_app; apply Forall_singleton, readable_strings; intros p v.
  - intros [<- <-]%lookup_singleton_Some. split; [done|by eexists].
  - intros [[<- <-]|[_ [<- <-]%lookup_singleton_Some]]%lookup_insert_Some;
      (split; [done|by eexists]).
Defined.

End Blocks.

(** ** [examples/frontend/useStreamingQuery.ts]: from chunks to lines

    The read loop appends the decoded text of each chunk to [buffer], splits
    the buffer at line feeds, handles every piece but the last, and keeps the
    last piece as the new buffer.  A chunk is given here by its decoded text
    (the decoder runs with [stream: true], so the texts of the chunks
    concatenate to the text of the stream). *)

Module Framing.
Import JsString JsText JsSplit SseParser Hook.

Definition LF : ascii := "010"%char.

(** [buffer += text; const lines = buffer.split('\n'); buffer = lines.pop() || '']:
    the lines to handle and the new buffer. *)
Definition feed (buffer text : string) : list string * string :=
  let lines := split LF (buffer +:+ text) in
  (removelast lines, or_default (last lines) "").

(** The lines handled over a sequence of chunks, and the buffer left. *)
Fixpoint feed_all (buffer : string) (chunks : list string) : list string * string :=
  match chunks with
  | [] => ([], buffer)
  | text :: chunks' =>
      let '(lines, buffer) := feed buffer text in
      let '(lines', buffer) := feed_all buffer chunks' in
      (lines ++ lines', buffer)
  end.

(** [line.startsWith('data: ')] and [line.slice(6)]: the text handed to
    [JSON.parse], for a line the loop does not skip. *)
Definition payload (line : string) : option string :=
  if startsWith "data: " line then Some (drop 6 line) else None.

Lemma or_default_Some x : or_default (Some x) "" = x.
Proof. by destruct x. Qed.

Lemma removelast_cons {A} (x y : A) l :
  removelast (x :: y :: l) = x :: removelast (y :: l).
Proof. done. Qed.

Lemma last_cons2 {A} (x y : A) l : last (x :: y :: l) = last (y :: l).
Proof. done. Qed.

Lemma removelast_last (l : list string) :
  l ≠ [] → removelast l ++ [or_default (last l) ""] = l.
Proof.
  induction l as [|x l IH]; [done|]. intros _.
  destruct l as [|y l].
  - simpl. by destruct x.
  - rewrite removelast_cons, last_cons2. simpl. f_equal. by apply IH.
Qed.

(** Splitting a text given in two parts: the pieces of the first part but
    the last are final, and the last one goes on into the second part. *)
Lemma split_append d s1 s2 :
  split d (s1 +:+ s2)
  = removelast (split d s1)
    ++ split d (or_default (last (split d s1)) "" +:+ s2).
Proof.
  induction s1 as [|c s1 IH]; [done|].
  rewrite append_cons. simpl. rewrite IH.
  pose proof (split_not_nil d s1) as Hn.
  destruct (Ascii.eqb c d) eqn:E.
  - destruct (split d s1) as [|w ws]; [done|].
    by rewrite removelast_cons, last_cons2.
  - destruct (split d s1) as [|w [|w2 ws]]; [done| |].
    + simpl. rewrite E. by destruct w.
    + by rewrite !removelast_cons, !last_cons2.
Qed.

Lemma last_piece d s : count_char d (or_default (last (split d s)) "") = 0.
Proof.
  pose proof (split_pieces d s) as Hp. pose proof (split_not_nil d s) as Hn.
  destruct (last (split d s)) as [x|] eqn:E; [|done].
  apply last_Some_elem_of in E.
  rewrite Forall_forall in Hp. specialize (Hp x E).
  by destruct x.
Qed.

Lemma feed_all_spec buffer chunks :
  count_char LF buffer = 0 →
  (feed_all buffer chunks).1 ++ [(feed_all buffer chunks).2]
  = split LF (buffer +:+ concat_all chunks).
Proof.
  revert buffer. induction chunks as [|text chunks IH]; intros buffer Hb.
  - simpl. change (concat_all []) with "". rewrite append_empty_r.
    by rewrite split_piece.
  - change (concat_all (text :: chunks)) with (text +:+ concat_all chunks).
    rewrite <-append_assoc, split_append.
    specialize (IH (or_default (last (split LF (buffer +:+ text))) "")
                  (last_piece LF _)).
    rewrite <-IH. simpl. unfold feed.
    destruct (feed_all _ chunks) as [lines' buffer']. simpl.
    by rewrite <-app_assoc.
Qed.

(** X11.  The lines the read loop has handled, followed by the buffer it
    keeps, are the pieces of the whole text received, cut at the line feeds:
    joined with line feeds they give the text back, no piece holds a line
    feed, and neither the lines nor the buffer depend on how the text was cut
    into chunks. *)
Theorem lines_independent_of_chunking (chunks : list string) :
  let lines := (feed_all "" chunks).1 in
  let buffer := (feed_all "" chunks).2 in
  lines ++ [buffer] = split LF (concat_all chunks)
  ∧ join (sep LF) (lines ++ [buffer]) = concat_all chunks
  ∧ Forall (λ l, count_char LF l = 0) (lines ++ [buffer])
  ∧ (∀ chunks', concat_all chunks' = concat_all chunks →
       feed_all "" chunks' = feed_all "" chunks).
Proof.
  pose proof (feed_all_spec "" chunks eq_refl) as H. simpl in H.
  cbv zeta. split_and!.
  - done.
  - rewrite H. apply join_split.
  - rewrite H. apply split_pieces.
  - intros chunks' Heq.
    pose proof (feed_all_spec "" chunks' eq_refl) as H'. simpl in H'.
    rewrite Heq, <-H in H'. apply app_inj_tail in H' as [H1 H2].
    destruct (feed_all "" chunks'), (feed_all "" chunks). simpl in *. congruence.
Qed.

(** X12.  A line the loop of the hook does not skip, [line.startsWith('data: ')],
    is a [data:] line for [SSEParser], and the payload the parser reads from
    it is the trimmed [line.slice(6)] of the hook. *)
Theorem hook_payload_is_parser_payload (line p : string) :
  payload line = Some p →
  startsWith "data:" line = true ∧ payload_of line = trim p.
Proof.
  unfold payload. destruct (startsWith "data: " line) eqn:E; [|done].
  intros [= <-].
  repeat (apply startsWith_cons in E as (? & -> & E)).
  done.
Qed.

Lemma hook_payload_is_parser_payload_witness :
  startsWith "data:" "data:  true " = true ∧ payload_of "data:  true " = trim " true ".
Proof. by apply hook_payload_is_parser_payload. Defined.

(** The converse fails: without the blank after the colon the line is a
    [data:] line for [SSEParser] and is skipped by the loop. *)
Example data_line_without_blank :
  payload "data:true" = None ∧ startsWith "data:" "data:true" = true.
Proof. done. Qed.

End Framing.

(** ** [examples/frontend/useStreamingQuery.ts]: before the stream is read

    What [streamQuery] does between the call of [fetch] and the read loop,
    with the [catch] block that receives what this part throws. *)

Module Request.
Import JsString JsText Hook StreamQuery.

(** The thrown value as the [catch] block reads it: its [name] and its
    [message], each a string or missing. *)
Record Error := { name : option string; message : option string }.

(** [new Error(message)] *)
Definition new_Error (message : string) : Error :=
  {| name := Some "Error"; message := Some message |}.

(** [err.message?.includes(s)], read as a condition. *)
Definition message_includes (err : Error) (s : string) : bool :=
  match message err with
  | Some m => includes s m
  | None => false
  end.

Definition connect_msg : string :=
  "Cannot connect to API server. Please check your network connection.".
Definition cancelled_msg : string := "Request was cancelled. Please try again.".
Definition generic_msg : string := "An error occurred while processing your query".

(** The message the [catch] block derives from the thrown value. *)
Definition errorMessage_of (err : Error) : string :=
  if bool_decide (name err = Some "TypeError")
     && (message_includes err "Failed to fetch" || message_includes err "ERR_NETWORK")
  then connect_msg
  else if bool_decide (name err = Some "AbortError") then cancelled_msg
  else match message err with
       | Some m => if falsy m then generic_msg else m
       | None => generic_msg
       end.

(** The response of [fetch] as the hook reads it: [response.ok],
    [response.status], and whether [response.body?.getReader()] gives a
    reader. *)
Record Response := { ok : bool; status : N; body : bool }.

Inductive Fetched :=
| rejected (err : Error)
| resolved (res : Response).

(** The calls this part makes: those of the loop, and [onAuthError]. *)
Inductive Call :=
| onAuthError
| callback (o : Output).

(** How the [try] block goes on: it returns, it throws, or it has a reader
    and enters the loop. *)
Inductive Exit :=
| returns
| throws (err : Error)
| reads.

Definition final (content : string) : Output :=
  onMessageUpdate (Update.mk (Some content) None None (Some false) None).

Definition no_body_msg : string := "No response body received from server".

(** The [try] block up to the loop; [onAuthError_given] tells whether the
    options hold an [onAuthError]. *)
Definition open (onAuthError_given : bool) (f : Fetched) : list Call * Exit :=
  match f with
  | rejected err => ([], throws err)
  | resolved res =>
      if negb (ok res) then
        if (status res =? 401)%N && onAuthError_given then
          ([onAuthError], returns)
        else
          let errorText := "HTTP error! status: " +:+ pretty (status res) in
          ([callback (onError errorText)], throws (new_Error errorText))
      else if negb (body res) then
        ([callback (final no_body_msg); callback (onError no_body_msg)],
         throws (new_Error no_body_msg))
      else ([], reads)
  end.

(** The calls of the [catch] block. *)
Definition caught (err : Error) : list Call :=
  let errorMessage := errorMessage_of err in
  [callback (onError errorMessage); callback (final errorMessage)].

(** The calls made before the loop, and whether the loop is entered. *)
Definition connect (onAuthError_given : bool) (f : Fetched) : list Call * bool :=
  match open onAuthError_given f with
  | (calls, returns) => (calls, false)
  | (calls, throws err) => (calls ++ caught err, false)
  | (calls, reads) => (calls, true)
  end.

Lemma errorMessage_of_nonempty err : errorMessage_of err ≠ "".
Proof.
  unfold errorMessage_of. destruct (_ && _); [done|].
  destruct (bool_decide _); [done|].
  destruct (message err) as [[|c m]|]; done.
Qed.

Lemma errorMessage_of_new_Error m : m ≠ "" → errorMessage_of (new_Error m) = m.
Proof. by destruct m. Qed.

(** The calls of [onError] in a log, in order. *)
Definition errors (calls : list Call) : list string :=
  omap (λ c, match c with callback (onError m) => Some m | _ => None end) calls.

(** X13.  Before the read loop.  The loop is entered exactly when [fetch]
    resolves with [response.ok] and a body, and no callback has been called
    by then.  Otherwise either the status is 401 and an [onAuthError] was
    given, which is the one call made, or the calls end with [onError(m)] and
    an update [{ content: m, streaming: false }] for a message [m] that is
    not empty: when [fetch] resolved, [onError] has been called twice with
    [m]; when [fetch] rejected, these two calls are the only ones and [m] is
    the message the [catch] block derives from the exception. *)
Theorem failures_before_the_stream (given : bool) (f : Fetched) :
  let '(calls, entered) := connect given f in
  (entered = true ↔ ∃ r, f = resolved r ∧ ok r = true ∧ body r = true)
  ∧ (entered = true → calls = [])
  ∧ (entered = false →
       (calls = [onAuthError]
        ∧ ∃ r, f = resolved r ∧ ok r = false ∧ status r = 401%N ∧ given = true)
       ∨ ∃ before m, calls = before ++ [callback (onError m); callback (final m)]
                     ∧ m ≠ ""
                     ∧ (∀ r, f = resolved r → errors calls = [m; m])
                     ∧ (∀ err, f = rejected err →
                          before = [] ∧ m = errorMessage_of err)).
Proof.
  unfold connect, open. destruct f as [err|r]; simpl.
  - split_and!; [split; [done|by intros (? & ? & _)]|done|].
    intros _. right. exists [], (errorMessage_of err).
    split_and!; [done|apply errorMessage_of_nonempty|done|].
    by intros ? [= <-].
  - destruct (ok r) eqn:Hok; simpl.
    + destruct (body r) eqn:Hb; simpl.
      * split_and!; [split; [by eexists|done]|done..].
      * split_and!; [split; [done|by intros (? & [= <-] & _ & ?); congruence]|done|].
        intros _. right. eexists [_; _], _. split_and!; [done..|].
        by intros ? [=].
    + destruct ((status r =? 401)%N && given) eqn:Hauth; simpl.
      * apply andb_true_iff in Hauth as [Hs%N.eqb_eq ->].
        split_and!; [split; [done|by intros (? & [= <-] & ? & _); congruence]|done|].
        intros _. left. split; [done|]. by exists r.
      * split_and!; [split; [done|by intros (? & [= <-] & ? & _); congruence]|done|].
        intros _. right. eexists [_], _. split_and!; [done..|].
        by intros ? [=].
Qed.

End Request.

(** ** [examples/frontend/useStreamingQuery.ts]: what the loop delivers *)

Module Delivery.
Import JsString Hook StreamQuery.

(** An update with [streaming: false] has a content that is not empty. *)
Definition good_update (u : Update.t) : Prop :=
  is_final u = true → ∃ t, Update.content u = Some t ∧ t ≠ "".

(** The update of an animation frame: [streaming: true] with blocks. *)
Definition is_snapshot (u : Update.t) : bool :=
  match Update.streaming u, Update.blocks u with
  | Some true, Some _ => true
  | _, _ => false
  end.

Definition snapshots (log : list Output) : nat :=
  length (List.filter is_snapshot (updates log)).

Definition is_frame (i : Input) : bool :=
  match i with frame => true | _ => false end.

Definition frames (ins : list Input) : nat := length (List.filter is_frame ins).

(** The message of a rejected read is the one the [catch] block derives. *)
Definition from_catch (i : Input) : Prop :=
  match i with
  | read_error m => ∃ err, m = Request.errorMessage_of err
  | _ => True
  end.

(** What a part of the loop adds to the log: good updates, no snapshots. *)
Definition plain (l : list Output) : Prop :=
  Forall good_update (updates l) ∧ snapshots l = 0.

Lemma snapshots_app l1 l2 : snapshots (l1 ++ l2) = snapshots l1 + snapshots l2.
Proof.
  unfold snapshots. by rewrite updates_app, List.filter_app, length_app.
Qed.

Lemma plain_nil : plain [].
Proof. split; [apply Forall_nil_2|done]. Qed.

Lemma plain_app l1 l2 : plain l1 → plain l2 → plain (l1 ++ l2).
Proof.
  intros [H1 S1] [H2 S2]. split.
  - rewrite updates_app. by apply Forall_app.
  - rewrite snapshots_app. lia.
Qed.

Lemma plain_other o : update_of o = None → plain [o].
Proof.
  intros H. unfold plain, snapshots, updates. simpl. rewrite H.
  split; [apply Forall_nil_2|done].
Qed.

Lemma plain_streaming c ci co :
  plain [onMessageUpdate (Update.mk c None ci (Some true) co)].
Proof. split; [|done]. apply Forall_singleton. by intros ?. Qed.

Lemma plain_final t b ci co :
  t ≠ "" → plain [onMessageUpdate (Update.mk (Some t) b ci (Some false) co)].
Proof.
  intros Ht. split; [|done]. apply Forall_singleton. intros _. by exists t.
Qed.

Lemma first_truthy_nonempty xs d : d ≠ "" → first_truthy xs d ≠ "".
Proof.
  intros Hd. induction xs as [|[x|] xs IH]; unfold first_truthy; simpl; [done| |done].
  destruct x; done.
Qed.

Lemma plain_silent l : updates l = [] → plain l.
Proof.
  intros H. unfold plain, snapshots. rewrite H. split; [apply Forall_nil_2|done].
Qed.

Lemma process_event_plain s e :
  ∃ l, out (process_event s e) = out s ++ l ∧ plain l.
Proof.
  destruct e as [?|?| |?|[]|?|?|?|mid score|e d m].
  1-10: simpl; loop_cases;
    first [ by exists []; rewrite app_nil_r; split; [|apply plain_nil]
          | eexists [_]; split; [done|];
            first [apply plain_streaming | by apply plain_other] ].
  - destruct (process_event_done s mid score) as (_ & _ & _ & _ & l & Hout & Hl).
    exists (l ++ [onMessageUpdate (done_update s score)]). split; [done|].
    apply plain_app; [by apply plain_silent|].
    apply plain_final. by apply first_truthy_nonempty.
  - destruct (process_event_error s e d m) as (_ & _ & _ & _ & _ & Hout).
    eexists. split; [exact Hout|].
    apply (plain_app [_] [_]); [|by apply plain_other].
    unfold error_update.
    pose proof (first_truthy_nonempty [e; d; m] "Stream error occurred") as Hm.
    destruct (fullResponse s) as [|c t] eqn:Hf; simpl.
    + apply plain_final. by apply Hm.
    + by apply plain_final.
Qed.

Lemma process_events_plain s es :
  ∃ l, out (process_events s es) = out s ++ l ∧ plain l.
Proof.
  revert s. induction es as [|e es IH]; intros s; simpl.
  { exists []. rewrite app_nil_r. split; [done|apply plain_nil]. }
  destruct (stopStreamingRef s).
  { exists []. rewrite app_nil_r. split; [done|apply plain_nil]. }
  destruct (process_event_plain s e) as (l1 & H1 & P1).
  destruct (IH (process_event s e)) as (l2 & H2 & P2).
  exists (l1 ++ l2). rewrite H2, H1, app_assoc. split; [done|by apply plain_app].
Qed.

Lemma finish_plain s : ∃ l, out (finish s) = out s ++ l ∧ plain l.
Proof.
  eexists. split; [apply finish_out|].
  destruct (receivedDoneEvent s); [apply plain_nil|].
  destruct (has_content s).
  { apply plain_final. by apply first_truthy_nonempty. }
  destruct (stopStreamingRef s); [apply plain_nil|].
  apply (plain_app [_] [_]); [by apply plain_final|by apply plain_other].
Qed.

Lemma finish_after_plain s l0 :
  plain l0 → ∃ l, out (finish (emit reader_cancel s)) = out s ++ l ∧ plain l.
Proof.
  intros _. destruct (finish_plain (emit reader_cancel s)) as (l & Hl & Pl).
  exists ([reader_cancel] ++ l). split.
  - rewrite Hl. simpl. by rewrite <-app_assoc.
  - apply plain_app; [by apply plain_other|done].
Qed.

(** What one move of the environment adds to the log. *)
Lemma step_adds s i :
  ∃ l, out (step s i) = out s ++ l
       ∧ (from_catch i → Forall good_update (updates l))
       ∧ snapshots l ≤ (if is_frame i then 1 else 0).
Proof.
  assert (Hnil : ∃ l, out s = out s ++ l
                      ∧ (from_catch i → Forall good_update (updates l))
                      ∧ snapshots l ≤ (if is_frame i then 1 else 0)).
  { exists []. rewrite app_nil_r. split_and!; [done|by intros _; apply Forall_nil_2|].
    unfold snapshots. simpl. lia. }
  assert (Hplain : ∀ l, plain l →
            (from_catch i → Forall good_update (updates l))
            ∧ snapshots l ≤ (if is_frame i then 1 else 0)).
  { intros l [H1 H2]. split; [done|]. rewrite H2. lia. }
  destruct i as [es| |msg| |ms|]; simpl.
  - destruct (reading s); [|done].
    destruct (begin_chunk_fields s) as (_ & _ & Ho & _).
    destruct (process_events_plain (begin_chunk s) es) as (l1 & H1 & P1).
    rewrite Ho in H1. unfold loop_head.
    destruct (stopStreamingRef (process_events (begin_chunk s) es)).
    + destruct (finish_after_plain (process_events (begin_chunk s) es) [] plain_nil)
        as (l2 & H2 & P2).
      exists (l1 ++ l2). rewrite H2, H1, app_assoc. split; [done|].
      by apply Hplain, plain_app.
    + exists l1. split; [done|]. by apply Hplain.
  - destruct (reading s); [|done].
    destruct (finish_plain s) as (l & Hl & Pl). exists l. split; [done|].
    by apply Hplain.
  - destruct (reading s); [|done].
    eexists. split; [apply catch_out|]. split; [|done].
    intros [err ->]. simpl. apply Forall_singleton.
    intros _. eexists. split; [done|].
    apply Request.errorMessage_of_nonempty.
  - destruct (pendingUpdate s); [|done].
    eexists [_]. split; [done|]. split; [|done].
    intros _. apply Forall_singleton. by intros ?.
  - destruct (timeoutRef _) as [deadline|]; [|done].
    destruct (deadline <=? _)%N; [|done].
    unfold timeout_callback. simpl.
    destruct (stopStreamingRef s) eqn:Hs; simpl.
    + rewrite andb_false_r. done.
    + rewrite andb_true_r.
      assert (plain [reader_cancel;
                     onMessageUpdate (Update.mk (Some timeoutMsg) None None (Some false) None);
                     onError timeoutMsg]) as Pt.
      { apply (plain_app [_] [_; _]); [by apply plain_other|].
        apply (plain_app [_] [_]); [by apply plain_final|by apply plain_other]. }
      destruct (reading s).
      * match goal with |- context [finish ?x] =>
          destruct (finish_plain x) as (l & Hl & Pl) end.
        eexists. rewrite Hl. simpl. rewrite <-!app_assoc. split; [done|].
        apply Hplain. by apply (plain_app [_; _; _]).
      * eexists. simpl. rewrite <-!app_assoc. split; [done|]. by apply Hplain.
  - destruct (reading s); [|done].
    match goal with |- context [finish ?x] =>
      destruct (finish_plain x) as (l & Hl & Pl) end.
    eexists. rewrite Hl. simpl. rewrite <-app_assoc. split; [done|].
    apply Hplain. apply (plain_app [_]); [by apply plain_other|done].
Qed.

Lemma run_cons s i ins : run s (i :: ins) = run (step s i) ins.
Proof. done. Qed.

(** X14.  Every update with [streaming: false] that a call of [streamQuery]
    delivers has a content that is not the empty string, whatever the stream
    holds and whenever the timer fires or the user stops, when a rejected
    read carries a message that the [catch] block derives. *)
Theorem final_content_nonempty (c : number) (ins : list Input) :
  Forall from_catch ins →
  Forall good_update (updates (out (run (init c) ins))).
Proof.
  assert (∀ s, Forall from_catch ins → Forall good_update (updates (out s)) →
               Forall good_update (updates (out (run s ins)))) as H.
  { induction ins as [|i ins IH]; intros s Hi Hs; [done|].
    apply Forall_cons in Hi as [Hi Hins]. rewrite run_cons. apply IH; [done|].
    destruct (step_adds s i) as (l & -> & Hl & _).
    rewrite updates_app. apply Forall_app. split; [done|by apply Hl]. }
  intros Hins. apply H; [done|apply Forall_nil_2].
Qed.

(** X15.  The updates that show the blocks of a stream in progress
    ([streaming: true] with [blocks]) are at most as many as the animation
    frames that have run, however many block events have arrived. *)
Theorem snapshots_bounded_by_frames (c : number) (ins : list Input) :
  snapshots (out (run (init c) ins)) ≤ frames ins.
Proof.
  assert (∀ s, snapshots (out (run s ins)) ≤ snapshots (out s) + frames ins) as H.
  { induction ins as [|i ins IH]; intros s; [simpl; unfold frames; simpl; lia|].
    rewrite run_cons. specialize (IH (step s i)).
    destruct (step_adds s i) as (l & Hl & _ & Hs).
    rewrite Hl, snapshots_app in IH. unfold frames in *. cbn [List.filter].
    destruct (is_frame i); cbn [length]; lia. }
  apply (H (init c)).
Qed.

Lemma final_content_nonempty_witness :
  Forall good_update
    (updates (out (run (init 0%Z)
                     [chunk [block (block_start "b" None)];
                      read_error (Request.errorMessage_of
                                    {| Request.name := Some "AbortError";
                                       Request.message := Some "" |})]))).
Proof.
  apply final_content_nonempty. repeat constructor. by eexists.
Defined.

(** *** After a terminal event *)

Lemma process_events_after_done s pre mid score post :
  process_events s (pre ++ done mid score :: post)
  = process_events s (pre ++ [done mid score]).
Proof.
  revert s. induction pre as [|e pre IH]; intros s; simpl.
  - destruct (stopStreamingRef s); [done|].
    by rewrite process_events_stopped.
  - destruct (stopStreamingRef s); [done|]. apply IH.
Qed.

Lemma process_events_after_error s pre e d m post :
  process_events s (pre ++ error e d m :: post)
  = process_events s (pre ++ [error e d m]).
Proof.
  revert s. induction pre as [|e0 pre IH]; intros s; simpl.
  - destruct (stopStreamingRef s); [done|].
    by rewrite process_events_stopped.
  - destruct (stopStreamingRef s); [done|]. apply IH.
Qed.

Definition terminal (e : Event) : bool :=
  match e with
  | done _ _ | error _ _ _ => true
  | _ => false
  end.

Lemma process_events_stops s es :
  existsb terminal es = true ∨ stopStreamingRef s = true →
  stopStreamingRef (process_events s es) = true.
Proof.
  revert s. induction es as [|e es IH]; intros s; simpl.
  { by intros [?|?]. }
  destruct (stopStreamingRef s) eqn:Hs; [done|].
  intros [Ht|?]; [|done]. apply IH.
  destruct e; simpl in *; auto.
Qed.

(** X16.  The events after a [done] or an [error] event in a chunk are not
    handled: the chunk leaves the state of the chunk cut after that event.
    After a chunk that holds a [done] or an [error] event the loop reads no
    more, and a later chunk changes nothing. *)
Theorem events_after_terminal_ignored (s : Loop) (pre post : list Event) :
  (∀ mid score,
     step s (chunk (pre ++ done mid score :: post))
     = step s (chunk (pre ++ [done mid score])))
  ∧ (∀ e d m,
       step s (chunk (pre ++ error e d m :: post))
       = step s (chunk (pre ++ [error e d m])))
  ∧ (∀ es later, existsb terminal es = true →
       reading (step s (chunk es)) = false
       ∧ step (step s (chunk es)) (chunk later) = step s (chunk es)).
Proof.
  split_and!.
  - intros mid score. simpl. by rewrite process_events_after_done.
  - intros e d m. simpl. by rewrite process_events_after_error.
  - intros es later Ht.
    assert (reading (step s (chunk es)) = false) as Hr.
    { simpl. destruct (reading s) eqn:Hr; [|done]. unfold loop_head.
      rewrite process_events_stops by by left. apply finish_quiet. }
    split; [done|]. remember (step s (chunk es)) as s1. simpl. by rewrite Hr.
Qed.

(** *** The confidence of the final update *)

Lemma step_confidence s i : confidence (step s i) = confidence s.
Proof.
  destruct i as [es| |msg| |ms|]; simpl.
  - destruct (reading s); [|done]. unfold loop_head.
    destruct (process_events_fields (begin_chunk s) es) as (_ & _ & Hc & _).
    destruct (begin_chunk_fields s) as (_ & _ & _ & _ & _ & _ & _ & _ & Hb).
    destruct (stopStreamingRef _); [|congruence].
    destruct (finish_fields (emit reader_cancel (process_events (begin_chunk s) es)))
      as (_ & _ & _ & ->). simpl. congruence.
  - destruct (reading s); [|done]. apply finish_fields.
  - by destruct (reading s).
  - by destruct (pendingUpdate s).
  - destruct (timeoutRef _); [|done]. destruct (_ <=? _)%N; [|done].
    unfold timeout_callback. simpl. destruct (stopStreamingRef s); simpl.
    + rewrite andb_false_r. done.
    + rewrite andb_true_r. destruct (reading s); [|done].
      match goal with |- context [finish ?x] =>
        destruct (finish_fields x) as (_ & _ & _ & ->) end. done.
  - destruct (reading s); [|done].
    match goal with |- context [finish ?x] =>
      destruct (finish_fields x) as (_ & _ & _ & ->) end. done.
Qed.

Lemma reachable_confidence c s : reachable c s → confidence s = c.
Proof. induction 1; [done|by rewrite step_confidence]. Qed.

Lemma done_sets_confidence s mid score :
  setConfidence (default (confidence s) score)
  ∈ out (process_event s (done mid score)).
Proof.
  simpl. destruct mid as [i|]; [destruct (falsy i)|]; simpl;
    rewrite !elem_of_app; left; right; apply list_elem_of_singleton; done.
Qed.

(** X17.  The final update of a [done] event carries the confidence score of
    the event or, when the event has none, the confidence that [streamQuery]
    captured when it was created: the [confidence_update] events of the same
    call do not change it.  The same value is given to [setConfidence]. *)
Theorem done_confidence_captured (c : number) (s : Loop)
    (pre post : list Event) (mid : option string) (score : option number) :
  reachable c s → reading s = true → Forall non_terminal pre →
  let s' := step s (chunk (pre ++ done mid score :: post)) in
  (∃ before u, updates (out s') = before ++ [u]
               ∧ Update.streaming u = Some false
               ∧ Update.confidence u = Some (default c score))
  ∧ setConfidence (default c score) ∈ out s'.
Proof.
  intros R Hr Hpre s'. pose proof (reachable_inv c s R) as I.
  destruct (inv_calm s I Hr) as (Hs & Hd & Hn).
  assert (Hc : calm (begin_chunk s)).
  { apply begin_chunk_calm. by split_and!. }
  destruct (chunk_done s pre mid score post Hc Hpre) as [Heq Hc1].
  set (s1 := process_events (begin_chunk s) pre) in *.
  assert (Hconf : confidence s1 = c).
  { unfold s1. destruct (process_events_fields (begin_chunk s) pre)
      as (_ & _ & -> & _).
    destruct (begin_chunk_fields s) as (_ & _ & _ & _ & _ & _ & _ & _ & ->).
    by apply reachable_confidence. }
  destruct (process_event_done s1 mid score)
    as (Hst & Hdone & _ & _ & l & Hout & Hl).
  pose proof (done_sets_confidence s1 mid score) as Hset.
  remember (process_event s1 (done mid score)) as s2 eqn:Hs2.
  assert (Hout' : out s' = out s2 ++ [reader_cancel]).
  { unfold s'. simpl. rewrite Hr, Heq. unfold loop_head. rewrite Hst.
    rewrite finish_out. simpl. rewrite Hdone. by rewrite app_nil_r. }
  split.
  - exists (updates (out s1)), (done_update s1 score).
    rewrite Hout', Hout, !updates_app, Hl. simpl.
    rewrite app_nil_r. split; [done|]. split; [done|].
    simpl. by rewrite Hconf.
  - rewrite Hout', <-Hconf. apply elem_of_app. by left.
Qed.

(** *** Batching by animation frames *)

(** The block events whose handlers always call [scheduleUpdate]; a
    [block_end] calls it only for an open block. *)
Definition schedules (e : Event) : bool :=
  match e with
  | block (block_start _ _) | block (block_delta _ _ _) => true
  | _ => false
  end.

Lemma process_event_pending_kept s e :
  non_terminal e → pendingUpdate s = true →
  pendingUpdate (process_event s e) = true.
Proof.
  intros He Hp. destruct e as [?|?| |?|[]|?|?|?|? ?|? ? ?]; try done;
    simpl; loop_cases; done.
Qed.

Lemma process_event_schedules s e :
  Hook.reachable (asm s) → schedules e = true →
  pendingUpdate (process_event s e) = true.
Proof.
  intros Ha He. destruct e as [?|?| |?|[id bt|id p v|]|?|?|?|? ?|? ? ?]; try done.
  - simpl. unfold scheduleUpdate. simpl.
    destruct (pendingUpdate s) eqn:E; simpl; done.
  - simpl.
    destruct (on_block_delta_step id p v (asm s) (Hook.reachable_wf _ Ha))
      as (? & ? & ? & _ & _ & _ & ->).
    unfold scheduleUpdate. simpl.
    destruct (pendingUpdate s) eqn:E; simpl; done.
Qed.

Lemma process_events_pending s es :
  Forall non_terminal es → calm s → Hook.reachable (asm s) →
  pendingUpdate s = true ∨ existsb schedules es = true →
  pendingUpdate (process_events s es) = true.
Proof.
  revert s. induction es as [|e es IH]; intros s Hes Hc Ha Hp.
  { by destruct Hp. }
  apply Forall_cons in Hes as [He Hes]. simpl.
  destruct Hc as (Hs & Hc). rewrite Hs. apply IH; [done| | |].
  - apply process_event_calm; [done|by split].
  - destruct (process_event_asm s e) as [->|[b ->]]; [done|].
    by apply Hook.reachable_step.
  - simpl in Hp. destruct Hp as [Hp|[Hp|Hp]%orb_true_iff].
    + left. by apply process_event_pending_kept.
    + left. by apply process_event_schedules.
    + by right.
Qed.

(** The update an animation frame delivers in state [s]. *)
Definition frame_update (s : Loop) : Update.t :=
  Update.mk (Some (blocksToTextFallback (heap (asm s)) (currentBlocks s)))
    (Some (Some (currentBlocks s))) None (Some true) None.

(** X18.  After a chunk with at least one [block_start] or [block_delta]
    event, and no [done] or [error] event, the loop reads on and the next
    animation frame delivers one update, with the current blocks and their
    text fallback.  A second frame delivers nothing more, and a frame leaves
    the blocks as they are. *)
Theorem block_events_batched (c : number) (s : Loop) (es : list Event) :
  reachable c s → reading s = true →
  Forall non_terminal es → existsb schedules es = true →
  let s1 := step s (chunk es) in
  reading s1 = true
  ∧ out (step s1 frame) = out s1 ++ [onMessageUpdate (frame_update s1)]
  ∧ step (step s1 frame) frame = step s1 frame
  ∧ asm (step s1 frame) = asm s1.
Proof.
  intros R Hr Hes Hex s1. pose proof (reachable_inv c s R) as I.
  destruct (inv_calm s I Hr) as (Hs & Hd & Hn).
  assert (Hc : calm (begin_chunk s)).
  { apply begin_chunk_calm. by split_and!. }
  destruct (begin_chunk_fields s) as (Ha & _ & _ & Hr' & _).
  assert (Hreach : Hook.reachable (asm (begin_chunk s))).
  { rewrite Ha. apply I. }
  pose proof (process_events_calm _ es Hes Hc) as (Hs1 & _).
  pose proof (process_events_pending _ es Hes Hc Hreach (or_intror Hex)) as Hp.
  destruct (process_events_fields (begin_chunk s) es) as (Hr1 & _).
  assert (Heq : s1 = process_events (begin_chunk s) es).
  { unfold s1. simpl. rewrite Hr. unfold loop_head. by rewrite Hs1. }
  rewrite Heq. set (s2 := process_events (begin_chunk s) es) in *.
  split; [by rewrite Hr1, Hr'|].
  simpl. rewrite Hp. simpl. done.
Qed.

(** A stream whose first chunk has started a block and sent it a delta. *)
Definition two_events : Loop :=
  step (init 0%Z)
    (chunk [block (block_start "b" None); block (block_delta "b" "content" "x")]).

Lemma block_events_batched_witness :
  reading two_events = true
  ∧ out (step two_events frame)
    = out two_events ++ [onMessageUpdate (frame_update two_events)]
  ∧ step (step two_events frame) frame = step two_events frame
  ∧ asm (step two_events frame) = asm two_events.
Proof.
  apply (block_events_batched 0%Z (init 0%Z)
           [block (block_start "b" None); block (block_delta "b" "content" "x")]
           (reachable_init 0%Z) eq_refl).
  - repeat constructor.
  - reflexivity.
Defined.

Lemma done_confidence_captured_witness :
  (∃ before u,
     updates (out (step (init 7%Z)
                     (chunk ([confidence_update (Some 9%Z)]
                             ++ done None None :: []))))
     = before ++ [u]
     ∧ Update.streaming u = Some false
     ∧ Update.confidence u = Some 7%Z)
  ∧ setConfidence 7%Z
    ∈ out (step (init 7%Z)
             (chunk ([confidence_update (Some 9%Z)] ++ done None None :: []))).
Proof.
  apply (done_confidence_captured 7%Z (init 7%Z) [confidence_update (Some 9%Z)] []
           None None (reachable_init 7%Z) eq_refl).
  repeat constructor.
Defined.

End Delivery.

(** ** [examples/frontend/useStreamingQuery.ts]: a stream of block events

    A stream that carries block events only, cut into chunks in any way,
    with animation frames in between. *)

Module BlockStream.
Import JsString Hook StreamQuery Delivery Blocks.

Definition is_block (e : Event) : bool :=
  match e with block _ => true | _ => false end.

(** A chunk of block events, or an animation frame. *)
Definition block_input (i : Input) : Prop :=
  match i with
  | chunk es => Forall (λ e, is_block e = true) es
  | frame => True
  | _ => False
  end.

Definition blocks_of (es : list Event) : list BlockEvent :=
  omap (λ e, match e with block b => Some b | _ => None end) es.

(** The block events of the chunks, in order. *)
Fixpoint block_events (ins : list Input) : list BlockEvent :=
  match ins with
  | [] => []
  | chunk es :: ins' => blocks_of es ++ block_events ins'
  | _ :: ins' => block_events ins'
  end.

(** The assembler after the first [n] of the events [es]. *)
Definition after (es : list BlockEvent) (n : nat) : Assembler :=
  assemble_all initial (take n es).

(** The text fallback of the snapshot of an assembler state. *)
Definition text_of (a : Assembler) : string :=
  blocksToTextFallback (heap a) (snapshot a).

(** The update an animation frame delivers for the assembler state [a]. *)
Definition snapshot_update (a : Assembler) : Update.t :=
  Update.mk (Some (text_of a)) (Some (Some (snapshot a))) None (Some true) None.

(** The update of the [done] handler for the assembler state [a], when
    [fullResponse] holds [r]. *)
Definition final_update (c : number) (a : Assembler) (r : string)
    (score : option number) : Update.t :=
  Update.mk (Some (first_truthy [Some (text_of a); Some r] "No response received."))
    (Some (blocks_or_undefined (snapshot a))) (Some []) (Some false)
    (Some (default c score)).

(** The text shown last, if any. *)
Definition shown_last (es : list BlockEvent) (ns : list nat) : string :=
  match last ns with
  | Some n => text_of (after es n)
  | None => ""
  end.

Lemma process_event_block s b :
  asm (process_event s (block b)) = assemble (asm s) b
  ∧ reading (process_event s (block b)) = reading s
  ∧ stopStreamingRef (process_event s (block b)) = stopStreamingRef s
  ∧ receivedDoneEvent (process_event s (block b)) = receivedDoneEvent s
  ∧ citations_ (process_event s (block b)) = citations_ s
  ∧ confidence (process_event s (block b)) = confidence s
  ∧ fullResponse (process_event s (block b)) = fullResponse s
  ∧ out (process_event s (block b)) = out s.
Proof.
  destruct b as [i bt|i p v|i pa0]; simpl.
  - unfold scheduleUpdate. simpl. by destruct (pendingUpdate s).
  - destruct (on_block_delta i p v (asm s)) as [[e|[]] a]; simpl; [done|].
    unfold scheduleUpdate. simpl. by destruct (pendingUpdate s).
  - destruct (on_block_end i pa0 (asm s)) as [[] a]; simpl; [|done].
    unfold scheduleUpdate. simpl. by destruct (pendingUpdate s).
Qed.

Lemma after_step es n b :
  es !! n = Some b → assemble (after es n) b = after es (S n).
Proof.
  intros Hb. unfold after, assemble_all.
  by rewrite (take_S_r _ _ _ Hb), foldl_app.
Qed.

Section stream.
Variables (c : number) (es : list BlockEvent).

(** The loop has handled the first [n] of the events [es] and has
    delivered, in this order, the snapshots of the states after [ns] of
    them. *)
Record J (s : Loop) (n : nat) (ns : list nat) : Prop := {
  J_reading : reading s = true;
  J_stop : stopStreamingRef s = false;
  J_done : receivedDoneEvent s = false;
  J_citations : citations_ s = [];
  J_confidence : confidence s = c;
  J_asm : asm s = after es n;
  J_le : n ≤ length es;
  J_pending : n = 0 → pendingUpdate s = false;
  J_fresh : pendingUpdate s = true → Forall (λ k, k < n) ns;
  J_out : updates (out s) = (λ k, snapshot_update (after es k)) <$> ns;
  J_sorted : StronglySorted lt ns;
  J_bound : Forall (λ k, 1 ≤ k ≤ n) ns;
  J_response : fullResponse s = shown_last es ns
}.

Lemma J_init : J (init c) 0 [].
Proof. split; try done; [simpl; lia|constructor]. Qed.

Lemma J_event s n ns b :
  J s n ns → es !! n = Some b → J (process_event s (block b)) (S n) ns.
Proof.
  intros [] Hb.
  destruct (process_event_block s b) as (Ha & Hr & Hs & Hd & Hc & Hf & Hfr & Ho).
  split; try congruence.
  - rewrite Ha, J_asm0. by apply after_step.
  - by apply lookup_lt_Some in Hb.
  - intros _. eapply Forall_impl; [done|]. simpl. lia.
  - eapply Forall_impl; [done|]. simpl. lia.
Qed.

Lemma J_events bs : ∀ s n ns,
  J s n ns →
  (∀ k b, bs !! k = Some b → es !! (n + k) = Some b) →
  J (process_events s (block <$> bs)) (n + length bs) ns.
Proof.
  induction bs as [|b bs IH]; intros s n ns HJ Hbs.
  { simpl. by rewrite Nat.add_0_r. }
  simpl. rewrite (J_stop _ _ _ HJ).
  replace (n + S (length bs)) with (S n + length bs) by lia.
  apply IH.
  - apply J_event; [done|]. specialize (Hbs 0 b eq_refl).
    by rewrite Nat.add_0_r in Hbs.
  - intros k b' Hk. replace (S n + k) with (n + S k) by lia. by apply Hbs.
Qed.

Lemma blocks_of_chunk evs :
  Forall (λ e, is_block e = true) evs → evs = block <$> blocks_of evs.
Proof.
  induction 1 as [|e evs He _ IH]; [done|].
  destruct e; try done. unfold blocks_of. simpl. f_equal. exact IH.
Qed.

Lemma J_begin_chunk s n ns : J s n ns → J (begin_chunk s) n ns.
Proof.
  intros []. unfold begin_chunk.
  destruct (timeoutRef s); [destruct (falsy _)|]; by split.
Qed.

Lemma J_chunk s n ns evs :
  J s n ns → Forall (λ e, is_block e = true) evs →
  (∀ k b, blocks_of evs !! k = Some b → es !! (n + k) = Some b) →
  J (step s (chunk evs)) (n + length (blocks_of evs)) ns.
Proof.
  intros HJ Hes Hbs. simpl. rewrite (J_reading _ _ _ HJ).
  pose proof (J_events (blocks_of evs) _ _ _ (J_begin_chunk _ _ _ HJ) Hbs) as HJ'.
  rewrite <-(blocks_of_chunk evs Hes) in HJ'. unfold loop_head.
  by rewrite (J_stop _ _ _ HJ').
Qed.

Lemma J_frame s n ns : J s n ns → ∃ ns', J (step s frame) n ns'.
Proof.
  intros HJ. simpl. destruct (pendingUpdate s) eqn:Hp; [|by exists ns].
  destruct n as [|m].
  { by rewrite (J_pending _ _ _ HJ eq_refl) in Hp. }
  destruct HJ. exists (ns ++ [S m]).
  split; simpl; try done.
  - unfold currentBlocks. simpl. rewrite J_asm0.
    by rewrite updates_app, fmap_app, J_out0.
  - apply StronglySorted_app. split_and!; [|done|repeat constructor].
    intros x1 x2 Hx1 ->%list_elem_of_singleton.
    specialize (J_fresh0 Hp). rewrite Forall_forall in J_fresh0.
    by apply J_fresh0.
  - apply Forall_app. split; [done|]. apply Forall_singleton. lia.
  - unfold shown_last, currentBlocks. simpl. by rewrite last_snoc, J_asm0.
Qed.

Lemma J_run ins : ∀ s n ns,
  J s n ns → Forall block_input ins → block_events ins = skipn n es →
  ∃ ns', J (run s ins) (length es) ns'.
Proof.
  induction ins as [|i ins IH]; intros s n ns HJ Hins Hev.
  - exists ns. apply (f_equal length) in Hev. rewrite length_drop in Hev.
    change (length (block_events [])) with 0 in Hev.
    pose proof (J_le _ _ _ HJ) as Hle.
    replace (length es) with n by lia. done.
  - apply Forall_cons in Hins as [Hi Hins]. rewrite run_cons.
    destruct i as [evs| | | | |]; try done.
    + simpl in Hev.
      apply (IH _ (n + length (blocks_of evs)) ns); [|done|].
      * apply J_chunk; [done..|]. intros k b Hk.
        rewrite <-lookup_drop, <-Hev. by apply lookup_app_l_Some.
      * by rewrite <-drop_drop, <-Hev, drop_app_length.
    + destruct (J_frame s n ns HJ) as [ns1 HJ1].
      by apply (IH _ n ns1).
Qed.

(** The [done] event, in a chunk of its own, after the events [es]. *)
Lemma J_done_chunk s ns mid score :
  J s (length es) ns →
  quiet (step s (chunk [done mid score]))
  ∧ updates (out (step s (chunk [done mid score])))
    = updates (out s)
      ++ [final_update c (assemble_all initial es) (shown_last es ns) score].
Proof.
  intros HJ. pose proof (J_begin_chunk _ _ _ HJ) as HJ0.
  set (s0 := begin_chunk s) in *.
  destruct (process_event_done s0 mid score)
    as (Hst & Hdone & _ & _ & l & Hout & Hl).
  assert (Hdu : done_update s0 score
                = final_update c (assemble_all initial es) (shown_last es ns) score).
  { unfold done_update, final_update, currentBlocks, text_of, snapshot.
    rewrite (J_asm _ _ _ HJ0), (J_citations _ _ _ HJ0), (J_confidence _ _ _ HJ0),
      (J_response _ _ _ HJ0).
    unfold after. by rewrite firstn_all. }
  assert (Hout0 : out s0 = out s) by apply begin_chunk_fields.
  remember (process_event s0 (done mid score)) as s2 eqn:Hs2.
  assert (Heq : step s (chunk [done mid score]) = finish (emit reader_cancel s2)).
  { change (step s (chunk [done mid score]))
      with (if reading s then loop_head (process_events s0 [done mid score])
            else s).
    rewrite (J_reading _ _ _ HJ).
    change (process_events s0 [done mid score])
      with (if stopStreamingRef s0 then s0
            else process_event s0 (done mid score)).
    rewrite (J_stop _ _ _ HJ0), <-Hs2. unfold loop_head. by rewrite Hst. }
  rewrite Heq. split; [apply finish_quiet|].
  rewrite finish_out. simpl. rewrite Hdone, app_nil_r, !updates_app, Hout.
  rewrite !updates_app, Hl, Hdu, Hout0. simpl.
  by rewrite app_nil_r.
Qed.

End stream.

Lemma block_stream_run c ins :
  Forall block_input ins →
  ∃ ns, J c (block_events ins) (run (init c) ins) (length (block_events ins)) ns.
Proof.
  intros Hins.
  by apply (J_run c (block_events ins) ins (init c) 0 []); [apply J_init|..].
Qed.

(** X19.  A stream of block events only, cut into chunks in any way, with
    animation frames in between.  Every update delivered is the snapshot of
    the blocks after some number of the events, at least one, and these
    numbers increase strictly from one update to the next; the loop reads on
    and holds the blocks after all the events.  A [done] event then ends the
    call with one more update, which holds these blocks; its content is
    their text fallback or, when that is empty, the text shown last. *)
Theorem snapshots_show_prefixes (c : number) (ins : list Input)
    (mid : option string) (score : option number) :
  Forall block_input ins →
  let es := block_events ins in
  let s := run (init c) ins in
  ∃ ns,
    updates (out s) = (λ n, snapshot_update (after es n)) <$> ns
    ∧ StronglySorted lt ns
    ∧ Forall (λ n, 1 ≤ n ≤ length es) ns
    ∧ reading s = true
    ∧ asm s = assemble_all initial es
    ∧ quiet (step s (chunk [done mid score]))
    ∧ updates (out (step s (chunk [done mid score])))
      = updates (out s)
        ++ [final_update c (assemble_all initial es) (shown_last es ns) score].
Proof.
  intros Hins es s. destruct (block_stream_run c ins Hins) as [ns HJ].
  fold es s in HJ. exists ns.
  destruct (J_done_chunk c es s ns mid score HJ) as [Hq Hu].
  split_and!; [apply HJ..| | |done|done].
  - apply HJ.
  - rewrite (J_asm _ _ _ _ _ HJ). unfold after. by rewrite firstn_all.
Qed.

Definition sample_stream : list Input :=
  [chunk [block (block_start "b1" (Some "text"));
          block (block_delta "b1" "content" "Hi ")];
   frame;
   chunk [block (block_delta "b1" "content" "there");
          block (block_end "b1" None)]].

Lemma snapshots_show_prefixes_witness :
  ∃ ns,
    updates (out (run (init 0%Z) sample_stream))
    = (λ n, snapshot_update (after (block_events sample_stream) n)) <$> ns
    ∧ StronglySorted lt ns
    ∧ Forall (λ n, 1 ≤ n ≤ length (block_events sample_stream)) ns
    ∧ reading (run (init 0%Z) sample_stream) = true
    ∧ asm (run (init 0%Z) sample_stream)
      = assemble_all initial (block_events sample_stream)
    ∧ quiet (step (run (init 0%Z) sample_stream) (chunk [done None None]))
    ∧ updates (out (step (run (init 0%Z) sample_stream) (chunk [done None None])))
      = updates (out (run (init 0%Z) sample_stream))
        ++ [final_update 0%Z (assemble_all initial (block_events sample_stream))
              (shown_last (block_events sample_stream) ns) None].
Proof.
  apply (snapshots_show_prefixes 0%Z sample_stream None None).
  repeat constructor.
Defined.

Lemma sorted_pred (m : nat) (ns : list nat) :
  StronglySorted lt ns → Forall (λ k, 1 ≤ k ≤ m) ns →
  StronglySorted lt ((λ k, k - 1) <$> ns).
Proof.
  induction 1 as [|x ns Hs IH Hx]; intros Hb; [constructor|].
  apply Forall_cons in Hb as [Hx1 Hb]. csimpl. constructor; [by apply IH|].
  rewrite Forall_fmap. rewrite Forall_forall in *. intros y Hy. simpl.
  specialize (Hx y Hy). specialize (Hb y Hy). lia.
Qed.

Lemma process_event_done_asm s mid score :
  asm (process_event s (done mid score)) = asm s.
Proof. simpl. by destruct mid as [i|]; [destruct (falsy i)|]. Qed.

(** A stream whose block events are [es], followed by [done]: the updates
    it delivers, when [upd k] is the snapshot after [k] events and [final]
    the update of the [done] handler. *)
Lemma scripted_stream c es ins mid score (upd : nat → Update.t) (final : Update.t) :
  Forall block_input ins → block_events ins = es →
  (∀ k, 1 ≤ k ≤ length es → snapshot_update (after es k) = upd k) →
  (∀ r, final_update c (assemble_all initial es) r score = final) →
  let s := run (init c) (ins ++ [chunk [done mid score]]) in
  quiet s
  ∧ asm s = assemble_all initial es
  ∧ ∃ ns, updates (out s) = (upd <$> ns) ++ [final]
          ∧ StronglySorted lt ns
          ∧ Forall (λ k, 1 ≤ k ≤ length es) ns.
Proof.
  intros Hins Hes Hupd Hfinal s.
  destruct (block_stream_run c ins Hins) as [ns HJ]. rewrite Hes in HJ.
  unfold s, run. rewrite foldl_app. fold (run (init c) ins).
  set (s1 := run (init c) ins) in *.
  change (foldl step s1 [chunk [done mid score]])
    with (step s1 (chunk [done mid score])).
  destruct (J_done_chunk c es s1 ns mid score HJ) as [Hq Hu].
  split; [done|]. split.
  - change (step s1 (chunk [done mid score]))
      with (if reading s1
            then loop_head (process_events (begin_chunk s1) [done mid score])
            else s1).
    rewrite (J_reading _ _ _ _ _ HJ).
    change (process_events (begin_chunk s1) [done mid score])
      with (if stopStreamingRef (begin_chunk s1) then begin_chunk s1
            else process_event (begin_chunk s1) (done mid score)).
    pose proof (J_begin_chunk _ _ _ _ _ HJ) as HJ0.
    rewrite (J_stop _ _ _ _ _ HJ0). unfold loop_head.
    destruct (process_event_done (begin_chunk s1) mid score) as (-> & _).
    destruct (finish_fields
                (emit reader_cancel (process_event (begin_chunk s1) (done mid score))))
      as (-> & _).
    change (asm (emit reader_cancel ?x)) with (asm x).
    rewrite process_event_done_asm, (J_asm _ _ _ _ _ HJ0).
    unfold after. by rewrite firstn_all.
  - exists ns. split_and!; [|apply HJ..].
    rewrite Hu, (J_out _ _ _ _ _ HJ), Hfinal. f_equal.
    apply Forall_fmap_ext. eapply Forall_impl; [apply (J_bound _ _ _ _ _ HJ)|].
    intros k Hk. by apply Hupd.
Qed.

End BlockStream.

(** ** A text block from end to end

    The stream of one text block: its [block_start], deltas to [content]
    and its [block_end], followed by [done]. *)

Module TextStream.
Import JsString Hook StreamQuery Delivery Blocks BlockStream.

Section text_block.
Variables (c : number) (id ty : string) (vs : list string) (pa : option bool).

(** The content block that holds the values [ws] under [content]. *)
Definition text_block (ws : list string) : ContentBlock :=
  ContentBlock.mk ty (text_data "content" ws ∪ {[ "id" := JStr id ]}).

(** The update of an animation frame when the values [ws] have arrived. *)
Definition progress_update (ws : list string) : Update.t :=
  Update.mk (Some (concat_all ws)) (Some (Some [text_block ws])) None (Some true) None.

Definition text_final (score : option number) : Update.t :=
  Update.mk (Some (concat_all vs)) (Some (Some [text_block vs])) (Some [])
    (Some false) (Some (default c score)).

(** The events of the block. *)
Definition events : list BlockEvent :=
  block_start id (Some ty) :: (block_delta id "content" <$> vs) ++ [block_end id pa].

Definition open_state (ws : list string) : Assembler :=
  {| heap := [];
     streamingBlocks := [(id, with_data (fresh_block id ty) (text_data "content" ws))];
     completedBlocks := [] |}.

Definition closed_state : Assembler :=
  {| heap := []; streamingBlocks := []; completedBlocks := [text_block vs] |}.

(** The assembler after the first [n] events of the block. *)
Definition state_at (n : nat) : Assembler :=
  match n with
  | 0 => initial
  | S j => if decide (j ≤ length vs) then open_state (take j vs) else closed_state
  end.

Lemma length_events : length events = S (S (length vs)).
Proof. unfold events. simpl. rewrite length_app, length_fmap. simpl. lia. Qed.

Lemma events_lookup n e :
  events !! n = Some e →
  (n = 0 ∧ e = block_start id (Some ty))
  ∨ (∃ j v, n = S j ∧ vs !! j = Some v ∧ e = block_delta id "content" v)
  ∨ (n = S (length vs) ∧ e = block_end id pa).
Proof.
  unfold events. destruct n as [|j]; simpl.
  { intros [= <-]. by left. }
  intros H. right. apply lookup_app_Some in H as [H|[Hlen H]].
  - rewrite list_lookup_fmap in H.
    destruct (vs !! j) as [v|] eqn:E; [|done]. injection H as <-.
    left. by exists j, v.
  - rewrite length_fmap in *.
    destruct (j - length vs) as [|k] eqn:E; [|done].
    injection H as <-. right. split; [|done]. f_equal. lia.
Qed.

Lemma open_state_delta ws v :
  assemble (open_state ws) (block_delta id "content" v) = open_state (ws ++ [v]).
Proof.
  unfold assemble, on_block_delta, open_state.
  cbn [streamingBlocks heap completedBlocks].
  set (st := with_data (fresh_block id ty) (text_data "content" ws)).
  assert (Hh : map_has [(id, st)] id = true).
  { unfold map_has. simpl. by rewrite String.eqb_refl. }
  assert (Hg : map_get [(id, st)] id = Some st).
  { simpl. by rewrite String.eqb_refl. }
  rewrite Hh. cbn [negb]. rewrite Hg, applyBlockDelta_text by done.
  cbn [snd map_set]. rewrite String.eqb_refl.
  unfold st, with_data. simpl. by rewrite text_data_snoc.
Qed.

Lemma state_at_step n e :
  ty ≠ "" → events !! n = Some e → assemble (state_at n) e = state_at (S n).
Proof.
  intros Hty [[-> ->]|[(j & v & -> & Hv & ->)|[-> ->]]]%events_lookup.
  - simpl. unfold on_block_start, open_state. simpl. by destruct ty.
  - pose proof (lookup_lt_Some _ _ _ Hv) as Hlt.
    unfold state_at. rewrite !decide_True by lia.
    by rewrite open_state_delta, (take_S_r _ _ _ Hv).
  - unfold state_at. rewrite decide_True, decide_False by lia.
    rewrite take_ge by done. simpl. unfold on_block_end, open_state. simpl.
    by rewrite String.eqb_refl.
Qed.

Lemma after_state_at n :
  ty ≠ "" → n ≤ length events → after events n = state_at n.
Proof.
  intros Hty. induction n as [|n IH]; intros Hn; [done|].
  destruct (lookup_lt_is_Some_2 events n) as [e He]; [lia|].
  rewrite <-(after_step _ _ _ He), IH by lia. by apply state_at_step.
Qed.

Lemma state_at_snapshot n :
  snapshot (state_at (S n)) = [text_block (take n vs)]
  ∧ heap (state_at (S n)) = [].
Proof.
  unfold state_at. case_decide as Hn; [done|]. rewrite take_ge by lia. done.
Qed.

Lemma text_block_fallback h ws :
  ty = "text" ∨ ty = "markdown" →
  blocksToTextFallback h [text_block ws] = concat_all ws.
Proof.
  intros Hty. unfold blocksToTextFallback.
  assert (block_text h (text_block ws) = concat_all ws) as Ht.
  { unfold block_text, text_block. simpl.
    assert (String.eqb ty "text" || String.eqb ty "markdown" = true) as ->.
    { by destruct Hty as [-> | ->]. }
    destruct ws as [|w ws]; [done|].
    change (text_data "content" (w :: ws))
      with ({[ "content" := JStr (concat_all (w :: ws)) ]} : gmap string jsval).
    by erewrite lookup_union_Some_l by apply lookup_singleton_eq. }
  simpl. rewrite Ht, filter_cons. case_decide as Hd; [done|].
  apply not_false_iff_true, falsy_true in Hd. by rewrite Hd.
Qed.

Lemma first_truthy_head x xs d : x ≠ "" → first_truthy (Some x :: xs) d = x.
Proof. intros Hx. unfold first_truthy. by destruct x. Qed.

(** X20.  One text or markdown block, streamed as [block_start], one
    [block_delta] to [content] for each of the values [vs], and [block_end],
    then [done], with a text that is not empty.  Whatever the chunks and the
    frames, every update but the last shows the block with the first [j]
    values concatenated, for strictly increasing [j]; the last update is
    final, and its content and its block hold the whole text. *)
Theorem text_block_streams_progressively (ins : list Input)
    (mid : option string) (score : option number) :
  ty = "text" ∨ ty = "markdown" →
  Forall block_input ins → block_events ins = events → concat_all vs ≠ "" →
  let s := run (init c) (ins ++ [chunk [done mid score]]) in
  quiet s
  ∧ ∃ js, updates (out s)
          = ((λ j, progress_update (take j vs)) <$> js) ++ [text_final score]
          ∧ StronglySorted lt js.
Proof.
  intros Hty Hins Hev Hvs s.
  assert (Hne : ty ≠ "") by by destruct Hty as [-> | ->].
  destruct (scripted_stream c events ins mid score
              (λ k, progress_update (take (k - 1) vs)) (text_final score) Hins Hev)
    as (Hq & _ & ns & Hu & Hs & Hb).
  - intros [|k] Hk; [lia|]. rewrite after_state_at by (done || lia).
    unfold snapshot_update, text_of.
    destruct (state_at_snapshot k) as [-> ->].
    rewrite (text_block_fallback _ _ Hty).
    by replace (S k - 1) with k by lia.
  - intros r. unfold final_update, text_final, text_of.
    replace (assemble_all initial events) with (after events (length events))
      by (unfold after; by rewrite firstn_all).
    rewrite after_state_at, length_events by done.
    destruct (state_at_snapshot (S (length vs))) as [-> ->].
    rewrite take_ge by lia. rewrite (text_block_fallback _ _ Hty).
    by rewrite (first_truthy_head _ _ _ Hvs).
  - split; [done|]. exists ((λ k, k - 1) <$> ns). split.
    + by rewrite <-list_fmap_compose.
    + by apply (sorted_pred (length events)).
Qed.

End text_block.

Lemma text_block_streams_progressively_witness :
  ∃ js, updates (out (run (init 0%Z)
                        ([chunk [block (block_start "b1" (Some "text"));
                                 block (block_delta "b1" "content" "Hi ")];
                          frame;
                          chunk [block (block_delta "b1" "content" "there");
                                 block (block_end "b1" None)]]
                         ++ [chunk [done None None]])))
        = ((λ j, progress_update "b1" "text" (take j ["Hi "; "there"])) <$> js)
          ++ [text_final 0%Z "b1" "text" ["Hi "; "there"] None]
        ∧ StronglySorted lt js.
Proof.
  destruct (text_block_streams_progressively 0%Z "b1" "text" ["Hi "; "there"] None
              [chunk [block (block_start "b1" (Some "text"));
                      block (block_delta "b1" "content" "Hi ")];
               frame;
               chunk [block (block_delta "b1" "content" "there");
                      block (block_end "b1" None)]]
              None None) as [_ H].
  - by left.
  - repeat constructor.
  - reflexivity.
  - done.
  - exact H.
Defined.

End TextStream.

(** ** A list block from end to end

    The stream of one list block: its [block_start], deltas to [items], each
    pushed onto the one array of the block, and its [block_end], followed by
    [done]. *)

Module ListStream.
Import JsString Hook StreamQuery Delivery Blocks BlockStream.

Section list_block.
Variables (c : number) (id : string) (vs : list string) (pa : option bool).

(** The heap and the data of the block when the items [ws] have arrived:
    the first delta makes the array, in cell 0. *)
Definition items_heap (ws : list string) : Heap :=
  match ws with [] => [] | _ => [JStr <$> ws] end.

Definition items_data (ws : list string) : gmap string jsval :=
  match ws with [] => ∅ | _ => {[ "items" := JRef 0 ]} end.

Definition items_block (ws : list string) : ContentBlock :=
  ContentBlock.mk "list" (items_data ws ∪ {[ "id" := JStr id ]}).

(** The update of an animation frame when the items [ws] have arrived. *)
Definition items_update (ws : list string) : Update.t :=
  Update.mk (Some (join nl ws)) (Some (Some [items_block ws])) None (Some true) None.

Definition items_final (score : option number) : Update.t :=
  Update.mk (Some (join nl vs)) (Some (Some [items_block vs])) (Some [])
    (Some false) (Some (default c score)).

(** The events of the block. *)
Definition item_events : list BlockEvent :=
  block_start id (Some "list") :: (block_delta id "items" <$> vs) ++ [block_end id pa].

Definition items_open (ws : list string) : Assembler :=
  {| heap := items_heap ws;
     streamingBlocks := [(id, with_data (fresh_block id "list") (items_data ws))];
     completedBlocks := [] |}.

Definition items_closed : Assembler :=
  {| heap := items_heap vs; streamingBlocks := []; completedBlocks := [items_block vs] |}.

(** The assembler after the first [n] events of the block. *)
Definition items_at (n : nat) : Assembler :=
  match n with
  | 0 => initial
  | S j => if decide (j ≤ length vs) then items_open (take j vs) else items_closed
  end.

Lemma length_item_events : length item_events = S (S (length vs)).
Proof. unfold item_events. simpl. rewrite length_app, length_fmap. simpl. lia. Qed.

Lemma item_events_lookup n e :
  item_events !! n = Some e →
  (n = 0 ∧ e = block_start id (Some "list"))
  ∨ (∃ j v, n = S j ∧ vs !! j = Some v ∧ e = block_delta id "items" v)
  ∨ (n = S (length vs) ∧ e = block_end id pa).
Proof.
  unfold item_events. destruct n as [|j]; simpl.
  { intros [= <-]. by left. }
  intros H. right. apply lookup_app_Some in H as [H|[Hlen H]].
  - rewrite list_lookup_fmap in H.
    destruct (vs !! j) as [v|] eqn:E; [|done]. injection H as <-.
    left. by exists j, v.
  - rewrite length_fmap in *.
    destruct (j - length vs) as [|k] eqn:E; [|done].
    injection H as <-. right. split; [|done]. f_equal. lia.
Qed.

Lemma items_delta ws v st :
  data st = items_data ws →
  applyBlockDelta "items" v (items_heap ws, st)
  = (inr tt, (items_heap (ws ++ [v]), with_data st (items_data (ws ++ [v])))).
Proof.
  intros Hd. unfold applyBlockDelta.
  change (is_accumulating "items") with true. cbn iota. rewrite Hd.
  destruct ws as [|w ws].
  - simpl items_data. rewrite lookup_empty. cbn [truthy negb alloc].
    rewrite lookup_insert_eq. by rewrite insert_empty.
  - change (items_data (w :: ws)) with ({[ "items" := JRef 0 ]} : gmap string jsval).
    rewrite lookup_singleton_eq. cbn [truthy negb].
    rewrite lookup_singleton_eq.
    change (String.eqb "items" "rows") with false. cbn iota.
    unfold with_data. do 3 f_equal.
    unfold push, items_heap. simpl. by rewrite fmap_app.
Qed.

Lemma items_open_delta ws v :
  assemble (items_open ws) (block_delta id "items" v) = items_open (ws ++ [v]).
Proof.
  unfold assemble, on_block_delta, items_open.
  cbn [streamingBlocks heap completedBlocks].
  set (st := with_data (fresh_block id "list") (items_data ws)).
  assert (Hh : map_has [(id, st)] id = true).
  { unfold map_has. simpl. by rewrite String.eqb_refl. }
  assert (Hg : map_get [(id, st)] id = Some st).
  { simpl. by rewrite String.eqb_refl. }
  rewrite Hh. cbn [negb]. rewrite Hg, (items_delta ws v st) by done.
  cbn [snd map_set]. by rewrite String.eqb_refl.
Qed.

Lemma items_at_step n e :
  item_events !! n = Some e → assemble (items_at n) e = items_at (S n).
Proof.
  intros [[-> ->]|[(j & v & -> & Hv & ->)|[-> ->]]]%item_events_lookup.
  - done.
  - pose proof (lookup_lt_Some _ _ _ Hv) as Hlt.
    unfold items_at. rewrite !decide_True by lia.
    by rewrite items_open_delta, (take_S_r _ _ _ Hv).
  - unfold items_at. rewrite decide_True, decide_False by lia.
    rewrite take_ge by done. simpl. unfold on_block_end, items_open. simpl.
    by rewrite String.eqb_refl.
Qed.

Lemma after_items_at n :
  n ≤ length item_events → after item_events n = items_at n.
Proof.
  induction n as [|n IH]; intros Hn; [done|].
  destruct (lookup_lt_is_Some_2 item_events n) as [e He]; [lia|].
  rewrite <-(after_step _ _ _ He), IH by lia. by apply items_at_step.
Qed.

Lemma items_at_snapshot n :
  snapshot (items_at (S n)) = [items_block (take n vs)]
  ∧ heap (items_at (S n)) = items_heap (take n vs).
Proof.
  unfold items_at. case_decide as Hn; [done|]. rewrite take_ge by lia. done.
Qed.

Lemma items_block_text ws :
  block_text (items_heap ws) (items_block ws) = join nl ws.
Proof.
  unfold block_text, items_block. simpl.
  destruct ws as [|w ws]; [done|].
  change (items_data (w :: ws)) with ({[ "items" := JRef 0 ]} : gmap string jsval).
  erewrite lookup_union_Some_l by apply lookup_singleton_eq.
  unfold as_strings, items_heap. simpl. do 2 f_equal.
  rewrite <-list_fmap_compose. by rewrite list_fmap_id.
Qed.

Lemma items_block_fallback ws :
  blocksToTextFallback (items_heap ws) [items_block ws] = join nl ws.
Proof.
  unfold blocksToTextFallback. simpl. rewrite items_block_text, filter_cons.
  case_decide as Hd; [done|].
  apply not_false_iff_true, falsy_true in Hd. by rewrite Hd.
Qed.

(** X21.  One list block, streamed as [block_start], one [block_delta] to
    [items] for each of the items [vs], and [block_end], then [done], with a
    text that is not empty.  Whatever the chunks and the frames, every update
    but the last has the first [j] items, joined with line feeds, as its
    content, for strictly increasing [j]; the last update is final, with all
    the items, and the items are in the one array the first delta made. *)
Theorem list_block_streams_progressively (ins : list Input)
    (mid : option string) (score : option number) :
  Forall block_input ins → block_events ins = item_events → join nl vs ≠ "" →
  let s := run (init c) (ins ++ [chunk [done mid score]]) in
  quiet s
  ∧ heap (asm s) = [JStr <$> vs]
  ∧ ∃ js, updates (out s)
          = ((λ j, items_update (take j vs)) <$> js) ++ [items_final score]
          ∧ StronglySorted lt js.
Proof.
  intros Hins Hev Hvs s.
  assert (Hall : assemble_all initial item_events = items_closed).
  { replace (assemble_all initial item_events)
      with (after item_events (length item_events))
      by (unfold after; by rewrite firstn_all).
    rewrite after_items_at, length_item_events by done.
    unfold items_at. by rewrite decide_False by lia. }
  destruct (scripted_stream c item_events ins mid score
              (λ k, items_update (take (k - 1) vs)) (items_final score) Hins Hev)
    as (Hq & Ha & ns & Hu & Hs & Hb).
  - intros [|k] Hk; [lia|]. rewrite after_items_at by lia.
    unfold snapshot_update, text_of.
    destruct (items_at_snapshot k) as [-> ->].
    rewrite items_block_fallback.
    by replace (S k - 1) with k by lia.
  - intros r. rewrite Hall. unfold final_update, items_final, text_of.
    change (snapshot items_closed) with [items_block vs].
    change (heap items_closed) with (items_heap vs).
    rewrite items_block_fallback.
    unfold first_truthy. simpl. by destruct (join nl vs).
  - split; [done|]. split.
    { fold s in Ha. rewrite Ha, Hall. simpl. by destruct vs. }
    exists ((λ k, k - 1) <$> ns). split.
    + by rewrite <-list_fmap_compose.
    + by apply (sorted_pred (length item_events)).
Qed.

End list_block.

Lemma list_block_streams_progressively_witness :
  heap (asm (run (init 0%Z)
               ([chunk [block (block_start "b1" (Some "list"));
                        block (block_delta "b1" "items" "one")];
                 frame;
                 chunk [block (block_delta "b1" "items" "two");
                        block (block_end "b1" None)]]
                ++ [chunk [done None None]])))
  = [JStr <$> ["one"; "two"]]
  ∧ ∃ js, updates (out (run (init 0%Z)
                        ([chunk [block (block_start "b1" (Some "list"));
                                 block (block_delta "b1" "items" "one")];
                          frame;
                          chunk [block (block_delta "b1" "items" "two");
                                 block (block_end "b1" None)]]
                         ++ [chunk [done None None]])))
        = ((λ j, items_update "b1" (take j ["one"; "two"])) <$> js)
          ++ [items_final 0%Z "b1" ["one"; "two"] None]
        ∧ StronglySorted lt js.
Proof.
  destruct (list_block_streams_progressively 0%Z "b1" ["one"; "two"] None
              [chunk [block (block_start "b1" (Some "list"));
                      block (block_delta "b1" "items" "one")];
               frame;
               chunk [block (block_delta "b1" "items" "two");
                      block (block_end "b1" None)]]
              None None) as [_ H].
  - repeat constructor.
  - reflexivity.
  - done.
  - exact H.
Defined.

End ListStream.

(** ** [examples/frontend/useStreamingQuery.ts]: a stream without blocks

    A stream that carries no block event: the answer comes in [response]
    events, each with the whole text so far. *)

Module ResponseStream.
Import JsString Hook StreamQuery Delivery.

(** The events that are neither block events nor terminal. *)
Definition is_plain (e : Event) : bool :=
  match e with
  | block _ | done _ _ | error _ _ _ => false
  | _ => true
  end.

(** A chunk of such events, or an animation frame. *)
Definition plain_input (i : Input) : Prop :=
  match i with
  | chunk es => Forall (λ e, is_plain e = true) es
  | frame => True
  | _ => False
  end.

(** The events of the chunks, in order. *)
Fixpoint events_of (ins : list Input) : list Event :=
  match ins with
  | [] => []
  | chunk es :: ins' => es ++ events_of ins'
  | _ :: ins' => events_of ins'
  end.

(** The text and the citations the loop holds after an event. *)
Definition response_after (r : string) (e : Event) : string :=
  match e with
  | response (Some d) => d
  | _ => r
  end.

Definition citations_after (cs : list Citation.t) (e : Event) : list Citation.t :=
  match e with
  | citations (Some raw) => imap to_citation raw
  | _ => cs
  end.

Section response_stream.
Variable c : number.

(** The loop reads, has assembled nothing, has nothing scheduled, and holds
    the text [r] and the citations [cs]. *)
Record K (s : Loop) (r : string) (cs : list Citation.t) : Prop := {
  K_reading : reading s = true;
  K_stop : stopStreamingRef s = false;
  K_done : receivedDoneEvent s = false;
  K_pending : pendingUpdate s = false;
  K_asm : asm s = initial;
  K_confidence : confidence s = c;
  K_response : fullResponse s = r;
  K_citations : citations_ s = cs
}.

Lemma K_init : K (init c) "" [].
Proof. by split. Qed.

Lemma K_event s r cs e :
  is_plain e = true → K s r cs →
  K (process_event s e) (response_after r e) (citations_after cs e).
Proof.
  intros He []. destruct e as [[i|]|[i|]| |m|b|[d|]|[raw|]|[x|]|? ?|? ? ?];
    try done; simpl; try (by split).
  - destruct (falsy i); by split.
  - destruct (falsy i); by split.
  - destruct (falsy (fullResponse s)); by split.
Qed.

Lemma K_events es : ∀ s r cs,
  Forall (λ e, is_plain e = true) es → K s r cs →
  K (process_events s es) (foldl response_after r es) (foldl citations_after cs es).
Proof.
  induction es as [|e es IH]; intros s r cs Hes HK; [done|].
  apply Forall_cons in Hes as [He Hes]. simpl. rewrite (K_stop _ _ _ HK).
  apply IH; [done|]. by apply K_event.
Qed.

Lemma K_begin_chunk s r cs : K s r cs → K (begin_chunk s) r cs.
Proof.
  intros []. unfold begin_chunk.
  destruct (timeoutRef s); [destruct (falsy _)|]; by split.
Qed.

Lemma K_run ins : ∀ s r cs,
  Forall plain_input ins → K s r cs →
  K (run s ins) (foldl response_after r (events_of ins))
    (foldl citations_after cs (events_of ins)).
Proof.
  induction ins as [|i ins IH]; intros s r cs Hins HK; [done|].
  apply Forall_cons in Hins as [Hi Hins]. rewrite run_cons.
  destruct i as [es| | | | |]; try done.
  - simpl events_of. rewrite !foldl_app. apply IH; [done|].
    simpl. rewrite (K_reading _ _ _ HK).
    pose proof (K_events es _ _ _ Hi (K_begin_chunk _ _ _ HK)) as HK'.
    unfold loop_head. by rewrite (K_stop _ _ _ HK').
  - simpl events_of. apply IH; [done|]. simpl. by rewrite (K_pending _ _ _ HK).
Qed.

(** X22.  A stream without block events that ends with [done].  The last
    update is final and has no blocks; its content is the [data] of the last
    [response] event that held a string, or [No response received.] when
    there is none or it is empty; its citations are those of the last
    [citations] event that held an array, and its confidence is the score of
    the [done] event or the captured confidence. *)
Theorem response_stream_end_to_end (ins : list Input)
    (mid : option string) (score : option number) :
  Forall plain_input ins →
  let s := run (init c) (ins ++ [chunk [done mid score]]) in
  quiet s
  ∧ last (updates (out s))
    = Some (Update.mk
              (Some (first_truthy [Some (foldl response_after "" (events_of ins))]
                       "No response received."))
              (Some None)
              (Some (foldl citations_after [] (events_of ins)))
              (Some false)
              (Some (default c score))).
Proof.
  intros Hins s. pose proof (K_run ins (init c) "" [] Hins K_init) as HK.
  unfold s, run. rewrite foldl_app. fold (run (init c) ins).
  set (s1 := run (init c) ins) in *.
  pose proof (K_begin_chunk _ _ _ HK) as HK0.
  set (s0 := begin_chunk s1) in *.
  destruct (process_event_done s0 mid score)
    as (Hst & Hdone & _ & _ & l & Hout & Hl).
  assert (Hdu : done_update s0 score
                = Update.mk
                    (Some (first_truthy
                             [Some (foldl response_after "" (events_of ins))]
                             "No response received."))
                    (Some None)
                    (Some (foldl citations_after [] (events_of ins)))
                    (Some false) (Some (default c score))).
  { unfold done_update, currentBlocks.
    by rewrite (K_asm _ _ _ HK0), (K_citations _ _ _ HK0),
      (K_confidence _ _ _ HK0), (K_response _ _ _ HK0). }
  remember (process_event s0 (done mid score)) as s2 eqn:Hs2.
  assert (Heq : step s1 (chunk [done mid score])
                = finish (emit reader_cancel s2)).
  { change (step s1 (chunk [done mid score]))
      with (if reading s1 then loop_head (process_events s0 [done mid score])
            else s1).
    rewrite (K_reading _ _ _ HK).
    change (process_events s0 [done mid score])
      with (if stopStreamingRef s0 then s0
            else process_event s0 (done mid score)).
    rewrite (K_stop _ _ _ HK0), <-Hs2. unfold loop_head. by rewrite Hst. }
  change (foldl step s1 [chunk [done mid score]])
    with (step s1 (chunk [done mid score])).
  rewrite Heq. split; [apply finish_quiet|].
  rewrite finish_out. simpl. rewrite Hdone, app_nil_r, !updates_app, Hout.
  rewrite !updates_app, Hl, Hdu. simpl. rewrite app_nil_r.
  apply last_snoc.
Qed.

End response_stream.

Lemma response_stream_end_to_end_witness :
  last (updates (out (run (init 0%Z)
                        ([chunk [start; response (Some "Hel")];
                          frame;
                          chunk [progress None; response (Some "Hello")]]
                         ++ [chunk [done None None]]))))
  = Some (Update.mk (Some "Hello") (Some None) (Some []) (Some false) (Some 0%Z)).
Proof.
  destruct (response_stream_end_to_end 0%Z
              [chunk [start; response (Some "Hel")];
               frame;
               chunk [progress None; response (Some "Hello")]]
              None None) as [_ H].
  - repeat constructor.
  - exact H.
Defined.

End ResponseStream.

(** ** [examples/frontend/BlockRenderer.tsx]: the parts of a text block

    [TextBlock] cuts the content at the inline citations, [content.split(/(\[\d+\])/g)],
    and renders a part that holds a citation, [part.match(/\[(\d+)\]/)], as a
    button for the number [parseInt] reads from its digits, and any other
    part as a span. *)

Module Renderer.
Import JsString.

(** [\d] *)
Definition is_digit (c : ascii) : bool :=
  (48 <=? N_of_ascii c)%N && (N_of_ascii c <=? 57)%N.

Fixpoint all_digits (s : string) : bool :=
  match s with
  | EmptyString => true
  | String c s' => is_digit c && all_digits s'
  end.

(** The longest prefix of digits, which is what a greedy [\d+] takes, and
    the text after it. *)
Fixpoint span_digits (s : string) : string * string :=
  match s with
  | EmptyString => (EmptyString, EmptyString)
  | String c s' =>
      if is_digit c then
        let '(ds, rest) := span_digits s' in (String c ds, rest)
      else (EmptyString, s)
  end.

(** A match of [\[\d+\]] at the start of [s]: the digits, and the text after
    the match. *)
Definition marker_at (s : string) : option (string * string) :=
  match s with
  | String c s1 =>
      if Ascii.eqb c "[" then
        match span_digits s1 with
        | (String d ds, String r rest) =>
            if Ascii.eqb r "]" then Some (String d ds, rest) else None
        | _ => None
        end
      else None
  | EmptyString => None
  end.

(** [part.match(/\[(\d+)\]/)]: the digits of the first match in [part]. *)
Fixpoint find_marker (s : string) : option string :=
  match marker_at s with
  | Some (ds, _) => Some ds
  | None =>
      match s with
      | EmptyString => None
      | String _ s' => find_marker s'
      end
  end.

(** The text of a citation. *)
Definition marker (ds : string) : string := "[" +:+ ds +:+ "]".

(** The split, from left to right: [acc] is the text since the last match;
    [fuel] bounds the number of steps. *)
Fixpoint split_from (fuel : nat) (acc s : string) : list string :=
  match fuel with
  | 0 => [acc +:+ s]
  | S fuel' =>
      match marker_at s with
      | Some (ds, rest) => acc :: marker ds :: split_from fuel' "" rest
      | None =>
          match s with
          | EmptyString => [acc]
          | String c s' => split_from fuel' (acc +:+ String c "") s'
          end
      end
  end.

(** [content.split(/(\[\d+\])/g)] *)
Definition split_citations (content : string) : list string :=
  split_from (S (String.length content)) "" content.

(** The number that a string of digits writes. *)
Definition digit_value (c : ascii) : N := (N_of_ascii c - 48)%N.

Fixpoint decimal_from (acc : N) (s : string) : N :=
  match s with
  | EmptyString => acc
  | String c s' => decimal_from (10 * acc + digit_value c) s'
  end.

Definition decimal (s : string) : N := decimal_from 0 s.

Section text_block.

(** [parseInt(citationMatch[1])]: the number the digits write, as a double,
    which is that number itself up to 2^53 ([decimal]) and a double next to
    it above.  The numbers and the function are parameters. *)
Variable number : Type.
Variable parseInt : string → number.

(** What [TextBlock] renders for a part: a button that shows [citeNum] and
    looks the citation up by it, or a span with the text of the part. *)
Inductive Node :=
| button (citeNum : number)
| span (text : string).

Definition render_part (part : string) : Node :=
  match find_marker part with
  | Some ds => button (parseInt ds)
  | None => span part
  end.

Definition TextBlock (content : string) : list Node :=
  render_part <$> split_citations content.

Lemma length_append (a b : string) :
  String.length (a +:+ b) = String.length a + String.length b.
Proof. induction a as [|x a IH]; [done|]. rewrite append_cons. simpl. by rewrite IH. Qed.

Lemma span_digits_eq s :
  s = (span_digits s).1 +:+ (span_digits s).2
  ∧ all_digits (span_digits s).1 = true.
Proof.
  induction s as [|c s [IH1 IH2]]; [done|]. simpl.
  destruct (is_digit c) eqn:Hc; [|done].
  destruct (span_digits s) as [ds rest]. simpl in *.
  rewrite Hc. split; [|done]. rewrite append_cons. by f_equal.
Qed.

Lemma span_digits_marker ds rest :
  all_digits ds = true → span_digits (ds +:+ "]" +:+ rest) = (ds, "]" +:+ rest).
Proof.
  induction ds as [|c ds IH]; [done|]. cbn [all_digits].
  intros [Hc Hds]%andb_true_iff. rewrite append_cons. cbn [span_digits].
  by rewrite Hc, (IH Hds).
Qed.

Lemma marker_append ds rest :
  marker ds +:+ rest = String "[" (ds +:+ String "]" rest).
Proof. unfold marker. by rewrite !append_assoc. Qed.

Lemma marker_at_Some s ds rest :
  marker_at s = Some (ds, rest) →
  s = marker ds +:+ rest ∧ ds ≠ "" ∧ all_digits ds = true.
Proof.
  unfold marker_at. destruct s as [|c s]; [done|].
  destruct (Ascii.eqb c "[") eqn:Hc; [|done].
  apply Ascii.eqb_eq in Hc as ->.
  destruct (span_digits_eq s) as [Hs Hd].
  destruct (span_digits s) as [[|d ds'] [|r rest']]; try done.
  destruct (Ascii.eqb r "]") eqn:Hr; [|done].
  apply Ascii.eqb_eq in Hr as ->. intros [= <- <-].
  split_and!; [|done..]. by rewrite Hs, marker_append.
Qed.

Lemma marker_at_marker ds rest :
  ds ≠ "" → all_digits ds = true →
  marker_at (marker ds +:+ rest) = Some (ds, rest).
Proof.
  intros Hne Hds. rewrite marker_append. unfold marker_at.
  rewrite Ascii.eqb_refl.
  change (String "]" rest) with ("]" +:+ rest).
  rewrite (span_digits_marker ds rest Hds). by destruct ds.
Qed.

Lemma marker_at_append s t ds rest :
  marker_at s = Some (ds, rest) → marker_at (s +:+ t) = Some (ds, rest +:+ t).
Proof.
  intros (-> & Hne & Hds)%marker_at_Some.
  rewrite append_assoc. by apply marker_at_marker.
Qed.

Lemma marker_at_None_append s t : marker_at (s +:+ t) = None → marker_at s = None.
Proof.
  intros H. destruct (marker_at s) as [[ds rest]|] eqn:E; [|done].
  by rewrite (marker_at_append s t ds rest E) in H.
Qed.

(** No match starts inside [acc] when [s] follows it. *)
Fixpoint clear (acc s : string) : Prop :=
  match acc with
  | EmptyString => True
  | String _ acc' => marker_at (acc +:+ s) = None ∧ clear acc' s
  end.

Lemma clear_find acc s : clear acc s → find_marker acc = None.
Proof.
  induction acc as [|c acc IH]; [done|]. intros [Hm Hc].
  cbn [find_marker]. rewrite (marker_at_None_append _ _ Hm). by apply IH.
Qed.

Lemma clear_snoc acc c s :
  clear acc (String c s) → marker_at (String c s) = None →
  clear (acc +:+ String c "") s.
Proof.
  intros Hc Hm. induction acc as [|a acc IH]; [done|].
  destruct Hc as [Ha Hc]. rewrite append_cons. split; [|by apply IH].
  rewrite append_cons, append_assoc. by rewrite append_cons in Ha.
Qed.

Lemma find_marker_marker ds :
  ds ≠ "" → all_digits ds = true → find_marker (marker ds) = Some ds.
Proof.
  intros Hne Hds. pose proof (marker_at_marker ds "" Hne Hds) as H.
  rewrite append_empty_r in H.
  assert (marker ds = String "[" (ds +:+ "]")) as Hm by done.
  rewrite Hm in *. cbn [find_marker]. by rewrite H.
Qed.

(** A part at an odd place is a citation; a part at an even place holds
    none. *)
Definition part_ok (i : nat) (part : string) : Prop :=
  if Nat.even i then find_marker part = None
  else ∃ ds, part = marker ds ∧ ds ≠ "" ∧ all_digits ds = true
             ∧ find_marker part = Some ds.

Lemma split_from_spec fuel : ∀ acc s,
  String.length s < fuel → clear acc s →
  concat_all (split_from fuel acc s) = acc +:+ s
  ∧ ∀ i part, split_from fuel acc s !! i = Some part → part_ok i part.
Proof.
  induction fuel as [|fuel IH]; intros acc s Hlen Hc; [lia|].
  cbn [split_from]. destruct (marker_at s) as [[ds rest]|] eqn:Hm.
  - destruct (marker_at_Some s ds rest Hm) as (-> & Hne & Hds).
    destruct (IH "" rest) as [IH1 IH2]; [|done|].
    { rewrite marker_append in Hlen. simpl in Hlen.
      rewrite length_append in Hlen. simpl in Hlen. lia. }
    split.
    + change (concat_all (acc :: marker ds :: split_from fuel "" rest))
        with (acc +:+ marker ds +:+ concat_all (split_from fuel "" rest)).
      by rewrite IH1.
    + intros [|[|i]] part Hi; simpl in Hi.
      * injection Hi as <-. unfold part_ok. simpl.
        eapply clear_find, Hc.
      * injection Hi as <-. unfold part_ok. simpl.
        exists ds. split_and!; [done..|]. by apply find_marker_marker.
      * specialize (IH2 i part Hi). unfold part_ok in *.
        by rewrite Nat.even_succ_succ.
  - destruct s as [|c s].
    + split; [done|].
      intros [|i] part Hi; [|done]. injection Hi as <-.
      unfold part_ok. simpl. by eapply clear_find, Hc.
    + destruct (IH (acc +:+ String c "") s) as [IH1 IH2].
      { simpl in Hlen. lia. }
      { by apply clear_snoc. }
      split; [|done]. by rewrite IH1, append_assoc.
Qed.

Lemma split_from_odd fuel : ∀ acc s,
  Nat.odd (length (split_from fuel acc s)) = true.
Proof.
  induction fuel as [|fuel IH]; intros acc s; [done|].
  cbn [split_from]. destruct (marker_at s) as [[ds rest]|].
  - cbn [length]. by rewrite Nat.odd_succ_succ.
  - destruct s as [|c s]; [done|]. apply IH.
Qed.

(** X23.  The parts into which [TextBlock] cuts a content at its citation
    markers concatenate to the content; their number is odd, and one node is
    rendered for each part. *)
Theorem citation_parts_round_trip (content : string) :
  concat_all (split_citations content) = content
  ∧ Nat.odd (length (split_citations content)) = true
  ∧ length (TextBlock content) = length (split_citations content).
Proof.
  unfold TextBlock, split_citations. split_and!.
  - destruct (split_from_spec (S (String.length content)) "" content) as [H _];
      [lia|done|]. exact H.
  - apply split_from_odd.
  - apply length_fmap.
Qed.

(** X24.  The parts alternate.  A part at an even place holds no citation
    marker and is rendered as a span with its text; a part at an odd place is
    a marker, an opening bracket, one digit or more and a closing bracket,
    and is rendered as a button for the number that [parseInt] reads from
    these digits. *)
Theorem citation_parts_alternate (content : string) (i : nat) (part : string) :
  split_citations content !! i = Some part →
  TextBlock content !! i = Some (render_part part)
  ∧ if Nat.even i then render_part part = span part
    else ∃ ds, part = marker ds ∧ ds ≠ "" ∧ all_digits ds = true
               ∧ render_part part = button (parseInt ds).
Proof.
  intros Hi. split.
  { unfold TextBlock. by rewrite list_lookup_fmap, Hi. }
  destruct (split_from_spec (S (String.length content)) "" content) as [_ H];
    [lia|done|].
  specialize (H i part Hi). unfold part_ok, render_part in *.
  destruct (Nat.even i).
  - by rewrite H.
  - destruct H as (ds & -> & Hne & Hds & Hf). exists ds. by rewrite Hf.
Qed.

End text_block.

Global Arguments button {number} citeNum.
Global Arguments span {number} text.

Lemma citation_parts_alternate_witness :
  TextBlock N decimal "See [12] and [x]." !! 1 = Some (render_part N decimal "[12]")
  ∧ ∃ ds, "[12]" = marker ds ∧ ds ≠ "" ∧ all_digits ds = true
          ∧ render_part N decimal "[12]" = button (decimal ds).
Proof.
  apply (citation_parts_alternate N decimal "See [12] and [x]." 1 "[12]").
  reflexivity.
Defined.

(** The button shows the number, not the digits: [[007]] gives 7. *)
Example text_block_parts :
  TextBlock N decimal "See [12] and [x][007]"
  = [span "See "; button 12%N; span " and [x]"; button 7%N; span ""].
Proof. reflexivity. Qed.

End Renderer.
